(** * Eventa: the invoke protocol over an in-process event bus

    A shallow embedding of the invoke state machine of moeru-ai/eventa:

    - [src/invoke-shared.ts]          the family of correlated descriptors,
    - [src/invoke.ts]                 the unary client and server,
    - [src/stream.ts]                 the streaming client and server (two
                                      revisions: the plain one and the one with
                                      cancellation),
    - [src/context-extension-invoke-internal.ts]  fatal-event registration,
    - [src/invoke-remote-methods.ts]  the remote-method payload walks,
    - [src/utils.ts]                  [createAbortError] and the stream tests.

    JavaScript closures are defunctionalised: every listener, handler and
    microtask continuation of the sources is a constructor carrying the
    variables its closure captures, and one interpreter per kind runs its
    body.  The single-threaded scheduler is a FIFO list of microtasks. *)

From Stdlib Require Import String ZArith Lia.
From stdpp Require Import base option gmap strings list fin_maps pretty.

Set Warnings "-register-all".

(** ** invoke-shared.ts: the invoke family

    A descriptor is its [id]: two descriptors are the same event iff their
    ids agree. *)
Record InvokeEventa := mkInvokeEventa {
  sendEvent : string;
  sendEventError : string;
  sendEventStreamEnd : string;
  sendEventAbort : string;
  receiveEvent : string;
  receiveEventError : string;
  receiveEventStreamEnd : string
}.

(** The family [defineInvokeEventa] builds once the tag is settled. *)
Definition invokeEventaOf (tag : string) : InvokeEventa :=
  {| sendEvent := tag +:+ "-send";
     sendEventError := tag +:+ "-send-error";
     sendEventStreamEnd := tag +:+ "-send-stream-end";
     sendEventAbort := tag +:+ "-send-abort";
     receiveEvent := tag +:+ "-receive";
     receiveEventError := tag +:+ "-receive-error";
     receiveEventStreamEnd := tag +:+ "-receive-stream-end" |}.

(** The per-call descriptor [defineEventa(`${base}-${invokeId}`)]. *)
Definition perCall (base invokeId : string) : string :=
  base +:+ "-" +:+ invokeId.

#[global] Instance InvokeEventa_eq_dec : EqDecision InvokeEventa.
Proof. solve_decision. Defined.

(** ** JavaScript values *)

(** The prototype an object value is linked to. *)
Inductive Prototype :=
| PNull        (* Object.create(null) *)
| PObject      (* Object.prototype: object literals, JSON.parse results *)
| PArray       (* Array.prototype *)
| PFunction    (* Function.prototype *)
| PError       (* Error.prototype, behind Error and DOMException instances *)
| PStream      (* ReadableStream.prototype *)
| PClass (k : nat).  (* the prototype of some other class *)

(** A function value, by identity: a function of the user, or the client
    function [defineInvoke] returned for its factory [c] on a family. *)
Inductive Fn :=
| FUser (f : nat)
| FInvoke (c : nat) (event : InvokeEventa).

(** Payload values.  Object values are trees and carry no identity: whether
    equal nodes are one and the same object is for the runtime to tell
    ([sameObject], below), and no node is its own descendant, so an object
    that contains itself has no value.  The fields of [JObj] are the own
    enumerable string-keyed properties in property order. *)
Inductive JsVal :=
| JUndefined
| JNull
| JBool (b : bool)
| JNum (n : Z)
| JStr (s : string)
| JFun (f : Fn)
| JErr (name message : string)         (* an Error or DOMException instance *)
| JStream (h : nat)                    (* a ReadableStream, by handle *)
| JArr (items : list JsVal)
| JObj (proto : Prototype) (fields : list (string * JsVal)).

#[global] Instance Prototype_eq_dec : EqDecision Prototype.
Proof. solve_decision. Defined.

#[global] Instance Fn_eq_dec : EqDecision Fn.
Proof. solve_decision. Defined.

#[global] Instance JsVal_eq_dec : EqDecision JsVal.
Proof.
  refine (fix go (a b : JsVal) {struct a} : Decision (a = b) :=
    match a, b with
    | JUndefined, JUndefined => left _
    | JNull, JNull => left _
    | JBool x, JBool y => cast_if (decide (x = y))
    | JNum x, JNum y => cast_if (decide (x = y))
    | JStr x, JStr y => cast_if (decide (x = y))
    | JFun x, JFun y => cast_if (decide (x = y))
    | JErr n m, JErr n' m' => cast_if_and (decide (n = n')) (decide (m = m'))
    | JStream x, JStream y => cast_if (decide (x = y))
    | JArr xs, JArr ys => cast_if (@list_eq_dec _ go xs ys)
    | JObj p fs, JObj q gs =>
        cast_if_and (decide (p = q))
                    (@list_eq_dec _ (@prod_eq_dec _ _ _ go) fs gs)
    | _, _ => right _
    end); congruence.
Defined.

Definition prototypeOf (v : JsVal) : option Prototype :=
  match v with
  | JFun _ => Some PFunction
  | JErr _ _ => Some PError
  | JStream _ => Some PStream
  | JArr _ => Some PArray
  | JObj p _ => Some p
  | _ => None
  end.

(** [typeof v === 'object'], which holds of [null] too. *)
Definition typeofObject (v : JsVal) : bool :=
  match v with
  | JNull | JErr _ _ | JStream _ | JArr _ | JObj _ _ => true
  | _ => false
  end.

Definition typeofFunction (v : JsVal) : bool :=
  match v with
  | JFun _ => true
  | _ => false
  end.

(** JavaScript truthiness ([!!v]); numbers are integers here, so there is no
    NaN. *)
Definition truthy (v : JsVal) : bool :=
  match v with
  | JUndefined | JNull => false
  | JBool b => b
  | JNum n => negb (n =? 0)%Z
  | JStr s => negb (String.eqb s "")
  | _ => true
  end.

(** Own-property read [o[k]] on a plain record; [undefined] when absent. *)
Fixpoint lookupField (k : string) (fs : list (string * JsVal)) : option JsVal :=
  match fs with
  | [] => None
  | (k', v) :: fs' => if String.eqb k k' then Some v else lookupField k fs'
  end.

Definition getField (k : string) (v : JsVal) : JsVal :=
  match v with
  | JObj _ fs => default JUndefined (lookupField k fs)
  | _ => JUndefined
  end.

(** ** utils.ts *)

(** [isReadableStream] and [isAsyncIterable]: of the values of the model only
    streams carry [getReader] or [Symbol.asyncIterator]. *)
Definition isReadableStream (v : JsVal) : bool :=
  match v with JStream _ => true | _ => false end.

Definition isAsyncIterable (v : JsVal) : bool :=
  match v with JStream _ => true | _ => false end.

Definition isAbortError (v : JsVal) : bool :=
  match v with
  | JErr name _ => String.eqb name "AbortError"
  | _ => false
  end.

(** What evaluating an expression gives: its value, or the error it
    threw. *)
Inductive Completion (A : Type) :=
| Value (a : A)
| Exception (e : JsVal).
Arguments Value {A} a.
Arguments Exception {A} e.

Section AbortError.
(** [String(v)] is a builtin of the language: it throws what the
    conversion of an object throws, a TypeError for an object without
    [toString] such as [Object.create(null)].  Whether [DOMException]
    exists depends on the runtime.  Both are parameters. *)
Variable jsString : JsVal -> Completion string.
Variable hasDOMException : bool.

(** [reason ? String(reason) : 'Aborted']. *)
Definition abortMessage (reason : JsVal) : Completion string :=
  if truthy reason then jsString reason else Value "Aborted".

(** [createAbortError].  The [try] around [new DOMException(...)] catches
    what [String(reason)] throws there and falls through to the last
    three lines, where the same conversion stands outside any [try]. *)
Definition createAbortError (reason : JsVal) : Completion JsVal :=
  if isAbortError reason then Value reason
  else
    let fallback :=
      match reason with
      | JErr _ message => Value (JErr "AbortError" message)
      | _ =>
          match abortMessage reason with
          | Value message => Value (JErr "AbortError" message)
          | Exception e => Exception e
          end
      end in
    if hasDOMException then
      match abortMessage reason with
      | Value message => Value (JErr "AbortError" message)
      | Exception _ => fallback
      end
    else fallback.
End AbortError.

(** The [name] property of an error value. *)
Definition errorName (v : JsVal) : option string :=
  match v with JErr name _ => Some name | _ => None end.

(** ** ReadableStream with a default controller

    The queue holds the chunks not yet read, [taken] the chunks the consumer
    has read so far.  [enqueue] and [close] throw a TypeError ([None]) unless
    the stream is readable and no close was requested; [error] is ignored
    unless the stream is readable, and drops the queue. *)
Inductive StreamState :=
| Readable
| Closed
| Errored (e : JsVal).

Record Stream := mkStream {
  queue : list JsVal;
  closeRequested : bool;
  state : StreamState;
  taken : list JsVal
}.

Definition newStream : Stream :=
  {| queue := []; closeRequested := false; state := Readable; taken := [] |}.

Definition isReadable (s : Stream) : bool :=
  match state s with Readable => true | _ => false end.

Definition canCloseOrEnqueue (s : Stream) : bool :=
  negb (closeRequested s) && isReadable s.

Definition streamEnqueue (v : JsVal) (s : Stream) : option Stream :=
  if canCloseOrEnqueue s
  then Some {| queue := queue s ++ [v]; closeRequested := false;
               state := Readable; taken := taken s |}
  else None.

Definition streamClose (s : Stream) : option Stream :=
  if canCloseOrEnqueue s
  then Some {| queue := queue s; closeRequested := true;
               state := match queue s with [] => Closed | _ => Readable end;
               taken := taken s |}
  else None.

Definition streamError (e : JsVal) (s : Stream) : Stream :=
  if isReadable s
  then {| queue := []; closeRequested := closeRequested s;
          state := Errored e; taken := taken s |}
  else s.

(** What one [read()] of the consumer gives. *)
Inductive ReadResult :=
| Chunk (v : JsVal)
| Done
| Raise (e : JsVal)
| Pending.

Definition streamRead (s : Stream) : ReadResult * Stream :=
  match queue s with
  | x :: q =>
      (Chunk x,
       {| queue := q; closeRequested := closeRequested s;
          state := match q with
                   | [] => if closeRequested s then Closed else state s
                   | _ => state s
                   end;
          taken := taken s ++ [x] |})
  | [] =>
      match state s with
      | Readable => (Pending, s)
      | Closed => (Done, s)
      | Errored e => (Raise e, s)
      end
  end.


Inductive StreamEnd :=
| EndsCleanly
| EndsRaising (e : JsVal)
| StillOpen.

Definition streamEnd (s : Stream) : StreamEnd :=
  match state s with
  | Errored e => EndsRaising e
  | Closed => EndsCleanly
  | Readable => if closeRequested s then EndsCleanly else StillOpen
  end.

(** ** Envelopes *)

(** Side-channel options are opaque to the core: an options bag is a handle. *)
Definition Opts := option nat.

(** The body of an invoke event.  [invokeId = None] is a body without the
    field; [isReqStream = false] covers the absent field. *)
Record Body := mkBody {
  invokeId : option string;
  content : JsVal;
  isReqStream : bool
}.

(** What a listener receives: the descriptor id, the body ([None]: a missing
    or falsy body) and the options of the emit. *)
Record Envelope := mkEnvelope {
  ev_id : string;
  ev_body : option Body;
  ev_opts : Opts
}.

(** ** invoke-remote-methods.ts: the options *)

Inductive DisallowedTag := Ignore | Throw.

#[global] Instance DisallowedTag_eq_dec : EqDecision DisallowedTag.
Proof. solve_decision. Defined.

Record InvokeFunctionStubOptions := mkStubOptions {
  o_allow : option bool;
  o_maxDepth : option nat;
  o_maxFunctions : option nat;
  o_tagPrefix : option string;
  o_onDisallowedTag : option DisallowedTag;
  o_autoDisposeMs : option nat;
  o_strict : option bool
}.

(** The argument [boolean | InvokeFunctionStubOptions | undefined]. *)
Inductive StubOptionsArg :=
| StubsUndefined
| StubsBool (b : bool)
| StubsRecord (o : InvokeFunctionStubOptions).

(** The caps are counts: natural numbers. *)
Record StubOptions := mkNormalized {
  allow : bool;
  maxDepth : nat;
  maxFunctions : nat;
  tagPrefix : string;
  onDisallowedTag : DisallowedTag;
  autoDisposeMs : nat;
  strict : bool
}.

#[global] Instance StubOptions_eq_dec : EqDecision StubOptions.
Proof. solve_decision. Defined.

Definition DEFAULT_FUNCTION_STUB_OPTIONS (allowed : bool) : StubOptions :=
  {| allow := allowed; maxDepth := 32; maxFunctions := 32;
     tagPrefix := "eventa-invoke-fn-"; onDisallowedTag := Ignore;
     autoDisposeMs := 0; strict := false |}.

Definition normalizeFunctionStubOptions (options : StubOptionsArg)
    : StubOptions :=
  match options with
  | StubsBool true => DEFAULT_FUNCTION_STUB_OPTIONS true
  | StubsBool false | StubsUndefined => DEFAULT_FUNCTION_STUB_OPTIONS false
  | StubsRecord o =>
      let d := DEFAULT_FUNCTION_STUB_OPTIONS true in
      {| allow := default true (o_allow o);
         maxDepth := default (maxDepth d) (o_maxDepth o);
         maxFunctions := default (maxFunctions d) (o_maxFunctions o);
         tagPrefix := default (tagPrefix d) (o_tagPrefix o);
         onDisallowedTag := default (onDisallowedTag d) (o_onDisallowedTag o);
         autoDisposeMs := default (autoDisposeMs d) (o_autoDisposeMs o);
         strict := default (strict d) (o_strict o) |}
  end.

(** A record override is normalised on its own, and as the normalised
    record has every key, spreading it over [base] replaces all of
    [base]. *)
Definition resolveFunctionStubOptions (defaults override : StubOptionsArg)
    : StubOptions :=
  let base := normalizeFunctionStubOptions defaults in
  match override with
  | StubsUndefined => base
  | StubsBool b =>
      {| allow := b; maxDepth := maxDepth base;
         maxFunctions := maxFunctions base; tagPrefix := tagPrefix base;
         onDisallowedTag := onDisallowedTag base;
         autoDisposeMs := autoDisposeMs base; strict := strict base |}
  | StubsRecord _ => normalizeFunctionStubOptions override
  end.

(** ** Handlers, listeners and microtasks *)

(** A unary handler, by the identity of its function.  [HStub] is the arrow
    function the serializer wraps around a function value of the payload,
    one new function per stub; [HRemote] is the async function
    [withRemoteMethods(...).defineInvokeHandler] wraps around a handler. *)
Inductive Handler :=
| HUser (f : nat)
| HStub (k : nat) (f : Fn)
| HRemote (k : nat) (options : StubOptions) (h : Handler).

#[global] Instance Handler_eq_dec : EqDecision Handler.
Proof. solve_decision. Defined.

(** What [await handler(payload, options)] does: the handler returns a value
    (or a promise fulfilled with it), throws before returning, or returns a
    promise that rejects. *)
Inductive Outcome :=
| Returns (v : JsVal)
| ThrowsSync (e : JsVal)
| Rejects (e : JsVal).

(** How an async generator finishes after its last yield. *)
Inductive GenEnd :=
| GenReturn
| GenThrow (e : JsVal).

(** The variables the closures of one streaming call capture. *)
Record StreamCall := mkStreamCall {
  sc_event : InvokeEventa;
  sc_id : string;
  sc_stream : nat;
  sc_signal : option nat;
  sc_opts : Opts
}.

#[global] Instance StreamCall_eq_dec : EqDecision StreamCall.
Proof. solve_decision. Defined.

Inductive Listener :=
(* invoke.ts, client: the listeners of one call of factory [c] *)
| LInvokeReceive (c : nat) (event : InvokeEventa) (id : string)
| LInvokeReceiveError (c : nat) (event : InvokeEventa) (id : string)
(* invoke.ts, server: onSend and onSendStreamEnd of internal handler [ih] *)
| LOnSend (ih : nat) (event : InvokeEventa) (h : Handler)
| LOnSendStreamEnd (ih : nat) (event : InvokeEventa) (h : Handler)
(* stream.ts with cancellation, client *)
| LStreamReceive (k : StreamCall)
| LStreamReceiveError (k : StreamCall)
| LStreamReceiveStreamEnd (k : StreamCall)
(* stream.ts with cancellation, server [s] running producer [fn] *)
| LServeSend (s : nat) (event : InvokeEventa) (fn : nat)
| LServeStreamEnd (s : nat)
| LServeAbort (s : nat) (event : InvokeEventa) (fn : nat)
(* stream.ts without cancellation, client *)
| LPlainReceive (id : string) (h : nat)
| LPlainReceiveError (id : string) (h : nat)
| LPlainReceiveStreamEnd (id : string) (h : nat)
(* stream.ts without cancellation, server *)
| LPlainServeSend (s : nat) (event : InvokeEventa) (fn : nat)
| LPlainServeStreamEnd (s : nat).

#[global] Instance Listener_eq_dec : EqDecision Listener.
Proof. solve_decision. Defined.

(** Which client pumps a request stream. *)
Inductive PumpKind :=
| PumpInvoke                         (* invoke.ts *)
| PumpPlain                          (* stream.ts without cancellation *)
| PumpStream (signal : option nat).  (* stream.ts with cancellation *)

(** The continuations the sources leave behind at an [await]. *)
Inductive Task :=
(* invoke.ts handleInvoke, after [await handler(...)] *)
| TInvokeDone (event : InvokeEventa) (id : string) (o : Outcome) (opts : Opts)
(* stream.ts handleInvoke with cancellation, inside [for await] *)
| TServeNext (s : nat) (event : InvokeEventa) (id : string)
             (rest : list JsVal) (fin : GenEnd) (opts : Opts)
(* stream.ts handleInvoke without cancellation, inside [for await] *)
| TPlainServeNext (event : InvokeEventa) (id : string)
                  (rest : list JsVal) (fin : GenEnd) (opts : Opts)
(* scheduleAbort: [queueMicrotask(() => controller.abort(reason))] *)
| TAbort (token : nat) (reason : JsVal)
(* pump, inside [for await (const chunk of req)] *)
| TPump (kind : PumpKind) (event : InvokeEventa) (id : string) (req : nat)
        (opts : Opts).

Inductive Callee :=
| UnaryHandler (h : Handler)
| StreamProducer (fn : nat).

(** One call of user code: who was called, with which payload and options,
    and the cancellation token it was given, if any. *)
Record HandlerCall := mkHandlerCall {
  hc_callee : Callee;
  hc_payload : JsVal;
  hc_opts : Opts;
  hc_token : option nat
}.

Inductive PromiseState :=
| PPending
| PFulfilled (v : JsVal)
| PRejected (e : JsVal).

(** An AbortSignal of a caller; its listeners are the [onAbort] closures of
    streaming calls. *)
Record Signal := mkSignal {
  sg_aborted : bool;
  sg_reason : JsVal;
  sg_listeners : list StreamCall
}.

(** ** The state of one context and of the scheduler around it *)

#[local] Set Primitive Projections.

Record World := mkWorld {
  w_listeners : gmap string (list Listener);
    (* the bus registry: descriptor id to its listeners, oldest first *)
  w_emitted : list Envelope;
    (* every envelope emitted on the bus, oldest first *)
  w_tasks : list Task;
    (* the microtask queue, next task first *)
  w_waiters : gmap nat Task;
    (* request pumps parked on a stream with nothing to read *)
  w_calls : list HandlerCall;
    (* every call of a user handler or producer, oldest first *)
  w_nextId : nat;
    (* how many ids nanoid has handed out *)
  w_fresh : nat;
    (* the next object handle *)
  w_streams : gmap nat Stream;
    (* the ReadableStreams by handle *)
  w_promises : gmap nat PromiseState;
    (* the promises of unary calls by handle *)
  w_settles : list (nat * PromiseState);
    (* every call of a resolve or reject function, oldest first *)
  w_resolvers : gmap (nat * string) nat;
    (* mInvokeIdPromiseResolvers of each client factory *)
  w_rejectors : gmap (nat * string) nat;
    (* mInvokeIdPromiseRejectors of each client factory *)
  w_invokeHandlers : option (gmap string (list (Handler * nat)));
    (* ctx.invokeHandlers *)
  w_streamStates : gmap (nat * string) nat;
    (* streamStates of each server: input controllers *)
  w_abortControllers : gmap (nat * string) nat;
    (* abortControllers of each streaming server *)
  w_abortReasons : gmap (nat * string) JsVal;
    (* abortReasons of each streaming server *)
  w_tokens : gmap nat (option JsVal);
    (* server AbortControllers: the reason once aborted *)
  w_signals : gmap nat Signal;
    (* the AbortSignals callers pass in *)
  w_abortOnEvents : option (list string)
    (* ctx.extensions.__internal.invoke.abortOnEvents *)
}.

#[local] Unset Primitive Projections.

Definition set_listeners
    (f : gmap string (list Listener)
         -> gmap string (list Listener))
    (w : World) : World :=
  mkWorld (f (w_listeners w)) (w_emitted w) (w_tasks w) (w_waiters w)
    (w_calls w) (w_nextId w) (w_fresh w) (w_streams w) (w_promises w)
    (w_settles w) (w_resolvers w) (w_rejectors w) (w_invokeHandlers w)
    (w_streamStates w) (w_abortControllers w) (w_abortReasons w)
    (w_tokens w) (w_signals w) (w_abortOnEvents w).

Definition set_emitted
    (f : list Envelope
         -> list Envelope)
    (w : World) : World :=
  mkWorld (w_listeners w) (f (w_emitted w)) (w_tasks w) (w_waiters w)
    (w_calls w) (w_nextId w) (w_fresh w) (w_streams w) (w_promises w)
    (w_settles w) (w_resolvers w) (w_rejectors w) (w_invokeHandlers w)
    (w_streamStates w) (w_abortControllers w) (w_abortReasons w)
    (w_tokens w) (w_signals w) (w_abortOnEvents w).

Definition set_tasks
    (f : list Task
         -> list Task)
    (w : World) : World :=
  mkWorld (w_listeners w) (w_emitted w) (f (w_tasks w)) (w_waiters w)
    (w_calls w) (w_nextId w) (w_fresh w) (w_streams w) (w_promises w)
    (w_settles w) (w_resolvers w) (w_rejectors w) (w_invokeHandlers w)
    (w_streamStates w) (w_abortControllers w) (w_abortReasons w)
    (w_tokens w) (w_signals w) (w_abortOnEvents w).

Definition set_waiters
    (f : gmap nat Task
         -> gmap nat Task)
    (w : World) : World :=
  mkWorld (w_listeners w) (w_emitted w) (w_tasks w) (f (w_waiters w))
    (w_calls w) (w_nextId w) (w_fresh w) (w_streams w) (w_promises w)
    (w_settles w) (w_resolvers w) (w_rejectors w) (w_invokeHandlers w)
    (w_streamStates w) (w_abortControllers w) (w_abortReasons w)
    (w_tokens w) (w_signals w) (w_abortOnEvents w).

Definition set_calls
    (f : list HandlerCall
         -> list HandlerCall)
    (w : World) : World :=
  mkWorld (w_listeners w) (w_emitted w) (w_tasks w) (w_waiters w)
    (f (w_calls w)) (w_nextId w) (w_fresh w) (w_streams w) (w_promises w)
    (w_settles w) (w_resolvers w) (w_rejectors w) (w_invokeHandlers w)
    (w_streamStates w) (w_abortControllers w) (w_abortReasons w)
    (w_tokens w) (w_signals w) (w_abortOnEvents w).

Definition set_nextId
    (f : nat
         -> nat)
    (w : World) : World :=
  mkWorld (w_listeners w) (w_emitted w) (w_tasks w) (w_waiters w)
    (w_calls w) (f (w_nextId w)) (w_fresh w) (w_streams w) (w_promises w)
    (w_settles w) (w_resolvers w) (w_rejectors w) (w_invokeHandlers w)
    (w_streamStates w) (w_abortControllers w) (w_abortReasons w)
    (w_tokens w) (w_signals w) (w_abortOnEvents w).

Definition set_fresh
    (f : nat
         -> nat)
    (w : World) : World :=
  mkWorld (w_listeners w) (w_emitted w) (w_tasks w) (w_waiters w)
    (w_calls w) (w_nextId w) (f (w_fresh w)) (w_streams w) (w_promises w)
    (w_settles w) (w_resolvers w) (w_rejectors w) (w_invokeHandlers w)
    (w_streamStates w) (w_abortControllers w) (w_abortReasons w)
    (w_tokens w) (w_signals w) (w_abortOnEvents w).

Definition set_streams
    (f : gmap nat Stream
         -> gmap nat Stream)
    (w : World) : World :=
  mkWorld (w_listeners w) (w_emitted w) (w_tasks w) (w_waiters w)
    (w_calls w) (w_nextId w) (w_fresh w) (f (w_streams w)) (w_promises w)
    (w_settles w) (w_resolvers w) (w_rejectors w) (w_invokeHandlers w)
    (w_streamStates w) (w_abortControllers w) (w_abortReasons w)
    (w_tokens w) (w_signals w) (w_abortOnEvents w).

Definition set_promises
    (f : gmap nat PromiseState
         -> gmap nat PromiseState)
    (w : World) : World :=
  mkWorld (w_listeners w) (w_emitted w) (w_tasks w) (w_waiters w)
    (w_calls w) (w_nextId w) (w_fresh w) (w_streams w) (f (w_promises w))
    (w_settles w) (w_resolvers w) (w_rejectors w) (w_invokeHandlers w)
    (w_streamStates w) (w_abortControllers w) (w_abortReasons w)
    (w_tokens w) (w_signals w) (w_abortOnEvents w).

Definition set_settles
    (f : list (nat * PromiseState)
         -> list (nat * PromiseState))
    (w : World) : World :=
  mkWorld (w_listeners w) (w_emitted w) (w_tasks w) (w_waiters w)
    (w_calls w) (w_nextId w) (w_fresh w) (w_streams w) (w_promises w)
    (f (w_settles w)) (w_resolvers w) (w_rejectors w) (w_invokeHandlers w)
    (w_streamStates w) (w_abortControllers w) (w_abortReasons w)
    (w_tokens w) (w_signals w) (w_abortOnEvents w).

Definition set_resolvers
    (f : gmap (nat * string) nat
         -> gmap (nat * string) nat)
    (w : World) : World :=
  mkWorld (w_listeners w) (w_emitted w) (w_tasks w) (w_waiters w)
    (w_calls w) (w_nextId w) (w_fresh w) (w_streams w) (w_promises w)
    (w_settles w) (f (w_resolvers w)) (w_rejectors w) (w_invokeHandlers w)
    (w_streamStates w) (w_abortControllers w) (w_abortReasons w)
    (w_tokens w) (w_signals w) (w_abortOnEvents w).

Definition set_rejectors
    (f : gmap (nat * string) nat
         -> gmap (nat * string) nat)
    (w : World) : World :=
  mkWorld (w_listeners w) (w_emitted w) (w_tasks w) (w_waiters w)
    (w_calls w) (w_nextId w) (w_fresh w) (w_streams w) (w_promises w)
    (w_settles w) (w_resolvers w) (f (w_rejectors w)) (w_invokeHandlers w)
    (w_streamStates w) (w_abortControllers w) (w_abortReasons w)
    (w_tokens w) (w_signals w) (w_abortOnEvents w).

Definition set_invokeHandlers
    (f : option (gmap string (list (Handler * nat)))
         -> option (gmap string (list (Handler * nat))))
    (w : World) : World :=
  mkWorld (w_listeners w) (w_emitted w) (w_tasks w) (w_waiters w)
    (w_calls w) (w_nextId w) (w_fresh w) (w_streams w) (w_promises w)
    (w_settles w) (w_resolvers w) (w_rejectors w) (f (w_invokeHandlers w))
    (w_streamStates w) (w_abortControllers w) (w_abortReasons w)
    (w_tokens w) (w_signals w) (w_abortOnEvents w).

Definition set_streamStates
    (f : gmap (nat * string) nat
         -> gmap (nat * string) nat)
    (w : World) : World :=
  mkWorld (w_listeners w) (w_emitted w) (w_tasks w) (w_waiters w)
    (w_calls w) (w_nextId w) (w_fresh w) (w_streams w) (w_promises w)
    (w_settles w) (w_resolvers w) (w_rejectors w) (w_invokeHandlers w)
    (f (w_streamStates w)) (w_abortControllers w) (w_abortReasons w)
    (w_tokens w) (w_signals w) (w_abortOnEvents w).

Definition set_abortControllers
    (f : gmap (nat * string) nat
         -> gmap (nat * string) nat)
    (w : World) : World :=
  mkWorld (w_listeners w) (w_emitted w) (w_tasks w) (w_waiters w)
    (w_calls w) (w_nextId w) (w_fresh w) (w_streams w) (w_promises w)
    (w_settles w) (w_resolvers w) (w_rejectors w) (w_invokeHandlers w)
    (w_streamStates w) (f (w_abortControllers w)) (w_abortReasons w)
    (w_tokens w) (w_signals w) (w_abortOnEvents w).

Definition set_abortReasons
    (f : gmap (nat * string) JsVal
         -> gmap (nat * string) JsVal)
    (w : World) : World :=
  mkWorld (w_listeners w) (w_emitted w) (w_tasks w) (w_waiters w)
    (w_calls w) (w_nextId w) (w_fresh w) (w_streams w) (w_promises w)
    (w_settles w) (w_resolvers w) (w_rejectors w) (w_invokeHandlers w)
    (w_streamStates w) (w_abortControllers w) (f (w_abortReasons w))
    (w_tokens w) (w_signals w) (w_abortOnEvents w).

Definition set_tokens
    (f : gmap nat (option JsVal)
         -> gmap nat (option JsVal))
    (w : World) : World :=
  mkWorld (w_listeners w) (w_emitted w) (w_tasks w) (w_waiters w)
    (w_calls w) (w_nextId w) (w_fresh w) (w_streams w) (w_promises w)
    (w_settles w) (w_resolvers w) (w_rejectors w) (w_invokeHandlers w)
    (w_streamStates w) (w_abortControllers w) (w_abortReasons w)
    (f (w_tokens w)) (w_signals w) (w_abortOnEvents w).

Definition set_signals
    (f : gmap nat Signal
         -> gmap nat Signal)
    (w : World) : World :=
  mkWorld (w_listeners w) (w_emitted w) (w_tasks w) (w_waiters w)
    (w_calls w) (w_nextId w) (w_fresh w) (w_streams w) (w_promises w)
    (w_settles w) (w_resolvers w) (w_rejectors w) (w_invokeHandlers w)
    (w_streamStates w) (w_abortControllers w) (w_abortReasons w)
    (w_tokens w) (f (w_signals w)) (w_abortOnEvents w).

Definition set_abortOnEvents
    (f : option (list string)
         -> option (list string))
    (w : World) : World :=
  mkWorld (w_listeners w) (w_emitted w) (w_tasks w) (w_waiters w)
    (w_calls w) (w_nextId w) (w_fresh w) (w_streams w) (w_promises w)
    (w_settles w) (w_resolvers w) (w_rejectors w) (w_invokeHandlers w)
    (w_streamStates w) (w_abortControllers w) (w_abortReasons w)
    (w_tokens w) (w_signals w) (f (w_abortOnEvents w)).

Definition emptyWorld : World :=
  mkWorld ∅ [] [] ∅ [] 0 0 ∅ ∅ [] ∅ ∅ None ∅ ∅ ∅ ∅ ∅ None.

(** ** The event bus *)

Definition listenersOf (id : string) (w : World) : list Listener :=
  default [] (w_listeners w !! id).

(** Modelled from the spec: src/context.ts (the bus behind [ctx.on],
    [ctx.off] and [ctx.emit]) is not among the sources.  After section 4.1:
    registering the same listener on the same target twice is a no-op and
    listeners are kept in registration order. *)
Definition on (id : string) (l : Listener) (w : World) : World :=
  if decide (l ∈ listenersOf id w) then w
  else set_listeners (fun m => <[id := listenersOf id w ++ [l]]> m) w.

(** Modelled from the spec: src/context.ts is not among the sources.
    [off(descriptor)] without a listener removes all listeners of the
    descriptor. *)
Definition off (id : string) (w : World) : World :=
  set_listeners (fun m => delete id m) w.

(** Modelled from the spec: src/context.ts is not among the sources.
    [off(descriptor, listener)] removes that listener. *)
Definition offListener (id : string) (l : Listener) (w : World) : World :=
  set_listeners (fun m => alter (filter (fun x => x ≠ l)) id m) w.

(** ** Object allocation, streams in the store, the scheduler queue *)

Definition enqueueTask (t : Task) (w : World) : World :=
  set_tasks (fun ts => ts ++ [t]) w.

Definition allocate (w : World) : nat * World :=
  (w_fresh w, set_fresh S w).

(** [new ReadableStream({ start(c) { ... } })]: [start] runs inside the
    constructor, so the controller is at hand when it returns. *)
Definition newReadableStream (w : World) : nat * World :=
  let (h, w1) := allocate w in
  (h, set_streams (fun m => <[h := newStream]> m) w1).

(** A pump parked on stream [h] resumes once the stream changes. *)
Definition wake (h : nat) (w : World) : World :=
  match w_waiters w !! h with
  | Some t => enqueueTask t (set_waiters (fun m => delete h m) w)
  | None => w
  end.

(** Controller calls; [None] is the TypeError the controller throws. *)
Definition controllerEnqueue (h : nat) (v : JsVal) (w : World) : option World :=
  s ← w_streams w !! h;
  s' ← streamEnqueue v s;
  Some (wake h (set_streams (fun m => <[h := s']> m) w)).

Definition controllerClose (h : nat) (w : World) : option World :=
  s ← w_streams w !! h;
  s' ← streamClose s;
  Some (wake h (set_streams (fun m => <[h := s']> m) w)).

Definition controllerError (h : nat) (e : JsVal) (w : World) : World :=
  match w_streams w !! h with
  | Some s => wake h (set_streams (fun m => <[h := streamError e s]> m) w)
  | None => w
  end.

(** A call of a resolve or reject function: it is logged, and it settles the
    promise only if the promise is still pending. *)
Definition settle (p : nat) (r : PromiseState) (w : World) : World :=
  let w1 := set_settles (fun l => l ++ [(p, r)]) w in
  match w_promises w !! p with
  | Some PPending => set_promises (fun m => <[p := r]> m) w1
  | _ => w1
  end.

(** [`!payload.body.invokeId`]: the id a server accepts, if any. *)
Definition acceptedInvokeId (e : Envelope) : option string :=
  b ← ev_body e;
  id ← invokeId b;
  if String.eqb id "" then None else Some id.

(** Lookup in a [Map] keyed by function identity. *)
Fixpoint lookupHandler (h : Handler) (m : list (Handler * nat)) : option nat :=
  match m with
  | [] => None
  | (h', ih) :: m' => if decide (h = h') then Some ih else lookupHandler h m'
  end.

Definition receiveBody (id : string) (v : JsVal) : option Body :=
  Some (mkBody (Some id) v false).

Definition errorContent (e : JsVal) : JsVal := JObj PObject [("error", e)].

(** ** invoke-remote-methods.ts: recognising stubs *)

Definition isPlainObject (v : JsVal) : bool :=
  match v with
  | JObj PObject _ | JObj PNull _ => true
  | _ => false
  end.

Definition hasOwn (k : string) (fs : list (string * JsVal)) : bool :=
  match lookupField k fs with Some _ => true | None => false end.

Definition hasInvokeFunctionStubKey (v : JsVal) : bool :=
  match v with
  | JObj p fs => isPlainObject v && hasOwn "__eventaInvoke" fs
  | _ => false
  end.

(** The tag of a well-formed stub [{ __eventaInvoke: { tag } }]. *)
Definition stubTag (v : JsVal) : option string :=
  if hasInvokeFunctionStubKey v then
    let stub := getField "__eventaInvoke" v in
    if truthy stub && typeofObject stub then
      match getField "tag" stub with
      | JStr tag => Some tag
      | _ => None
      end
    else None
  else None.

Definition isInvokeFunctionStubPayload (v : JsVal) : bool :=
  match stubTag v with Some _ => true | None => false end.

(** The own property [k] is created, or overwritten where it is. *)
Fixpoint setOwn {A : Type} (k : string) (v : A) (fs : list (string * A))
    : list (string * A) :=
  match fs with
  | [] => [(k, v)]
  | (k', v') :: fs' =>
      if String.eqb k k' then (k, v) :: fs' else (k', v') :: setOwn k v fs'
  end.

(** [target[key] = value] on an ordinary object, as far as the own
    properties of [target] go.  [inherits] tells whether [target] inherits
    from [Object.prototype], as an object literal does: there the key
    [__proto__] reaches the accessor of [Object.prototype], whose setter
    relinks [target] when [value] is an object or [null] and adds no
    property in any case.  Every other assignment, and every assignment to
    an object without prototype, creates or overwrites an own property. *)
Definition assignProperty {A : Type} (inherits : bool) (key : string)
    (value : A) (own : list (string * A)) : list (string * A) :=
  if inherits && String.eqb key "__proto__" then own
  else setOwn key value own.

(** What a walk leaves behind: its result or the error it threw, and the
    state as of then. *)
Inductive Walked (S : Type) :=
| WOk (v : JsVal) (st : S)
| WThrow (e : JsVal) (st : S).
Arguments WOk {S} v st.
Arguments WThrow {S} e st.

(** The loop over the entries of a plain object,
    [output[key] = walk(child, depth + 1)] on the object
    [Object.create(null)] made. *)
Fixpoint walkFields {St : Type} (walk : JsVal -> St -> Walked St)
    (fields out : list (string * JsVal)) (st : St) : Walked St :=
  match fields with
  | [] => WOk (JObj PNull out) st
  | (key, child) :: rest =>
      match walk child st with
      | WOk v st' =>
          walkFields walk rest (assignProperty false key v out) st'
      | WThrow e st' => WThrow e st'
      end
  end.

(** The loop over an array, [output[i] = walk(input[i], depth + 1)]: the
    first child that throws ends the walk. *)
Fixpoint walkItems {St : Type} (walk : JsVal -> St -> Walked St)
    (items out : list JsVal) (st : St) : Walked St :=
  match items with
  | [] => WOk (JArr out) st
  | x :: rest =>
      match walk x st with
      | WOk v st' => walkItems walk rest (out ++ [v]) st'
      | WThrow e st' => WThrow e st'
      end
  end.

Definition tooManyStubs (o : StubOptions) : JsVal :=
  JErr "Error" ("Too many function stubs in invoke payload (max "
                +:+ pretty (maxFunctions o) +:+ ").").

Definition tooDeep (o : StubOptions) : JsVal :=
  JErr "Error" ("Invoke payload is too deep (max "
                +:+ pretty (maxDepth o) +:+ ").").

Definition tagNotAllowed (tag : string) : JsVal :=
  JErr "Error" ("Invoke function tag not allowed: " +:+ tag).

Definition invalidStub : JsVal :=
  JErr "Error" "Invalid invoke function stub payload.".

(** The collaborators the core does not define: the id generator, what
    awaiting a call of each function value gives (for a client function this
    stands for the settlement of the nested call), what each producer of the
    user yields and how it ends, the runtime behind [createAbortError], and
    the identity of objects.  Payload values are trees and carry no
    identity: [sameObject v] tells whether the places of a payload that
    hold an array or object equal to [v] hold one and the same object, as
    they do when an object is reachable along several paths.  An object
    that contains itself has no value here. *)
Record Runtime := mkRuntime {
  nanoid : nat -> string;
  userFn : Fn -> JsVal -> Outcome;
  producer : nat -> JsVal -> list JsVal * GenEnd;
  jsString : JsVal -> Completion string;
  hasDOMException : bool;
  sameObject : JsVal -> bool
}.

Section Runtime.
Variable rt : Runtime.

Definition drawId (w : World) : string * World :=
  (nanoid rt (w_nextId w), set_nextId S w).

(** [defineInvokeEventa(tag?)]: a missing or empty tag is generated. *)
Definition defineInvokeEventa (tag : option string) (w : World)
    : InvokeEventa * World :=
  match tag with
  | Some t => if String.eqb t "" then
                let (t', w1) := drawId w in (invokeEventaOf t', w1)
              else (invokeEventaOf t, w)
  | None => let (t', w1) := drawId w in (invokeEventaOf t', w1)
  end.

(** *** invoke-remote-methods.ts: the [seen] map of a walk *)

(** The map holds, for each array and plain object walked so far, the copy
    the walk made of it. *)
Definition Seen := list (JsVal * JsVal).

Fixpoint seenLookup (input : JsVal) (seen : Seen) : option JsVal :=
  match seen with
  | [] => None
  | (x, output) :: seen' =>
      if decide (input = x) then Some output else seenLookup input seen'
  end.

(** [seen.has(input)] and [seen.get(input)]: the copy made of this very
    object.  An object that is nowhere else in the payload was not walked
    before. *)
Definition seenGet (input : JsVal) (seen : Seen) : option JsVal :=
  if sameObject rt input then seenLookup input seen else None.

(** *** invoke-remote-methods.ts: the deserializer *)

Record DeserializeState := mkDeserializeState {
  des_functionCount : nat;
  des_seen : Seen;
  des_world : World
}.

(** [seen.set(input, output)].  The source sets the entry before it fills
    [output], which only an object that contains itself could tell; here
    the entry is set once the children are walked. *)
Definition deserializeSeen (input : JsVal) (r : Walked DeserializeState)
    : Walked DeserializeState :=
  match r with
  | WOk output st =>
      WOk output (mkDeserializeState (des_functionCount st)
                    ((input, output) :: des_seen st) (des_world st))
  | WThrow e st => WThrow e st
  end.

Section Deserialize.
Variable options : StubOptions.

Definition tagDisallowed (tag : string) : bool :=
  negb (String.eqb (tagPrefix options) "")
  && negb (String.prefix (tagPrefix options) tag).

(** The stub case of [walk]. *)
Definition deserializeStub (input : JsVal) (tag : string)
    (st : DeserializeState) : Walked DeserializeState :=
  if (maxFunctions options <=? des_functionCount st)
  then WThrow (tooManyStubs options) st
  else if tagDisallowed tag then
    match onDisallowedTag options with
    | Throw => WThrow (tagNotAllowed tag) st
    | Ignore => WOk input st
    end
  else
    let (event, w1) := defineInvokeEventa (Some tag) (des_world st) in
    let (c, w2) := allocate w1 in
    WOk (JFun (FInvoke c event))
        (mkDeserializeState (S (des_functionCount st)) (des_seen st) w2).

(** [walk] of [deserializeInvokeFunctionPayload].  The client function
    [defineInvoke(ctx, event)] returns is named by a new factory handle. *)
Fixpoint deserializeWalk (input : JsVal) (depth : nat)
    (st : DeserializeState) {struct input} : Walked DeserializeState :=
  match input with
  | JArr items =>
      if (maxDepth options <? depth) then WThrow (tooDeep options) st
      else
        match seenGet input (des_seen st) with
        | Some output => WOk output st
        | None =>
            deserializeSeen input
              (walkItems (fun x st' => deserializeWalk x (S depth) st')
                         items [] st)
        end
  | JObj p fields =>
      if (maxDepth options <? depth) then WThrow (tooDeep options) st
      else
        match stubTag input with
        | Some tag => deserializeStub input tag st
        | None =>
            if strict options && hasInvokeFunctionStubKey input
            then WThrow invalidStub st
            else
              match seenGet input (des_seen st) with
              | Some output => WOk output st
              | None =>
                  if isPlainObject input then
                    deserializeSeen input
                      (walkFields
                         (fun x st' => deserializeWalk x (S depth) st')
                         fields [] st)
                  else WOk input st
              end
        end
  | JErr _ _ | JStream _ =>
      if (maxDepth options <? depth) then WThrow (tooDeep options) st
      else WOk input st
  | _ => WOk input st
  end.

Definition deserializeInvokeFunctionPayload (value : JsVal) (w : World)
    : Walked DeserializeState :=
  if allow options
  then deserializeWalk value 0 (mkDeserializeState 0 [] w)
  else WOk value (mkDeserializeState 0 [] w).
End Deserialize.

(** What [await handler(payload, options)] gives.  The wrapper of
    [withRemoteMethods] is an async function: whatever its body throws, the
    deserializer's error included, rejects the promise it returns. *)
Fixpoint callHandler (h : Handler) (payload : JsVal) (w : World)
    : Outcome * World :=
  match h with
  | HUser f => (userFn rt (FUser f) payload, w)
  | HStub _ f => (userFn rt f payload, w)
  | HRemote _ options h' =>
      match deserializeInvokeFunctionPayload options payload w with
      | WOk handlerPayload st =>
          match callHandler h' handlerPayload (des_world st) with
          | (ThrowsSync e, w1) => (Rejects e, w1)
          | r => r
          end
      | WThrow e st => (Rejects e, des_world st)
      end
  end.

(** *** invoke.ts: the unary server *)

Section Listeners.
(** The [ctx.emit] a listener body may call while it runs. *)
Variable emit' : Envelope -> World -> World.

(** [handleInvoke] up to its first suspension.  A handler that throws
    before returning is caught at once and its error is emitted in the
    same turn; otherwise the function suspends at [await]. *)
Definition handleInvoke (event : InvokeEventa) (h : Handler) (id : string)
    (payload : JsVal) (opts : Opts) (w : World) : World :=
  let w1 := set_calls
    (fun l => l ++ [mkHandlerCall (UnaryHandler h) payload opts None]) w in
  match callHandler h payload w1 with
  | (ThrowsSync e, w2) =>
      emit' (mkEnvelope (perCall (receiveEventError event) id)
                        (receiveBody id (errorContent e)) opts) w2
  | (o, w2) => enqueueTask (TInvokeDone event id o opts) w2
  end.

Definition onSend (ih : nat) (event : InvokeEventa) (h : Handler)
    (e : Envelope) (w : World) : World :=
  match acceptedInvokeId e, ev_body e with
  | Some id, Some b =>
      if isReqStream b then
        match w_streamStates w !! (ih, id) with
        | Some controller =>
            default w (controllerEnqueue controller (content b) w)
        | None =>
            let (controller, w1) := newReadableStream w in
            let w2 := set_streamStates
                        (fun m => <[(ih, id) := controller]> m) w1 in
            let w3 := handleInvoke event h id (JStream controller)
                        (ev_opts e) w2 in
            default w3 (controllerEnqueue controller (content b) w3)
        end
      else handleInvoke event h id (content b) (ev_opts e) w
  | _, _ => w
  end.

Definition onSendStreamEnd (ih : nat) (event : InvokeEventa) (h : Handler)
    (e : Envelope) (w : World) : World :=
  match acceptedInvokeId e with
  | Some id =>
      let '(controller, w1) :=
        match w_streamStates w !! (ih, id) with
        | Some controller => (controller, w)
        | None =>
            let (controller, w1) := newReadableStream w in
            let w2 := set_streamStates
                        (fun m => <[(ih, id) := controller]> m) w1 in
            (controller,
             handleInvoke event h id (JStream controller) (ev_opts e) w2)
        end in
      match controllerClose controller w1 with
      | Some w2 => set_streamStates (fun m => delete (ih, id) m) w2
      | None => w1
      end
  | None => w
  end.

(** *** invoke.ts: the listeners of a unary call *)

Definition bodyFor (id : string) (e : Envelope) : option Body :=
  b ← ev_body e;
  if decide (invokeId b = Some id) then Some b else None.

Definition invokeCleanup (event : InvokeEventa) (id : string)
    (w : World) : World :=
  off (perCall (receiveEventError event) id)
    (off (perCall (receiveEvent event) id) w).

Definition onInvokeReceive (c : nat) (event : InvokeEventa) (id : string)
    (e : Envelope) (w : World) : World :=
  match bodyFor id e with
  | Some b =>
      let w1 := match w_resolvers w !! (c, id) with
                | Some p => settle p (PFulfilled (content b)) w
                | None => w
                end in
      let w2 := set_resolvers (fun m => delete (c, id) m) w1 in
      let w3 := set_rejectors (fun m => delete (c, id) m) w2 in
      invokeCleanup event id w3
  | None => w
  end.

(** [const { error } = payload.body.content] throws on [undefined] and
    [null], which ends the listener there. *)
Definition onInvokeReceiveError (c : nat) (event : InvokeEventa)
    (id : string) (e : Envelope) (w : World) : World :=
  match bodyFor id e with
  | Some b =>
      match content b with
      | JUndefined | JNull => w
      | payload =>
          let w1 := match w_rejectors w !! (c, id) with
                    | Some p =>
                        settle p (PRejected (getField "error" payload)) w
                    | None => w
                    end in
          let w2 := set_rejectors (fun m => delete (c, id) m) w1 in
          let w3 := set_resolvers (fun m => delete (c, id) m) w2 in
          invokeCleanup event id w3
      end
  | None => w
  end.

(** *** stream.ts with cancellation: the listeners of a streaming call *)

Definition removeAbortListener (sg : nat) (k : StreamCall) (w : World)
    : World :=
  set_signals
    (fun m => alter (fun s => mkSignal (sg_aborted s) (sg_reason s)
                         (filter (fun x => x ≠ k) (sg_listeners s))) sg m)
    w.

Definition offReceivers (event : InvokeEventa) (id : string) (w : World)
    : World :=
  off (perCall (receiveEventStreamEnd event) id)
    (off (perCall (receiveEventError event) id)
      (off (perCall (receiveEvent event) id) w)).

Definition cleanup (k : StreamCall) (w : World) : World :=
  let w1 := offReceivers (sc_event k) (sc_id k) w in
  match sc_signal k with
  | Some sg => removeAbortListener sg k w1
  | None => w1
  end.

Definition signalReason (k : StreamCall) (w : World) : JsVal :=
  match sc_signal k with
  | Some sg => default JUndefined (sg_reason <$> w_signals w !! sg)
  | None => JUndefined
  end.

Definition abortBody (id : string) (reason : JsVal) : option Body :=
  Some (mkBody (Some id) reason false).

(** [onAbort].  The argument of [controller.error] is evaluated first:
    when [createAbortError] throws, the callback ends there, after the
    send-abort and before the stream is errored or a listener removed. *)
Definition onAbort (k : StreamCall) (w : World) : World :=
  let reason := signalReason k w in
  let w1 := emit' (mkEnvelope (sendEventAbort (sc_event k))
                              (abortBody (sc_id k) reason) (sc_opts k)) w in
  match createAbortError (jsString rt) (hasDOMException rt)
          (signalReason k w1) with
  | Value abortError =>
      cleanup k (controllerError (sc_stream k) abortError w1)
  | Exception _ => w1
  end.

(** The error [onAbort] throws, if it throws. *)
Definition onAbortThrows (k : StreamCall) (w : World) : option JsVal :=
  let reason := signalReason k w in
  let w1 := emit' (mkEnvelope (sendEventAbort (sc_event k))
                              (abortBody (sc_id k) reason) (sc_opts k)) w in
  match createAbortError (jsString rt) (hasDOMException rt)
          (signalReason k w1) with
  | Value _ => None
  | Exception e => Some e
  end.

Definition onStreamReceive (k : StreamCall) (e : Envelope) (w : World)
    : World :=
  match bodyFor (sc_id k) e with
  | Some b => default w (controllerEnqueue (sc_stream k) (content b) w)
  | None => w
  end.

Definition onStreamReceiveError (k : StreamCall) (e : Envelope) (w : World)
    : World :=
  match bodyFor (sc_id k) e with
  | Some b =>
      match content b with
      | JUndefined | JNull => w
      | payload =>
          cleanup k (controllerError (sc_stream k)
                       (getField "error" payload) w)
      end
  | None => w
  end.

Definition onStreamReceiveStreamEnd (k : StreamCall) (e : Envelope)
    (w : World) : World :=
  match bodyFor (sc_id k) e with
  | Some b =>
      match controllerClose (sc_stream k) w with
      | Some w1 => cleanup k w1
      | None => w
      end
  | None => w
  end.

(** *** stream.ts with cancellation: the server *)

(** [handleInvoke] up to its first suspension: the token is created and
    registered, a stashed abort reason schedules its trip, the producer
    is called and the loop suspends on the generator's first result. *)
Definition serveHandleInvoke (s : nat) (event : InvokeEventa) (fn : nat)
    (id : string) (payload : JsVal) (opts : Opts) (w : World) : World :=
  let (token, w1) := allocate w in
  let w2 := set_tokens (fun m => <[token := None]> m) w1 in
  let w3 := set_abortControllers (fun m => <[(s, id) := token]> m) w2 in
  let w4 := match w_abortReasons w3 !! (s, id) with
            | Some reason => enqueueTask (TAbort token reason) w3
            | None => w3
            end in
  let w5 := set_calls
    (fun l => l ++ [mkHandlerCall (StreamProducer fn) payload opts
                                   (Some token)]) w4 in
  let (ys, fin) := producer rt fn payload in
  enqueueTask (TServeNext s event id ys fin opts) w5.

Definition onServeSend (s : nat) (event : InvokeEventa) (fn : nat)
    (e : Envelope) (w : World) : World :=
  match acceptedInvokeId e, ev_body e with
  | Some id, Some b =>
      if isReqStream b then
        match w_streamStates w !! (s, id) with
        | Some controller =>
            default w (controllerEnqueue controller (content b) w)
        | None =>
            let (controller, w1) := newReadableStream w in
            let w2 := set_streamStates
                        (fun m => <[(s, id) := controller]> m) w1 in
            let w3 := serveHandleInvoke s event fn id (JStream controller)
                        (ev_opts e) w2 in
            default w3 (controllerEnqueue controller (content b) w3)
        end
      else serveHandleInvoke s event fn id (content b) (ev_opts e) w
  | _, _ => w
  end.

Definition onServeStreamEnd (s : nat) (e : Envelope) (w : World) : World :=
  match acceptedInvokeId e with
  | Some id =>
      match w_streamStates w !! (s, id) with
      | Some controller =>
          match controllerClose controller w with
          | Some w1 => set_streamStates (fun m => delete (s, id) m) w1
          | None => w
          end
      | None => w
      end
  | None => w
  end.

(** The send-abort listener.  [controller.error(createAbortError(reason))]
    evaluates its argument first: when [createAbortError] throws, the
    listener ends there, with the stream neither errored nor dropped from
    the table. *)
Definition onServeAbort (s : nat) (event : InvokeEventa) (fn : nat)
    (e : Envelope) (w : World) : World :=
  match acceptedInvokeId e, ev_body e with
  | Some id, Some b =>
      let reason := content b in
      let errorWith controller w' :=
        match createAbortError (jsString rt) (hasDOMException rt) reason with
        | Value abortError =>
            set_streamStates (fun m => delete (s, id) m)
              (controllerError controller abortError w')
        | Exception _ => w'
        end in
      match w_abortControllers w !! (s, id) with
      | None =>
          let w1 := set_abortReasons (fun m => <[(s, id) := reason]> m) w in
          let '(controller, w2) :=
            match w_streamStates w1 !! (s, id) with
            | Some controller => (controller, w1)
            | None =>
                let (controller, w2) := newReadableStream w1 in
                let w3 := set_streamStates
                            (fun m => <[(s, id) := controller]> m) w2 in
                (controller,
                 serveHandleInvoke s event fn id (JStream controller)
                   None w3)
            end in
          errorWith controller w2
      | Some token =>
          let w1 := enqueueTask (TAbort token reason) w in
          match w_streamStates w1 !! (s, id) with
          | Some controller => errorWith controller w1
          | None => w1
          end
      end
  | _, _ => w
  end.

(** *** stream.ts without cancellation *)

Definition onPlainReceive (id : string) (h : nat) (e : Envelope)
    (w : World) : World :=
  match bodyFor id e with
  | Some b => default w (controllerEnqueue h (content b) w)
  | None => w
  end.

Definition onPlainReceiveError (id : string) (h : nat) (e : Envelope)
    (w : World) : World :=
  match bodyFor id e with
  | Some b =>
      match content b with
      | JUndefined | JNull => w
      | payload => controllerError h (getField "error" payload) w
      end
  | None => w
  end.

Definition onPlainReceiveStreamEnd (id : string) (h : nat) (e : Envelope)
    (w : World) : World :=
  match bodyFor id e with
  | Some b => default w (controllerClose h w)
  | None => w
  end.

Definition plainHandleInvoke (event : InvokeEventa) (fn : nat)
    (id : string) (payload : JsVal) (opts : Opts) (w : World) : World :=
  let w1 := set_calls
    (fun l => l ++ [mkHandlerCall (StreamProducer fn) payload opts None])
    w in
  let (ys, fin) := producer rt fn payload in
  enqueueTask (TPlainServeNext event id ys fin opts) w1.

Definition onPlainServeSend (s : nat) (event : InvokeEventa) (fn : nat)
    (e : Envelope) (w : World) : World :=
  match acceptedInvokeId e, ev_body e with
  | Some id, Some b =>
      if isReqStream b then
        match w_streamStates w !! (s, id) with
        | Some controller =>
            default w (controllerEnqueue controller (content b) w)
        | None =>
            let (controller, w1) := newReadableStream w in
            let w2 := set_streamStates
                        (fun m => <[(s, id) := controller]> m) w1 in
            let w3 := plainHandleInvoke event fn id (JStream controller)
                        (ev_opts e) w2 in
            default w3 (controllerEnqueue controller (content b) w3)
        end
      else plainHandleInvoke event fn id (content b) (ev_opts e) w
  | _, _ => w
  end.

(** *** Running a listener *)

Definition runListener (l : Listener) (e : Envelope) (w : World) : World :=
  match l with
  | LInvokeReceive c event id => onInvokeReceive c event id e w
  | LInvokeReceiveError c event id => onInvokeReceiveError c event id e w
  | LOnSend ih event h => onSend ih event h e w
  | LOnSendStreamEnd ih event h => onSendStreamEnd ih event h e w
  | LStreamReceive k => onStreamReceive k e w
  | LStreamReceiveError k => onStreamReceiveError k e w
  | LStreamReceiveStreamEnd k => onStreamReceiveStreamEnd k e w
  | LServeSend s event fn => onServeSend s event fn e w
  | LServeStreamEnd s => onServeStreamEnd s e w
  | LServeAbort s event fn => onServeAbort s event fn e w
  | LPlainReceive id h => onPlainReceive id h e w
  | LPlainReceiveError id h => onPlainReceiveError id h e w
  | LPlainReceiveStreamEnd id h => onPlainReceiveStreamEnd id h e w
  | LPlainServeSend s event fn => onPlainServeSend s event fn e w
  | LPlainServeStreamEnd s => onServeStreamEnd s e w
  end.
End Listeners.

(** Modelled from the spec: src/context.ts is not among the sources.
    [emit] dispatches synchronously to the listeners registered on the
    descriptor when the emission starts, in registration order; listeners
    registered during the dispatch are not run for it.  A listener may emit
    in turn: [n] bounds how deep emissions nest, and an emission below the
    bound is logged but not dispatched. *)
Fixpoint emit (n : nat) (e : Envelope) (w : World) : World :=
  let w1 := set_emitted (fun l => l ++ [e]) w in
  match n with
  | 0 => w1
  | S n' => foldl (fun w' l => runListener (emit n') l e w') w1
                  (listenersOf (ev_id e) w)
  end.

(** The nesting bound of the emissions below. *)
Variable depth : nat.

(** *** Microtasks *)

Definition signalAborted (signal : option nat) (w : World) : bool :=
  match signal with
  | Some sg => default false (sg_aborted <$> w_signals w !! sg)
  | None => false
  end.

(** Leaving [for await] early returns the iterator, which cancels the
    request stream. *)
Definition cancelRequest (req : nat) (w : World) : World :=
  set_streams
    (fun m => alter (fun s => if isReadable s
                              then mkStream [] (closeRequested s) Closed
                                            (taken s)
                              else s) req m) w.

Definition sendBody (id : string) (v : JsVal) (chunked : bool)
    : option Body :=
  Some (mkBody (Some id) v chunked).

(** One turn of [pump]: the pending read of the request stream settles. *)
Definition runPump (kind : PumpKind) (event : InvokeEventa) (id : string)
    (req : nat) (opts : Opts) (w : World) : World :=
  match w_streams w !! req with
  | None => w
  | Some s =>
      let aborted := match kind with
                     | PumpStream signal => signalAborted signal w
                     | _ => false
                     end in
      match streamRead s with
      | (Chunk x, s') =>
          let w1 := set_streams (fun m => <[req := s']> m) w in
          if aborted then cancelRequest req w1
          else enqueueTask (TPump kind event id req opts)
                 (emit depth (mkEnvelope (sendEvent event)
                                         (sendBody id x true) opts) w1)
      | (Done, _) =>
          emit depth (mkEnvelope (sendEventStreamEnd event)
                                 (sendBody id JUndefined false) opts) w
      | (Raise e, _) =>
          match kind with
          | PumpStream _ =>
              if aborted then w
              else if isAbortError e
              then emit depth (mkEnvelope (sendEventAbort event)
                                          (sendBody id e false) opts) w
              else emit depth (mkEnvelope (sendEventError event)
                                          (sendBody id e false) opts) w
          | _ => emit depth (mkEnvelope (sendEventError event)
                                        (sendBody id e false) opts) w
          end
      | (Pending, _) =>
          set_waiters (fun m => <[req := TPump kind event id req opts]> m) w
      end
  end.

Definition runTask (t : Task) (w : World) : World :=
  match t with
  | TInvokeDone event id o opts =>
      match o with
      | Returns v =>
          emit depth (mkEnvelope (perCall (receiveEvent event) id)
                                 (receiveBody id v) opts) w
      | ThrowsSync e | Rejects e =>
          emit depth (mkEnvelope (perCall (receiveEventError event) id)
                                 (receiveBody id (errorContent e)) opts) w
      end
  | TServeNext s event id rest fin opts =>
      match rest with
      | x :: rest' =>
          enqueueTask (TServeNext s event id rest' fin opts)
            (emit depth (mkEnvelope (perCall (receiveEvent event) id)
                                    (receiveBody id x) opts) w)
      | [] =>
          let w1 :=
            match fin with
            | GenReturn =>
                emit depth
                  (mkEnvelope (perCall (receiveEventStreamEnd event) id)
                              (receiveBody id JUndefined) opts) w
            | GenThrow e =>
                emit depth
                  (mkEnvelope (perCall (receiveEventError event) id)
                              (receiveBody id (errorContent e)) opts) w
            end in
          set_abortReasons (fun m => delete (s, id) m)
            (set_abortControllers (fun m => delete (s, id) m) w1)
      end
  | TPlainServeNext event id rest fin opts =>
      match rest with
      | x :: rest' =>
          enqueueTask (TPlainServeNext event id rest' fin opts)
            (emit depth (mkEnvelope (perCall (receiveEvent event) id)
                                    (receiveBody id x) opts) w)
      | [] =>
          match fin with
          | GenReturn =>
              emit depth
                (mkEnvelope (perCall (receiveEventStreamEnd event) id)
                            (receiveBody id JUndefined) opts) w
          | GenThrow e =>
              emit depth
                (mkEnvelope (perCall (receiveEventError event) id)
                            (receiveBody id (errorContent e)) opts) w
          end
      end
  | TAbort token reason =>
      match w_tokens w !! token with
      | Some None => set_tokens (fun m => <[token := Some reason]> m) w
      | _ => w
      end
  | TPump kind event id req opts => runPump kind event id req opts w
  end.

(** One turn of the scheduler: the oldest microtask runs to its next
    suspension. *)
Definition tick (w : World) : World :=
  match w_tasks w with
  | [] => w
  | t :: ts => runTask t (set_tasks (fun _ => ts) w)
  end.

Fixpoint ticks (k : nat) (w : World) : World :=
  match k with
  | 0 => w
  | S k' => ticks k' (tick w)
  end.

(** *** invoke.ts: defineInvokeHandler and undefineInvokeHandler *)

Definition handlersOf (event : InvokeEventa) (w : World)
    : option (list (Handler * nat)) :=
  m ← w_invokeHandlers w; m !! sendEvent event.

(** Returns the internal handler, whose two listeners the returned
    disposer removes. *)
Definition defineInvokeHandler (event : InvokeEventa) (h : Handler)
    (w : World) : nat * World :=
  let registry := default ∅ (w_invokeHandlers w) in
  let handlers := default [] (registry !! sendEvent event) in
  match lookupHandler h handlers with
  | Some ih => (ih, w)
  | None =>
      let (ih, w1) := allocate w in
      let w2 := set_invokeHandlers
        (fun _ => Some (<[sendEvent event := handlers ++ [(h, ih)]]>
                          registry)) w1 in
      (ih, on (sendEventStreamEnd event) (LOnSendStreamEnd ih event h)
             (on (sendEvent event) (LOnSend ih event h) w2))
  end.

Definition dispose (event : InvokeEventa) (h : Handler) (ih : nat)
    (w : World) : World :=
  offListener (sendEventStreamEnd event) (LOnSendStreamEnd ih event h)
    (offListener (sendEvent event) (LOnSend ih event h) w).

Definition undefineInvokeHandler (event : InvokeEventa)
    (handler : option Handler) (w : World) : bool * World :=
  match w_invokeHandlers w with
  | None => (false, w)
  | Some registry =>
      match registry !! sendEvent event with
      | None => (false, w)
      | Some handlers =>
          match handler with
          | Some h =>
              match lookupHandler h handlers with
              | None => (false, w)
              | Some ih =>
                  (true,
                   set_invokeHandlers
                     (fun _ => Some (delete (sendEvent event) registry))
                     (dispose event h ih w))
              end
          | None =>
              (match handlers with [] => false | _ => true end,
               set_invokeHandlers
                 (fun _ => Some (delete (sendEvent event) registry))
                 (foldl (fun w' '(h, ih) => dispose event h ih w') w
                        handlers))
          end
      end
  end.

(** *** invoke.ts: defineInvoke *)

(** [defineInvoke] creates the two tables of a client: the handle of the
    factory keys them. *)
Definition defineInvoke (w : World) : nat * World := allocate w.

(** [_invoke]: returns the call's correlation id and promise. *)
Definition invoke (c : nat) (event : InvokeEventa) (req : JsVal)
    (opts : Opts) (w : World) : string * nat * World :=
  let (p, w1) := allocate w in
  let w2 := set_promises (fun m => <[p := PPending]> m) w1 in
  let (id, w3) := drawId w2 in
  let w4 := set_resolvers (fun m => <[(c, id) := p]> m) w3 in
  let w5 := set_rejectors (fun m => <[(c, id) := p]> m) w4 in
  let w6 := on (perCall (receiveEvent event) id)
               (LInvokeReceive c event id) w5 in
  let w7 := on (perCall (receiveEventError event) id)
               (LInvokeReceiveError c event id) w6 in
  match req with
  | JStream r => (id, p, enqueueTask (TPump PumpInvoke event id r opts) w7)
  | _ => (id, p, emit depth (mkEnvelope (sendEvent event)
                                        (sendBody id req false) opts) w7)
  end.

(** *** stream.ts with cancellation: defineStreamInvoke *)

Definition addAbortListener (sg : nat) (k : StreamCall) (w : World)
    : World :=
  set_signals
    (fun m => alter (fun s => mkSignal (sg_aborted s) (sg_reason s)
                         (if decide (k ∈ sg_listeners s) then sg_listeners s
                          else sg_listeners s ++ [k])) sg m) w.

(** [start(controller)] of the response stream: the three listeners are
    registered, and the call subscribes to its signal or, when the signal
    has tripped already, runs [onAbort] at once.  What [onAbort] throws
    there leaves [start]: the error, if any, and the world. *)
Definition start (k : StreamCall) (w : World) : option JsVal * World :=
  let event := sc_event k in
  let id := sc_id k in
  let w3 := on (perCall (receiveEvent event) id) (LStreamReceive k) w in
  let w4 := on (perCall (receiveEventError event) id)
               (LStreamReceiveError k) w3 in
  let w5 := on (perCall (receiveEventStreamEnd event) id)
               (LStreamReceiveStreamEnd k) w4 in
  match sc_signal k with
  | Some sg =>
      if signalAborted (sc_signal k) w5
      then (onAbortThrows (emit depth) k w5, onAbort (emit depth) k w5)
      else (None, addAbortListener sg k w5)
  | None => (None, w5)
  end.

(** The call [invoke(req, { signal, ...emitOptions })]: the closure record
    of the call, whose [sc_stream] is the stream handed to the caller, and
    the world after the call.  [new ReadableStream] runs [start] and throws
    what it throws: the call then ends there, no stream is returned and the
    request is not sent; [streamInvokeThrows] gives that error. *)
Definition streamInvoke (event : InvokeEventa) (req : JsVal)
    (signal : option nat) (opts : Opts) (w : World) : StreamCall * World :=
  let (id, w1) := drawId w in
  let (h, w2) := newReadableStream w1 in
  let k := mkStreamCall event id h signal opts in
  match start k w2 with
  | (Some _, w6) => (k, w6)
  | (None, w6) =>
      match req with
      | JStream r =>
          (k, enqueueTask (TPump (PumpStream signal) event id r opts) w6)
      | _ => (k, emit depth (mkEnvelope (sendEvent event)
                                        (sendBody id req false) opts) w6)
      end
  end.

Definition streamInvokeThrows (event : InvokeEventa) (signal : option nat)
    (opts : Opts) (w : World) : option JsVal :=
  let (id, w1) := drawId w in
  let (h, w2) := newReadableStream w1 in
  (start (mkStreamCall event id h signal opts) w2).1.

(** The caller trips its signal: [controller.abort(reason)].  The
    listeners were added with [once], so each leaves the signal before it
    runs. *)
Definition abortSignal (sg : nat) (reason : JsVal) (w : World) : World :=
  match w_signals w !! sg with
  | Some s =>
      if sg_aborted s then w
      else
        let w1 := set_signals (fun m => <[sg := mkSignal true reason []]> m)
                              w in
        foldl (fun w' k => onAbort (emit depth) k w') w1 (sg_listeners s)
  | None => w
  end.

(** The consumer cancels the response stream: the stream closes and the
    [cancel(reason)] of its source runs. *)
Definition cancel (k : StreamCall) (reason : JsVal) (w : World) : World :=
  match w_streams w !! sc_stream k with
  | Some s =>
      if isReadable s then
        let w1 := set_streams
          (fun m => <[sc_stream k := mkStream [] (closeRequested s) Closed
                                              (taken s)]> m) w in
        let w2 := emit depth (mkEnvelope (sendEventAbort (sc_event k))
                                (abortBody (sc_id k) reason) (sc_opts k))
                       w1 in
        cleanup k w2
      else w
  | None => w
  end.

(** The consumer reads the next chunk of stream [h]. *)
Definition consumerRead (h : nat) (w : World) : ReadResult * World :=
  match w_streams w !! h with
  | Some s =>
      let (r, s') := streamRead s in
      (r, set_streams (fun m => <[h := s']> m) w)
  | None => (Pending, w)
  end.

(** *** stream.ts with cancellation: defineStreamInvokeHandler *)

Definition defineStreamInvokeHandler (event : InvokeEventa) (fn : nat)
    (w : World) : nat * World :=
  let (s, w1) := allocate w in
  (s, on (sendEventAbort event) (LServeAbort s event fn)
        (on (sendEventStreamEnd event) (LServeStreamEnd s)
          (on (sendEvent event) (LServeSend s event fn) w1))).

(** *** stream.ts without cancellation *)


Definition plainCancel (event : InvokeEventa) (id : string) (h : nat)
    (w : World) : World :=
  match w_streams w !! h with
  | Some s =>
      if isReadable s then
        offReceivers event id
          (set_streams
             (fun m => <[h := mkStream [] (closeRequested s) Closed
                                       (taken s)]> m) w)
      else w
  | None => w
  end.


(** *** invoke-remote-methods.ts: the serializer *)

(** A disposer returned by [defineInvokeHandler]. *)
Record Disposer := mkDisposer {
  d_event : InvokeEventa;
  d_handler : Handler;
  d_internal : nat
}.

Record SerializeState := mkSerializeState {
  ser_functionCount : nat;
  ser_seen : Seen;
  ser_disposers : list Disposer;
  ser_world : World
}.

(** [seen.set(input, output)], set once the children are walked, as in the
    deserializer. *)
Definition serializeSeen (input : JsVal) (r : Walked SerializeState)
    : Walked SerializeState :=
  match r with
  | WOk output st =>
      WOk output (mkSerializeState (ser_functionCount st)
                    ((input, output) :: ser_seen st) (ser_disposers st)
                    (ser_world st))
  | WThrow e st => WThrow e st
  end.

Section Serialize.
Variable options : StubOptions.

(** The function case of [walk]: a handler on a new family stands in
    for the function. *)
Definition serializeFunction (f : Fn) (st : SerializeState)
    : Walked SerializeState :=
  if (maxFunctions options <=? ser_functionCount st)
  then WThrow (tooManyStubs options) st
  else
    let (suffix, w1) := drawId (ser_world st) in
    let tag := tagPrefix options +:+ suffix in
    let (event, w2) := defineInvokeEventa (Some tag) w1 in
    let (k, w3) := allocate w2 in
    let h := HStub k f in
    let (ih, w4) := defineInvokeHandler event h w3 in
    WOk (JObj PObject [("__eventaInvoke", JObj PObject [("tag", JStr tag)])])
        (mkSerializeState (S (ser_functionCount st)) (ser_seen st)
           (ser_disposers st ++ [mkDisposer event h ih]) w4).

(** [walk] of [serializeInvokeFunctionPayload]. *)
Fixpoint serializeWalk (input : JsVal) (depth : nat) (st : SerializeState)
    {struct input} : Walked SerializeState :=
  match input with
  | JFun f => serializeFunction f st
  | JArr items =>
      if (maxDepth options <? depth) then WThrow (tooDeep options) st
      else
        match seenGet input (ser_seen st) with
        | Some output => WOk output st
        | None =>
            serializeSeen input
              (walkItems (fun x st' => serializeWalk x (S depth) st')
                         items [] st)
        end
  | JObj p fields =>
      if (maxDepth options <? depth) then WThrow (tooDeep options) st
      else
        match seenGet input (ser_seen st) with
        | Some output => WOk output st
        | None =>
            if isPlainObject input then
              serializeSeen input
                (walkFields (fun x st' => serializeWalk x (S depth) st')
                            fields [] st)
            else WOk input st
        end
  | JErr _ _ | JStream _ =>
      if (maxDepth options <? depth) then WThrow (tooDeep options) st
      else WOk input st
  | _ => WOk input st
  end.

Definition serializeInvokeFunctionPayload (value : JsVal) (w : World)
    : Walked SerializeState :=
  if allow options
  then serializeWalk value 0 (mkSerializeState 0 [] [] w)
  else WOk value (mkSerializeState 0 [] [] w).
End Serialize.


(** *** invoke-remote-methods.ts: withRemoteMethods *)



Definition remoteDefineInvokeHandler (defaultOptions : StubOptionsArg)
    (event : InvokeEventa) (h : Handler) (w : World) : nat * World :=
  let normalizedOptions :=
    resolveFunctionStubOptions defaultOptions StubsUndefined in
  let (k, w1) := allocate w in
  defineInvokeHandler event (HRemote k normalizedOptions h) w1.
End Runtime.

(** ** context-extension-invoke-internal.ts *)

(** A fatal source is the id of its descriptor. *)
Definition getContextExtensionInvokeInternalConfig (w : World)
    : option (list string) :=
  w_abortOnEvents w.

(** [abortOnEvents] is reused when it is an array, the source is pushed
    unless the array includes it, and the array is stored back. *)
Definition registerInvokeAbortEventListeners (eventOrMatch : string)
    (w : World) : list string * World :=
  let abortOnEvents := default [] (w_abortOnEvents w) in
  let abortOnEvents' :=
    if decide (eventOrMatch ∈ abortOnEvents) then abortOnEvents
    else abortOnEvents ++ [eventOrMatch] in
  (abortOnEvents', set_abortOnEvents (fun _ => Some abortOnEvents') w).

(** ** invoke.ts: defineInvokeHandlers *)

(** An object used as a record of values: its own enumerable properties in
    property order.  The keys of an object are pairwise distinct. *)
Fixpoint propertyOf {A : Type} (key : string) (o : list (string * A))
    : option A :=
  match o with
  | [] => None
  | (k, v) :: o' => if String.eqb key k then Some v else propertyOf key o'
  end.

Definition keysMismatch : JsVal :=
  JErr "Error" "The keys of events and handlers must match.".

(** The record [defineInvokeHandlers] returns, an object literal: its own
    properties, and the disposer an assignment to the key [__proto__] has
    relinked it to, if there was one. *)
Record DisposerRecord := mkDisposerRecord {
  dr_prototype : option Disposer;
  dr_own : list (string * Disposer)
}.

(** [returnValues[key] = disposer] on the literal [{}]. *)
Definition assignDisposer (key : string) (disposer : Disposer)
    (returnValues : DisposerRecord) : DisposerRecord :=
  mkDisposerRecord
    (if String.eqb key "__proto__" then Some disposer
     else dr_prototype returnValues)
    (assignProperty true key disposer (dr_own returnValues)).

(** [defineInvokeHandlers]: the error it throws, or the record of
    disposers. *)
Definition defineInvokeHandlers (events : list (string * InvokeEventa))
    (handlers : list (string * Handler)) (w : World)
    : (JsVal + DisposerRecord) * World :=
  let eventKeys := events.*1 in
  let handlerKeys := remove_dups handlers.*1 in
  if negb (length eventKeys =? length handlerKeys)
     || negb (forallb (fun key => bool_decide (key ∈ handlerKeys)) eventKeys)
  then (inl keysMismatch, w)
  else
    let '(returnValues, w') :=
      foldl (fun '(returnValues, w') key =>
               match propertyOf key events, propertyOf key handlers with
               | Some event, Some h =>
                   let (ih, w'') := defineInvokeHandler event h w' in
                   (assignDisposer key (mkDisposer event h ih) returnValues,
                    w'')
               | _, _ => (returnValues, w')
               end)
            (mkDisposerRecord None [], w) eventKeys in
    (inr returnValues, w').

(** ** stream.ts: toStreamHandler *)

(** How the generator [toStreamHandler] returns stands. *)
Inductive GeneratorStatus :=
| Suspended                  (* at [await values[i]] or at [yield] *)
| Completed                  (* the loop ended *)
| Failed (e : JsVal).        (* the body threw [e] *)

(** The state shared by the closures of one call of the returned stream
    handler: the entries of [values] that are resolved, in order, whether
    the promise pushed last is still pending ([resolve] is its resolver),
    [handlerError], the generator's index [i] and status, and the values
    it has yielded. *)
Record Bridge := mkBridge {
  b_resolved : list (JsVal * bool);
  b_pending : bool;
  b_handlerError : JsVal;
  b_i : nat;
  b_status : GeneratorStatus;
  b_yielded : list JsVal
}.

(** The first promise is pushed, [handlerError] is [null], the generator
    has not run. *)
Definition newBridge : Bridge := mkBridge [] true JNull 0 Suspended [].

(** [resolve(entry)]: a promise that is resolved already stays as it is. *)
Definition bridgeResolve (entry : JsVal * bool) (b : Bridge) : Bridge :=
  if b_pending b
  then mkBridge (b_resolved b ++ [entry]) false (b_handlerError b) (b_i b)
                (b_status b) (b_yielded b)
  else b.

(** [emit(data)]: resolve, then push a new promise. *)
Definition bridgeEmit (data : JsVal) (b : Bridge) : Bridge :=
  let b1 := bridgeResolve (data, false) b in
  mkBridge (b_resolved b1) true (b_handlerError b1) (b_i b1) (b_status b1)
           (b_yielded b1).

(** The [then] callback. *)
Definition bridgeReturned (b : Bridge) : Bridge :=
  bridgeResolve (JUndefined, true) b.

(** The [catch] callback. *)
Definition bridgeRejected (err : JsVal) (b : Bridge) : Bridge :=
  bridgeResolve (JUndefined, true)
    (mkBridge (b_resolved b) (b_pending b) err (b_i b) (b_status b)
              (b_yielded b)).

Definition notIterable : JsVal :=
  JErr "TypeError" "undefined is not iterable".

(** The generator resumes from [await values[i]] and runs to its next
    [await]: it stays suspended while the promise is pending; awaiting an
    index the array does not hold gives [undefined], which the destructuring
    rejects. *)
Definition bridgeResume (b : Bridge) : Bridge :=
  match b_status b with
  | Suspended =>
      match (b_resolved b !! b_i b : option (JsVal * bool)) with
      | Some (val, finished) =>
          if truthy (b_handlerError b)
          then mkBridge (b_resolved b) (b_pending b) (b_handlerError b)
                        (b_i b) (Failed (b_handlerError b)) (b_yielded b)
          else if finished
          then mkBridge (b_resolved b) (b_pending b) (b_handlerError b)
                        (S (b_i b)) Completed (b_yielded b)
          else mkBridge (b_resolved b) (b_pending b) (b_handlerError b)
                        (S (b_i b)) Suspended (b_yielded b ++ [val])
      | None =>
          if b_pending b && (b_i b =? length (b_resolved b))
          then b
          else mkBridge (b_resolved b) (b_pending b) (b_handlerError b)
                        (b_i b) (Failed notIterable) (b_yielded b)
      end
  | _ => b
  end.

(** What happens to one call, each run to completion: the handler calls
    [emit], its promise is fulfilled or rejected, the generator resumes. *)
Inductive BridgeEvent :=
| HandlerEmits (data : JsVal)
| HandlerReturns
| HandlerRejects (err : JsVal)
| GeneratorResumes.

Definition bridgeStep (b : Bridge) (ev : BridgeEvent) : Bridge :=
  match ev with
  | HandlerEmits data => bridgeEmit data b
  | HandlerReturns => bridgeReturned b
  | HandlerRejects err => bridgeRejected err b
  | GeneratorResumes => bridgeResume b
  end.

Definition bridgeRun (trace : list BridgeEvent) : Bridge :=
  foldl bridgeStep newBridge trace.

(** * Properties *)

Arguments invokeEventaOf : simpl never.

(** Projections of worlds built with setters. *)
Ltac fields :=
  cbn [w_listeners w_emitted w_tasks w_waiters w_calls
       w_nextId w_fresh w_streams w_promises w_settles
       w_resolvers w_rejectors w_invokeHandlers w_streamStates w_abortControllers
       w_abortReasons w_tokens w_signals w_abortOnEvents
       set_listeners set_emitted set_tasks set_waiters
       set_calls set_nextId set_fresh set_streams
       set_promises set_settles set_resolvers set_rejectors
       set_invokeHandlers set_streamStates set_abortControllers set_abortReasons
       set_tokens set_signals set_abortOnEvents
       enqueueTask allocate fst snd from_option id] in *.

(** ** Strings and descriptor ids *)

Lemma append_assoc (a b c : string) : (a +:+ b) +:+ c = a +:+ (b +:+ c).
Proof.
  induction a as [|x a IH]; [done|].
  change (String x ((a +:+ b) +:+ c) = String x (a +:+ (b +:+ c))).
  by rewrite IH.
Qed.

Lemma length_append (a b : string) :
  String.length (a +:+ b) = String.length a + String.length b.
Proof.
  induction a as [|x a IH]; [done|].
  change (S (String.length (a +:+ b)) = S (String.length a + String.length b)).
  by rewrite IH.
Qed.

(** Two descriptors of one family differ as soon as their suffixes do. *)
Lemma suffix_ne (tag a b : string) : a ≠ b -> tag +:+ a ≠ tag +:+ b.
Proof. intros Hne H%(inj _). done. Qed.

Lemma suffix_length_ne (tag a b : string) :
  String.length a ≠ String.length b -> tag +:+ a ≠ tag +:+ b.
Proof. intros Hne. apply suffix_ne. congruence. Qed.

Ltac family_ne :=
  unfold perCall, invokeEventaOf; simpl; rewrite ?append_assoc;
  first
    [ apply suffix_ne; discriminate
    | apply suffix_length_ne; simpl; rewrite ?length_append; simpl; lia ].

Lemma send_ne_streamEnd tag :
  sendEvent (invokeEventaOf tag) ≠ sendEventStreamEnd (invokeEventaOf tag).
Proof. family_ne. Qed.

Lemma receive_ne_error tag id :
  perCall (receiveEvent (invokeEventaOf tag)) id
  ≠ perCall (receiveEventError (invokeEventaOf tag)) id.
Proof. family_ne. Qed.

Lemma receive_ne_streamEnd tag id :
  perCall (receiveEvent (invokeEventaOf tag)) id
  ≠ perCall (receiveEventStreamEnd (invokeEventaOf tag)) id.
Proof. family_ne. Qed.

Lemma error_ne_streamEnd tag id :
  perCall (receiveEventError (invokeEventaOf tag)) id
  ≠ perCall (receiveEventStreamEnd (invokeEventaOf tag)) id.
Proof. family_ne. Qed.

Lemma send_ne_receive tag id :
  sendEvent (invokeEventaOf tag)
  ≠ perCall (receiveEvent (invokeEventaOf tag)) id.
Proof. family_ne. Qed.

Lemma send_ne_error tag id :
  sendEvent (invokeEventaOf tag)
  ≠ perCall (receiveEventError (invokeEventaOf tag)) id.
Proof. family_ne. Qed.

Lemma send_ne_receiveStreamEnd tag id :
  sendEvent (invokeEventaOf tag)
  ≠ perCall (receiveEventStreamEnd (invokeEventaOf tag)) id.
Proof. family_ne. Qed.

Lemma abort_ne_receive tag id :
  sendEventAbort (invokeEventaOf tag)
  ≠ perCall (receiveEvent (invokeEventaOf tag)) id.
Proof. family_ne. Qed.

Lemma abort_ne_error tag id :
  sendEventAbort (invokeEventaOf tag)
  ≠ perCall (receiveEventError (invokeEventaOf tag)) id.
Proof. family_ne. Qed.

Lemma abort_ne_receiveStreamEnd tag id :
  sendEventAbort (invokeEventaOf tag)
  ≠ perCall (receiveEventStreamEnd (invokeEventaOf tag)) id.
Proof. family_ne. Qed.

(** ** The bus registry *)

Lemma listenersOf_set_listeners id f w :
  listenersOf id (set_listeners f w) = default [] (f (w_listeners w) !! id).
Proof. done. Qed.

Lemma on_new id l w :
  l ∉ listenersOf id w ->
  on id l w = set_listeners (fun m => <[id := listenersOf id w ++ [l]]> m) w.
Proof. intros H. unfold on. by rewrite decide_False. Qed.

Lemma on_first id l w :
  listenersOf id w = [] ->
  on id l w = set_listeners (fun m => <[id := [l]]> m) w.
Proof.
  intros H. rewrite on_new; rewrite H; [done|]. apply not_elem_of_nil.
Qed.

Lemma listenersOf_insert id ls (m : gmap string (list Listener)) w :
  w_listeners w = <[id := ls]> m -> listenersOf id w = ls.
Proof. intros H. unfold listenersOf. by rewrite H, lookup_insert_eq. Qed.

Lemma listenersOf_on_ne id id' l w :
  id ≠ id' -> listenersOf id' (on id l w) = listenersOf id' w.
Proof.
  intros Hne. unfold on. case_decide; [done|].
  unfold listenersOf; simpl. by rewrite lookup_insert_ne.
Qed.

Lemma listenersOf_off id w : listenersOf id (off id w) = [].
Proof. unfold listenersOf, off; simpl. by rewrite lookup_delete_eq. Qed.

Lemma listenersOf_off_ne id id' w :
  id ≠ id' -> listenersOf id' (off id w) = listenersOf id' w.
Proof.
  intros Hne. unfold listenersOf, off; simpl. by rewrite lookup_delete_ne.
Qed.

(** An emission nobody listens to is logged and nothing else. *)
Lemma emit_unheard rt n e w :
  listenersOf (ev_id e) w = [] ->
  emit rt n e w = set_emitted (fun l => l ++ [e]) w.
Proof. intros H. destruct n; simpl; [done|]. by rewrite H. Qed.

Lemma emit_one rt n e w l :
  listenersOf (ev_id e) w = [l] ->
  emit rt (S n) e w
  = runListener rt (emit rt n) l e (set_emitted (fun l => l ++ [e]) w).
Proof. intros H. simpl. by rewrite H. Qed.

(** ** C10: a server ignores an envelope without a usable invokeId *)

Definition isServerListener (l : Listener) : Prop :=
  match l with
  | LOnSend _ _ _ | LOnSendStreamEnd _ _ _
  | LServeSend _ _ _ | LServeStreamEnd _ | LServeAbort _ _ _
  | LPlainServeSend _ _ _ | LPlainServeStreamEnd _ => True
  | _ => False
  end.

(** The body is absent, or its invokeId is missing or empty. *)
Definition lacksInvokeId (e : Envelope) : Prop :=
  ev_body e = None
  ∨ ∃ b, ev_body e = Some b ∧ (invokeId b = None ∨ invokeId b = Some "").

Lemma lacksInvokeId_not_accepted e :
  lacksInvokeId e -> acceptedInvokeId e = None.
Proof.
  unfold acceptedInvokeId.
  intros [-> | (b & -> & [H | H])]; simpl; by rewrite ?H.
Qed.

Lemma server_listener_ignores rt emit' l e w :
  isServerListener l -> acceptedInvokeId e = None ->
  runListener rt emit' l e w = w.
Proof.
  intros Hl He. destruct l; try done; simpl;
    unfold onSend, onSendStreamEnd, onServeSend, onServeStreamEnd,
      onServeAbort, onPlainServeSend; by rewrite He.
Qed.

(** C10.  An envelope whose body is absent or whose invokeId is missing or
    empty, emitted on a descriptor that servers listen on (the send or
    send-stream-end descriptor of a unary server; the same holds of the
    streaming servers): the emission is logged and the world is otherwise
    unchanged.  So no handler is called, no continuation is scheduled, no
    receive or receive-error envelope is emitted and the stream-state table
    is as before. *)
Theorem server_ignores_envelope_without_invokeId rt n e w :
  lacksInvokeId e ->
  Forall isServerListener (listenersOf (ev_id e) w) ->
  emit rt n e w = set_emitted (fun l => l ++ [e]) w.
Proof.
  intros He%lacksInvokeId_not_accepted Hls.
  destruct n as [|n]; simpl; [done|].
  generalize (set_emitted (fun l => l ++ [e]) w) as w0.
  induction Hls as [|l ls Hl _ IH]; intros w0; simpl; [done|].
  by rewrite server_listener_ignores.
Qed.

(** ** C9: undefineInvokeHandler *)

Lemma listenersOf_offListener id l w :
  listenersOf id (offListener id l w)
  = filter (fun x => x ≠ l) (listenersOf id w).
Proof.
  unfold listenersOf, offListener; fields. rewrite lookup_alter_eq.
  by destruct (w_listeners w !! id).
Qed.

Lemma listenersOf_offListener_ne id id' l w :
  id ≠ id' -> listenersOf id' (offListener id l w) = listenersOf id' w.
Proof.
  intros Hne. unfold listenersOf, offListener; fields.
  by rewrite lookup_alter_ne.
Qed.

Lemma listenersOf_on id l w :
  listenersOf id (on id l w)
  = if decide (l ∈ listenersOf id w) then listenersOf id w
    else listenersOf id w ++ [l].
Proof.
  unfold on. case_decide; [done|].
  unfold listenersOf at 1; fields. by rewrite lookup_insert_eq.
Qed.

Lemma on_invokeHandlers id l w :
  w_invokeHandlers (on id l w) = w_invokeHandlers w.
Proof. unfold on. by case_decide. Qed.

Lemma on_fresh id l w : w_fresh (on id l w) = w_fresh w.
Proof. unfold on. by case_decide. Qed.

Lemma offListener_invokeHandlers id l w :
  w_invokeHandlers (offListener id l w) = w_invokeHandlers w.
Proof. done. Qed.

(** The handlers [ctx.invokeHandlers] holds for a family, none if there is
    no entry. *)
Definition registered (event : InvokeEventa) (w : World)
    : list (Handler * nat) :=
  default [] (default ∅ (w_invokeHandlers w) !! sendEvent event).

Lemma defineInvokeHandler_new event h w :
  lookupHandler h (registered event w) = None ->
  defineInvokeHandler event h w
  = (w_fresh w,
     on (sendEventStreamEnd event) (LOnSendStreamEnd (w_fresh w) event h)
       (on (sendEvent event) (LOnSend (w_fresh w) event h)
          (set_invokeHandlers
             (fun _ => Some (<[sendEvent event := registered event w
                                                   ++ [(h, w_fresh w)]]>
                               (default ∅ (w_invokeHandlers w))))
             (set_fresh S w)))).
Proof.
  intros H. unfold defineInvokeHandler. fold (registered event w).
  by rewrite H.
Qed.

(** What registering a handler the family does not have yet does to the
    registry and to the two descriptors the server listens on. *)
Lemma defineInvokeHandler_new_spec tag h w :
  let event := invokeEventaOf tag in
  let ih := w_fresh w in
  let r := defineInvokeHandler event h w in
  lookupHandler h (registered event w) = None ->
  LOnSend ih event h ∉ listenersOf (sendEvent event) w ->
  LOnSendStreamEnd ih event h ∉ listenersOf (sendEventStreamEnd event) w ->
  r.1 = ih
  ∧ w_fresh r.2 = S ih
  ∧ registered event r.2 = registered event w ++ [(h, ih)]
  ∧ w_invokeHandlers r.2
    = Some (<[sendEvent event := registered event w ++ [(h, ih)]]>
              (default ∅ (w_invokeHandlers w)))
  ∧ listenersOf (sendEvent event) r.2
    = listenersOf (sendEvent event) w ++ [LOnSend ih event h]
  ∧ listenersOf (sendEventStreamEnd event) r.2
    = listenersOf (sendEventStreamEnd event) w ++ [LOnSendStreamEnd ih event h].
Proof.
  intros event ih r Hnew Hs He.
  pose proof (send_ne_streamEnd tag) as Hids. fold event in Hids.
  unfold r. rewrite defineInvokeHandler_new by done. fold ih. fields.
  rewrite !on_fresh, !on_invokeHandlers. fields.
  split; [done|]. split; [done|]. split.
  { unfold registered. rewrite !on_invokeHandlers. fields.
    by rewrite lookup_insert_eq. }
  split; [done|]. split.
  - rewrite listenersOf_on_ne by done. rewrite listenersOf_on.
    by rewrite decide_False.
  - rewrite listenersOf_on. rewrite listenersOf_on_ne by done.
    by rewrite decide_False.
Qed.

Lemma undefine_one event h ih handlers registry w :
  w_invokeHandlers w = Some registry ->
  registry !! sendEvent event = Some handlers ->
  lookupHandler h handlers = Some ih ->
  undefineInvokeHandler event (Some h) w
  = (true, set_invokeHandlers (fun _ => Some (delete (sendEvent event) registry))
             (dispose event h ih w)).
Proof.
  intros Hreg Hfam Hh. unfold undefineInvokeHandler. by rewrite Hreg, Hfam, Hh.
Qed.

Lemma undefine_forgotten event handler registry w :
  w_invokeHandlers w = Some registry ->
  registry !! sendEvent event = None ->
  undefineInvokeHandler event handler w = (false, w).
Proof.
  intros Hreg Hfam. unfold undefineInvokeHandler. by rewrite Hreg, Hfam.
Qed.

(** Without any registration on the context, there is nothing to remove. *)
Lemma undefine_unregistered event handler w :
  w_invokeHandlers w = None ->
  undefineInvokeHandler event handler w = (false, w).
Proof. intros Hreg. unfold undefineInvokeHandler. by rewrite Hreg. Qed.

(** C9.  Two distinct handlers are registered on a family nothing was
    registered on.  Removing the first by name returns true and removes its
    two listeners only, but it also deletes the family's whole entry of
    [ctx.invokeHandlers]; so the removal of all handlers that follows finds
    no entry, returns false and leaves the listeners of the second handler
    on the bus, where they still answer every invoke. *)
Theorem undefine_one_then_all tag h1 h2 w :
  let event := invokeEventaOf tag in
  let r1 := defineInvokeHandler event h1 w in
  let r2 := defineInvokeHandler event h2 r1.2 in
  let u1 := undefineInvokeHandler event (Some h1) r2.2 in
  let u2 := undefineInvokeHandler event None u1.2 in
  h1 ≠ h2 ->
  registered event w = [] ->
  listenersOf (sendEvent event) w = [] ->
  listenersOf (sendEventStreamEnd event) w = [] ->
  u1.1 = true
  ∧ listenersOf (sendEvent event) u1.2 = [LOnSend r2.1 event h2]
  ∧ listenersOf (sendEventStreamEnd event) u1.2
    = [LOnSendStreamEnd r2.1 event h2]
  ∧ u2.1 = false
  ∧ listenersOf (sendEvent event) u2.2 = [LOnSend r2.1 event h2]
  ∧ listenersOf (sendEventStreamEnd event) u2.2
    = [LOnSendStreamEnd r2.1 event h2].
Proof.
  intros event r1 r2 u1 u2 Hne Hreg Hsend Hend.
  pose proof (send_ne_streamEnd tag) as Hids. fold event in Hids.
  destruct (defineInvokeHandler_new_spec tag h1 w)
    as (Hih1 & Hf1 & Hreg1 & Hm1 & Hs1 & He1).
  { fold event. by rewrite Hreg. }
  { fold event. rewrite Hsend. apply not_elem_of_nil. }
  { fold event. rewrite Hend. apply not_elem_of_nil. }
  fold event in Hih1, Hf1, Hreg1, Hm1, Hs1, He1.
  fold r1 in Hih1, Hf1, Hreg1, Hm1, Hs1, He1.
  rewrite Hreg in Hreg1, Hm1. rewrite Hsend in Hs1. rewrite Hend in He1.
  cbn [app] in Hreg1, Hm1, Hs1, He1.
  destruct (defineInvokeHandler_new_spec tag h2 r1.2)
    as (Hih2 & Hf2 & Hreg2 & Hm2 & Hs2 & He2).
  { fold event. rewrite Hreg1. cbn [lookupHandler]. by rewrite decide_False. }
  { fold event. rewrite Hs1, Hf1. rewrite list_elem_of_singleton.
    intros [= ?]. lia. }
  { fold event. rewrite He1, Hf1. rewrite list_elem_of_singleton.
    intros [= ?]. lia. }
  fold event in Hih2, Hf2, Hreg2, Hm2, Hs2, He2.
  fold r2 in Hih2, Hf2, Hreg2, Hm2, Hs2, He2.
  rewrite Hreg1 in Hreg2, Hm2. rewrite Hs1 in Hs2. rewrite He1 in He2.
  rewrite Hf1 in *. cbn [app] in Hreg2, Hm2, Hs2, He2.
  assert (u1 = (true,
            set_invokeHandlers
              (fun _ => Some (delete (sendEvent event)
                 (<[sendEvent event := [(h1, w_fresh w); (h2, S (w_fresh w))]]>
                    (default ∅ (w_invokeHandlers r1.2)))))
              (dispose event h1 (w_fresh w) r2.2))) as Hu1.
  { unfold u1. eapply undefine_one; [exact Hm2 | apply lookup_insert_eq |].
    cbn [lookupHandler]. by rewrite decide_True. }
  assert (listenersOf (sendEvent event) u1.2 = [LOnSend r2.1 event h2]) as Hus.
  { rewrite Hu1. unfold dispose. cbn [snd].
    change (listenersOf (sendEvent event)
              (offListener (sendEventStreamEnd event)
                 (LOnSendStreamEnd (w_fresh w) event h1)
                 (offListener (sendEvent event) (LOnSend (w_fresh w) event h1)
                    r2.2)) = [LOnSend r2.1 event h2]).
    rewrite listenersOf_offListener_ne by done.
    rewrite listenersOf_offListener, Hs2, Hih2. cbn [filter list_filter].
    rewrite decide_False by (intros H; by apply H).
    rewrite decide_True by (intros [= ?]; lia). done. }
  assert (listenersOf (sendEventStreamEnd event) u1.2
          = [LOnSendStreamEnd r2.1 event h2]) as Hue.
  { rewrite Hu1. unfold dispose. cbn [snd].
    change (listenersOf (sendEventStreamEnd event)
              (offListener (sendEventStreamEnd event)
                 (LOnSendStreamEnd (w_fresh w) event h1)
                 (offListener (sendEvent event) (LOnSend (w_fresh w) event h1)
                    r2.2)) = [LOnSendStreamEnd r2.1 event h2]).
    rewrite listenersOf_offListener.
    rewrite listenersOf_offListener_ne by done. rewrite He2, Hih2.
    cbn [filter list_filter].
    rewrite decide_False by (intros H; by apply H).
    rewrite decide_True by (intros [= ?]; lia). done. }
  assert (u2 = (false, u1.2)) as Hu2.
  { unfold u2. eapply undefine_forgotten.
    - rewrite Hu1. reflexivity.
    - apply lookup_delete_eq. }
  rewrite Hu2. cbn [fst snd]. rewrite Hus, Hue. by rewrite Hu1.
Qed.

(** ** C6: send-stream-end at the servers *)

(** A stream that was closed with nothing in it: what "empty then end"
    looks like from the consumer's side. *)
Definition closedEmpty : Stream :=
  {| queue := []; closeRequested := true; state := Closed; taken := [] |}.

Lemma streamClose_new : streamClose newStream = Some closedEmpty.
Proof. done. Qed.

(** The unary server, no controller yet for the invokeId: the handler is
    called with a new input stream, which is then closed and dropped, so
    the handler reads "empty then end".  (For a handler that does not throw
    before it returns; one that does has its error emitted in between.) *)
Lemma onSendStreamEnd_without_controller rt emit' ih event f e id w :
  acceptedInvokeId e = Some id ->
  w_streamStates w !! (ih, id) = None ->
  (forall x, userFn rt (FUser f) (JStream (w_fresh w)) ≠ ThrowsSync x) ->
  let w' := onSendStreamEnd rt emit' ih event (HUser f) e w in
  w_calls w'
  = w_calls w ++ [mkHandlerCall (UnaryHandler (HUser f)) (JStream (w_fresh w))
                                (ev_opts e) None]
  ∧ w_streams w' !! w_fresh w = Some closedEmpty
  ∧ w_streamStates w' !! (ih, id) = None.
Proof.
  intros He Hnone Hsync w'. unfold w', onSendStreamEnd.
  rewrite He, Hnone. unfold newReadableStream, handleInvoke. fields.
  cbn [callHandler].
  destruct (userFn rt (FUser f) (JStream (w_fresh w))) as [v|x|x] eqn:Ho;
    [|by destruct (Hsync x)|]; fields;
    unfold controllerClose; fields; rewrite lookup_insert_eq;
    cbn [mbind option_bind]; rewrite streamClose_new; cbn [mbind option_bind];
    unfold wake; fields;
    (destruct (w_waiters w !! w_fresh w); fields;
     rewrite ?lookup_insert_eq, ?lookup_delete_eq; done).
Qed.

(** Both servers, a controller at hand: it is closed and dropped. *)
Lemma onSendStreamEnd_with_controller rt emit' ih event h e id c s s' w :
  acceptedInvokeId e = Some id ->
  w_streamStates w !! (ih, id) = Some c ->
  w_streams w !! c = Some s ->
  streamClose s = Some s' ->
  let w' := onSendStreamEnd rt emit' ih event h e w in
  w_streams w' !! c = Some s'
  ∧ w_streamStates w' !! (ih, id) = None
  ∧ w_calls w' = w_calls w
  ∧ runListener rt emit' (LServeStreamEnd ih) e w = w'.
Proof.
  intros He Hc Hs Hclose w'. unfold w'. simpl.
  unfold onSendStreamEnd, onServeStreamEnd. rewrite He, Hc.
  unfold controllerClose. rewrite Hs. cbn [mbind option_bind].
  rewrite Hclose. cbn [mbind option_bind]. unfold wake; fields.
  destruct (w_waiters w !! c); fields;
    rewrite ?lookup_insert_eq, ?lookup_delete_eq; done.
Qed.

(** C6.  A send-stream-end arrives for an invokeId the server holds no
    input controller for.  The unary server calls its handler with a new
    input stream, closes the stream and drops it from its table, so the
    handler reads "empty then end".  The streaming servers drop the
    envelope instead: the world stays as it is, so no input stream is
    created and the producer is not called. *)
Theorem stream_server_ignores_end_without_controller
    rt emit' s event f e id w :
  acceptedInvokeId e = Some id ->
  w_streamStates w !! (s, id) = None ->
  (forall x, userFn rt (FUser f) (JStream (w_fresh w)) ≠ ThrowsSync x) ->
  (let w' := runListener rt emit' (LOnSendStreamEnd s event (HUser f)) e w in
   w_calls w'
   = w_calls w ++ [mkHandlerCall (UnaryHandler (HUser f))
                                 (JStream (w_fresh w)) (ev_opts e) None]
   ∧ w_streams w' !! w_fresh w = Some closedEmpty
   ∧ w_streamStates w' !! (s, id) = None)
  ∧ runListener rt emit' (LServeStreamEnd s) e w = w
  ∧ runListener rt emit' (LPlainServeStreamEnd s) e w = w.
Proof.
  intros He Hnone Hsync. split.
  - by apply onSendStreamEnd_without_controller.
  - cbn [runListener]. unfold onServeStreamEnd. by rewrite He, Hnone.
Qed.

(** ** The unary client: what a call sets up *)

Definition isStream (v : JsVal) : bool :=
  match v with JStream _ => true | _ => false end.

(** The world right after [_invoke] registered the call and before it emits
    the request. *)
Definition invokeRegistered (rt : Runtime) (c : nat) (event : InvokeEventa)
    (w : World) : World :=
  let p := w_fresh w in
  let id := nanoid rt (w_nextId w) in
  set_listeners
    (fun m => <[perCall (receiveEventError event) id
                := [LInvokeReceiveError c event id]]> m)
    (set_listeners
       (fun m => <[perCall (receiveEvent event) id
                   := [LInvokeReceive c event id]]> m)
       (set_rejectors (fun m => <[(c, id) := p]> m)
          (set_resolvers (fun m => <[(c, id) := p]> m)
             (set_nextId S
                (set_promises (fun m => <[p := PPending]> m)
                   (set_fresh S w)))))).

Lemma invoke_registers rt depth c tag req opts w :
  let event := invokeEventaOf tag in
  let id := nanoid rt (w_nextId w) in
  listenersOf (perCall (receiveEvent event) id) w = [] ->
  listenersOf (perCall (receiveEventError event) id) w = [] ->
  invoke rt depth c event req opts w
  = (id, w_fresh w,
     match req with
     | JStream r =>
         enqueueTask (TPump PumpInvoke event id r opts)
           (invokeRegistered rt c event w)
     | _ =>
         emit rt depth (mkEnvelope (sendEvent event) (sendBody id req false)
                                   opts)
           (invokeRegistered rt c event w)
     end).
Proof.
  intros event id Hr He.
  pose proof (receive_ne_error tag id) as Hne. fold event in Hne.
  unfold invoke, drawId. fields. fold id.
  rewrite (on_first (perCall (receiveEvent event) id)) by done.
  rewrite (on_first (perCall (receiveEventError event) id)).
  2:{ unfold listenersOf; fields. rewrite lookup_insert_ne by done. apply He. }
  unfold invokeRegistered. fold id. fields.
  destruct req; reflexivity.
Qed.

(** ** C1: a unary call settles exactly once *)

Lemma eqb_nonempty id : id ≠ "" -> String.eqb id "" = false.
Proof. intros H. by apply String.eqb_neq. Qed.

Lemma accepted_send id v chunked opts ev :
  id ≠ "" ->
  acceptedInvokeId (mkEnvelope ev (sendBody id v chunked) opts) = Some id.
Proof.
  intros H. unfold acceptedInvokeId; simpl. by rewrite eqb_nonempty.
Qed.


Lemma bodyFor_receive id v opts ev :
  bodyFor id (mkEnvelope ev (receiveBody id v) opts)
  = Some (mkBody (Some id) v false).
Proof. unfold bodyFor; simpl. by rewrite decide_True. Qed.


(** ** C5: fatal events *)

(** A per-call listener ignores an envelope that does not carry its
    invokeId. *)
Lemma client_listener_ignores rt emit' l e w :
  match l with
  | LInvokeReceive _ _ id | LInvokeReceiveError _ _ id
  | LPlainReceive id _ | LPlainReceiveError id _
  | LPlainReceiveStreamEnd id _ => bodyFor id e = None
  | LStreamReceive k | LStreamReceiveError k
  | LStreamReceiveStreamEnd k => bodyFor (sc_id k) e = None
  | _ => False
  end ->
  runListener rt emit' l e w = w.
Proof.
  destruct l; try done; intros H; cbn [runListener];
    unfold onInvokeReceive, onInvokeReceiveError, onStreamReceive,
      onStreamReceiveError, onStreamReceiveStreamEnd, onPlainReceive,
      onPlainReceiveError, onPlainReceiveStreamEnd; by rewrite H.
Qed.

(** The envelope of a fatal event carrying the error [E]: its body has no
    invokeId. *)
Definition fatalEnvelope (fatal : string) (E : JsVal) : Envelope :=
  mkEnvelope fatal (Some (mkBody None (errorContent E) false)) None.

Lemma bodyFor_fatal id fatal E : bodyFor id (fatalEnvelope fatal E) = None.
Proof. done. Qed.

(** C5.  A context registers a fatal source, a unary call is made that no
    handler answers, and the fatal event fires carrying [E]: the source is
    on record in the context's configuration, but [_invoke] never reads that
    configuration and listens on no fatal source, so the call's promise is
    still pending, no resolve or reject function was called, and the
    per-call listeners and pending-table entries are still in place. *)
Theorem fatal_event_leaves_invoke_pending rt depth tag fatal E req :
  let event := invokeEventaOf tag in
  let w1 := (registerInvokeAbortEventListeners fatal emptyWorld).2 in
  let c := (defineInvoke w1).1 in
  let call := invoke rt depth c event req None (defineInvoke w1).2 in
  let id := call.1.1 in
  let p := call.1.2 in
  let w' := emit rt depth (fatalEnvelope fatal E) call.2 in
  getContextExtensionInvokeInternalConfig w' = Some [fatal]
  ∧ w_promises w' !! p = Some PPending
  ∧ w_settles w' = []
  ∧ w_resolvers w' !! (c, id) = Some p
  ∧ w_rejectors w' !! (c, id) = Some p
  ∧ listenersOf (perCall (receiveEvent event) id) w'
    = [LInvokeReceive c event id]
  ∧ listenersOf (perCall (receiveEventError event) id) w'
    = [LInvokeReceiveError c event id].
Proof.
  intros event w1 c call id p w'.
  set (w2 := (defineInvoke w1).2).
  set (id0 := nanoid rt 0).
  pose proof (receive_ne_error tag id0) as Hre.
  pose proof (send_ne_receive tag id0) as Hsr.
  pose proof (send_ne_error tag id0) as Hse.
  fold event in Hre, Hsr, Hse.
  assert (call = (id0, 1,
            match req with
            | JStream r =>
                enqueueTask (TPump PumpInvoke event id0 r None)
                  (invokeRegistered rt c event w2)
            | _ =>
                set_emitted
                  (fun l => l ++ [mkEnvelope (sendEvent event)
                                    (sendBody id0 req false) None])
                  (invokeRegistered rt c event w2)
            end)) as Hcall.
  { unfold call, event. rewrite invoke_registers by done. fold event w2.
    change (nanoid rt (w_nextId w2)) with id0.
    change (w_fresh w2) with 1.
    assert (listenersOf (sendEvent event) (invokeRegistered rt c event w2) = [])
      as Hnone.
    { unfold listenersOf, invokeRegistered; fields.
      change (nanoid rt (w_nextId w2)) with id0.
      rewrite !lookup_insert_ne by done. done. }
    destruct req; try (by rewrite emit_unheard by exact Hnone). done. }
  assert (id = id0) as Hid by (unfold id; by rewrite Hcall).
  assert (p = 1) as Hp by (unfold p; by rewrite Hcall).
  set (W := call.2).
  assert (w_listeners W
          = <[perCall (receiveEventError event) id0
              := [LInvokeReceiveError c event id0]]>
              (<[perCall (receiveEvent event) id0
                 := [LInvokeReceive c event id0]]> ∅)) as HWl.
  { unfold W. rewrite Hcall. by destruct req. }
  assert (w' = set_emitted (fun l => l ++ [fatalEnvelope fatal E]) W) as Hw'.
  { unfold w'. fold W. destruct depth as [|n]; [done|].
    cbn [emit]. unfold listenersOf. rewrite HWl.
    cbn [fatalEnvelope ev_id].
    destruct (decide (fatal = perCall (receiveEventError event) id0))
      as [->|Hf1].
    { rewrite lookup_insert_eq. cbn [from_option Datatypes.id foldl].
      by rewrite client_listener_ignores by apply bodyFor_fatal. }
    rewrite lookup_insert_ne by done.
    destruct (decide (fatal = perCall (receiveEvent event) id0)) as [->|Hf2].
    { rewrite lookup_insert_eq. cbn [from_option Datatypes.id foldl].
      by rewrite client_listener_ignores by apply bodyFor_fatal. }
    rewrite lookup_insert_ne by done. by rewrite lookup_empty. }
  rewrite Hw', Hid, Hp. unfold listenersOf. fields. rewrite HWl.
  unfold W. rewrite Hcall. cbn [snd].
  rewrite lookup_insert_ne by done. rewrite !lookup_insert_eq.
  destruct req; unfold invokeRegistered; fields;
    change (nanoid rt (w_nextId w2)) with id0;
    change (w_fresh w2) with 1;
    rewrite !lookup_insert_eq; done.
Qed.

(** ** C2: a streaming call yields what the producer yields, in order *)




(** The consumer reads [n] more times; the results, oldest first. *)
Fixpoint readMany (n : nat) (s : Stream) : list ReadResult :=
  match n with
  | 0 => []
  | S n' => (streamRead s).1 :: readMany n' (streamRead s).2
  end.

(** A stream whose producer closed it: reads give the queue, then the
    end. *)
Definition closedWith (s : Stream) : Prop :=
  closeRequested s = true
  ∧ state s = match queue s with [] => Closed | _ => Readable end.


Lemma closedWith_read s : closedWith s -> closedWith (streamRead s).2.
Proof.
  intros [Hc Hs]. unfold streamRead.
  destruct (queue s) as [|x q] eqn:Hq.
  - rewrite Hs. simpl. split; [done|]. by rewrite Hq.
  - simpl. split; [done|]. rewrite Hc. by destruct q.
Qed.

Lemma closedWith_drain s :
  closedWith s ->
  readMany (S (length (queue s))) s = (Chunk <$> queue s) ++ [Done].
Proof.
  remember (queue s) as q eqn:Hq. revert s Hq.
  induction q as [|x q IH]; intros s Hq Hs.
  - simpl. unfold streamRead. rewrite <- Hq. destruct Hs as [_ Hs].
    rewrite Hs, <- Hq. done.
  - change (readMany (S (length (x :: q))) s)
      with ((streamRead s).1 :: readMany (S (length q)) (streamRead s).2).
    rewrite (IH (streamRead s).2).
    + unfold streamRead. by rewrite <- Hq.
    + unfold streamRead. by rewrite <- Hq.
    + by apply closedWith_read.
Qed.






(** The plain streaming call [id] on stream [h], served by a producer that
    has [rest] left to yield: the only microtask is the server's loop, the
    receive listeners are in place and the stream is open, holding what was
    yielded before. *)
Definition receiveEnvelope (event : InvokeEventa) (id : string) (opts : Opts)
    (x : JsVal) : Envelope :=
  mkEnvelope (perCall (receiveEvent event) id) (receiveBody id x) opts.




Lemma wake_idle h w : w_waiters w !! h = None -> wake h w = w.
Proof. intros H. unfold wake. by rewrite H. Qed.






Lemma plain_request {A} (req : JsVal) (f : nat -> A) (a : A) :
  isStream req = false ->
  match req with JStream r => f r | _ => a end = a.
Proof. by destruct req. Qed.


(** ** C4: an abort that arrives before the handler has started *)

(** Whatever [createAbortError] returns is an error named AbortError. *)
Lemma createAbortError_name js dom reason e :
  createAbortError js dom reason = Value e ->
  errorName e = Some "AbortError".
Proof.
  unfold createAbortError, abortMessage.
  destruct (isAbortError reason) eqn:Habort.
  - intros [= <-]. destruct reason; try done. simpl in *.
    by apply String.eqb_eq in Habort as ->.
  - intros H.
    destruct dom, (truthy reason), (js reason), reason;
      by simplify_eq.
Qed.


Lemma abort_ne_send tag :
  sendEventAbort (invokeEventaOf tag) ≠ sendEvent (invokeEventaOf tag).
Proof. family_ne. Qed.

Lemma abort_ne_streamEnd tag :
  sendEventAbort (invokeEventaOf tag)
  ≠ sendEventStreamEnd (invokeEventaOf tag).
Proof. family_ne. Qed.

(** What [on] leaves alone. *)
Lemma on_frame id l w :
  let w' := on id l w in
  w_emitted w' = w_emitted w ∧ w_tasks w' = w_tasks w
  ∧ w_waiters w' = w_waiters w ∧ w_calls w' = w_calls w
  ∧ w_fresh w' = w_fresh w ∧ w_streams w' = w_streams w
  ∧ w_streamStates w' = w_streamStates w
  ∧ w_abortControllers w' = w_abortControllers w
  ∧ w_abortReasons w' = w_abortReasons w
  ∧ w_tokens w' = w_tokens w ∧ w_signals w' = w_signals w.
Proof. unfold on. by case_decide. Qed.

(** [defineStreamInvokeHandler] registers the server's three listeners;
    on a send-abort descriptor nobody listens to yet, the abort listener of
    the new server is the only one. *)
Lemma defineStreamInvokeHandler_registers tag fn w :
  let event := invokeEventaOf tag in
  let s := w_fresh w in
  let r := defineStreamInvokeHandler event fn w in
  r.1 = s
  ∧ LServeSend s event fn ∈ listenersOf (sendEvent event) r.2
  ∧ LServeStreamEnd s ∈ listenersOf (sendEventStreamEnd event) r.2
  ∧ LServeAbort s event fn ∈ listenersOf (sendEventAbort event) r.2
  ∧ (listenersOf (sendEventAbort event) w = [] ->
     listenersOf (sendEventAbort event) r.2 = [LServeAbort s event fn])
  ∧ w_emitted r.2 = w_emitted w ∧ w_tasks r.2 = w_tasks w
  ∧ w_waiters r.2 = w_waiters w ∧ w_calls r.2 = w_calls w
  ∧ w_fresh r.2 = S (w_fresh w) ∧ w_streams r.2 = w_streams w
  ∧ w_streamStates r.2 = w_streamStates w
  ∧ w_abortControllers r.2 = w_abortControllers w
  ∧ w_abortReasons r.2 = w_abortReasons w
  ∧ w_tokens r.2 = w_tokens w ∧ w_signals r.2 = w_signals w.
Proof.
  intros event s r. unfold r, defineStreamInvokeHandler. fields.
  set (w0 := set_fresh S w).
  set (w1 := on (sendEvent event) (LServeSend s event fn) w0).
  set (w2 := on (sendEventStreamEnd event) (LServeStreamEnd s) w1).
  set (w3 := on (sendEventAbort event) (LServeAbort s event fn) w2).
  pose proof (abort_ne_send tag) as Has.
  pose proof (abort_ne_streamEnd tag) as Hae.
  pose proof (send_ne_streamEnd tag) as Hse.
  fold event in Has, Hae, Hse.
  assert (forall id l W, l ∈ listenersOf id (on id l W)) as Hin.
  { intros id l W. rewrite listenersOf_on. case_decide; [done|].
    apply elem_of_app. right. by apply list_elem_of_singleton. }
  destruct (on_frame (sendEvent event) (LServeSend s event fn) w0)
    as (A1 & A2 & A3 & A4 & A5 & A6 & A7 & A8 & A9 & A10 & A11).
  destruct (on_frame (sendEventStreamEnd event) (LServeStreamEnd s) w1)
    as (B1 & B2 & B3 & B4 & B5 & B6 & B7 & B8 & B9 & B10 & B11).
  destruct (on_frame (sendEventAbort event) (LServeAbort s event fn) w2)
    as (C1 & C2 & C3 & C4 & C5 & C6 & C7 & C8 & C9 & C10 & C11).
  fold w1 in A1, A2, A3, A4, A5, A6, A7, A8, A9, A10, A11.
  fold w2 in B1, B2, B3, B4, B5, B6, B7, B8, B9, B10, B11.
  fold w3 in C1, C2, C3, C4, C5, C6, C7, C8, C9, C10, C11.
  split; [done|]. split.
  { unfold w3, w2. rewrite !listenersOf_on_ne by done. apply Hin. }
  split.
  { unfold w3. rewrite listenersOf_on_ne by done. apply Hin. }
  split; [apply Hin|]. split.
  { intros Hnone. unfold w3. rewrite listenersOf_on.
    unfold w2, w1. rewrite !listenersOf_on_ne by done.
    change (listenersOf (sendEventAbort event) w0)
      with (listenersOf (sendEventAbort event) w).
    rewrite Hnone. by rewrite decide_False by apply not_elem_of_nil. }
  change (w_fresh w) with s. fold w1 w2 w3.
  rewrite C1, C2, C3, C4, C5, C6, C7, C8, C9, C10, C11.
  rewrite B1, B2, B3, B4, B5, B6, B7, B8, B9, B10, B11.
  rewrite A1, A2, A3, A4, A5, A6, A7, A8, A9, A10, A11.
  done.
Qed.

(** A stream that was errored before anything was enqueued or read. *)
Definition erroredEmpty (e : JsVal) : Stream :=
  {| queue := []; closeRequested := false; state := Errored e; taken := [] |}.

(** C4.  A streaming server is defined on a family whose send-abort
    descriptor nobody listens to yet, and a send-abort is emitted for an
    invokeId the server has neither a cancellation token nor an input
    controller for.  The reason is stashed in the deferred-reason table; an
    input stream is created and the producer is called with it and with a
    new token; the token is registered but not tripped when the emission
    returns: its trip with the stashed reason is the next microtask, ahead
    of the producer's first result, and has happened after one turn.  When
    [createAbortError] returns, the input stream is errored at once with an
    error named AbortError and dropped from the stream-state table, so all
    the producer can read from it is that error.  When [createAbortError]
    throws, which it does for a truthy reason that is no Error and has no
    string conversion, the listener ends at the throw: the input stream
    stays readable and empty and stays in the stream-state table. *)
Theorem abort_before_handler_starts rt depth tag fn e b id w :
  let event := invokeEventaOf tag in
  let reason := content b in
  let s := w_fresh w in
  let input := S (w_fresh w) in
  let token := S (S (w_fresh w)) in
  let server := defineStreamInvokeHandler event fn w in
  let w' := emit rt (S depth) e server.2 in
  ev_id e = sendEventAbort event ->
  ev_body e = Some b ->
  acceptedInvokeId e = Some id ->
  listenersOf (sendEventAbort event) w = [] ->
  w_abortControllers w !! (s, id) = None ->
  w_streamStates w !! (s, id) = None ->
  w_waiters w !! input = None ->
  w_tasks w = [] ->
  server.1 = s
  ∧ listenersOf (sendEventAbort event) server.2 = [LServeAbort s event fn]
  ∧ w_emitted w' = w_emitted w ++ [e]
  ∧ w_abortReasons w' !! (s, id) = Some reason
  ∧ w_calls w'
    = w_calls w ++ [mkHandlerCall (StreamProducer fn) (JStream input) None
                                  (Some token)]
  ∧ w_abortControllers w' !! (s, id) = Some token
  ∧ w_tokens w' !! token = Some None
  ∧ w_tasks w'
    = [TAbort token reason;
       TServeNext s event id (producer rt fn (JStream input)).1
                  (producer rt fn (JStream input)).2 None]
  ∧ w_tokens (tick rt depth w') !! token = Some (Some reason)
  ∧ w_emitted (tick rt depth w') = w_emitted w'
  ∧ match createAbortError (jsString rt) (hasDOMException rt) reason with
    | Value abortError =>
        errorName abortError = Some "AbortError"
        ∧ w_streams w' !! input = Some (erroredEmpty abortError)
        ∧ streamRead (erroredEmpty abortError)
          = (Raise abortError, erroredEmpty abortError)
        ∧ w_streamStates w' !! (s, id) = None
    | Exception _ =>
        w_streams w' !! input = Some newStream
        ∧ w_streamStates w' !! (s, id) = Some input
    end.
Proof.
  intros event reason s input token server w' Hid Hb He Hnone Hac Hss Hw Ht.
  destruct (defineStreamInvokeHandler_registers tag fn w)
    as (R1 & _ & _ & _ & R2 & R3 & R4 & R5 & R6 & R7 & R8 & R9 & R10 & R11
        & R12 & R13).
  fold event s server in R1, R2, R3, R4, R5, R6, R7, R8, R9, R10, R11, R12,
    R13.
  specialize (R2 Hnone).
  split; [done|]. split; [done|].
  subst s input token.
  destruct (producer rt fn (JStream (S (w_fresh w)))) as [ys fin] eqn:Hp.
  pose proof (createAbortError_name (jsString rt) (hasDOMException rt)
                reason) as Hname.
  eassert (w' = _) as Hw'.
  { unfold w'.
    rewrite (emit_one rt depth e server.2 (LServeAbort (w_fresh w) event fn))
      by (by rewrite Hid).
    cbn [runListener]. unfold onServeAbort.
    replace (acceptedInvokeId e) with (Some id). rewrite Hb. fields.
    rewrite R10, Hac. fields. rewrite R9, Hss.
    unfold newReadableStream, serveHandleInvoke. fields.
    rewrite R7. fields. rewrite lookup_insert_eq.
    rewrite Hp. fields. reflexivity. }
  clearbody w'. subst w'. fold reason.
  destruct (createAbortError (jsString rt) (hasDOMException rt) reason)
    as [abortError|x].
  - unfold controllerError. fields. rewrite lookup_insert_eq. fields.
    rewrite wake_idle by (fields; by rewrite R5).
    unfold tick. fields. rewrite R4, Ht.
    cbn [app runTask]. fields.
    rewrite !lookup_insert_eq, !lookup_delete_eq, R3, R6.
    repeat split; try done; fields; rewrite ?lookup_insert_eq, ?R3;
      try done.
    by apply Hname.
  - unfold tick. fields. rewrite R4, Ht.
    cbn [app runTask]. fields.
    rewrite !lookup_insert_eq, R3, R6.
    repeat split; try done; fields; by rewrite ?lookup_insert_eq, ?R3.
Qed.

(** ** C3: a tripped signal tears the streaming call down *)

(** What the abort listener of a streaming server leaves alone: the bus
    registry, the log, the caller's signals, and any stream that is already
    allocated and is not an input controller of a server. *)
Definition foreignStream (h : nat) (w : World) : Prop :=
  h < w_fresh w ∧ forall key c, w_streamStates w !! key = Some c -> c ≠ h.

Lemma controllerError_streams_ne h c e w :
  c ≠ h -> w_streams (controllerError c e w) !! h = w_streams w !! h.
Proof.
  intros Hne. unfold controllerError, wake.
  destruct (w_streams w !! c); [|done]. fields.
  destruct (w_waiters w !! c); fields; by rewrite lookup_insert_ne.
Qed.

Lemma controllerError_frame c e w :
  w_listeners (controllerError c e w) = w_listeners w
  ∧ w_emitted (controllerError c e w) = w_emitted w
  ∧ w_signals (controllerError c e w) = w_signals w
  ∧ w_fresh (controllerError c e w) = w_fresh w
  ∧ w_streamStates (controllerError c e w) = w_streamStates w.
Proof.
  unfold controllerError, wake.
  destruct (w_streams w !! c); [|done]. fields.
  by destruct (w_waiters w !! c).
Qed.

Lemma serveHandleInvoke_frame rt s event fn id payload opts w :
  let w' := serveHandleInvoke rt s event fn id payload opts w in
  w_listeners w' = w_listeners w
  ∧ w_emitted w' = w_emitted w
  ∧ w_signals w' = w_signals w
  ∧ w_fresh w' = S (w_fresh w)
  ∧ w_streamStates w' = w_streamStates w
  ∧ w_streams w' = w_streams w.
Proof.
  unfold serveHandleInvoke. fields.
  destruct (producer rt fn payload) as [ys fin].
  by destruct (<[(s, id):=w_fresh w]> (w_abortControllers w) !! (s, id));
    destruct (w_abortReasons w !! (s, id)).
Qed.

Lemma onServeAbort_frame rt s event fn e h w :
  foreignStream h w ->
  let w' := onServeAbort rt s event fn e w in
  w_listeners w' = w_listeners w
  ∧ w_emitted w' = w_emitted w
  ∧ w_signals w' = w_signals w
  ∧ w_streams w' !! h = w_streams w !! h
  ∧ foreignStream h w'.
Proof.
  intros [Hlt Hfor]. unfold onServeAbort.
  destruct (acceptedInvokeId e) as [id|]; [|done].
  destruct (ev_body e) as [b|]; [|done].
  destruct (createAbortError (jsString rt) (hasDOMException rt) (content b))
    as [abortError|x]; cycle 1.
  { (* the listener ends where [createAbortError] throws *)
    destruct (w_abortControllers w !! (s, id)) as [token|]; fields.
    - by destruct (w_streamStates w !! (s, id)).
    - destruct (w_streamStates w !! (s, id)) as [c|] eqn:Hc; [done|].
      unfold newReadableStream. fields.
      match goal with
      |- context [serveHandleInvoke rt s event fn id ?pl ?o ?W] =>
        destruct (serveHandleInvoke_frame rt s event fn id pl o W)
          as (Hl1 & Hem1 & Hsg1 & Hf1 & Hst1 & Hs1);
        set (W1 := serveHandleInvoke rt s event fn id pl o W) in *
      end.
      unfold foreignStream. rewrite Hl1, Hem1, Hsg1, Hs1, Hf1, Hst1. fields.
      rewrite lookup_insert_ne by lia.
      repeat split; try done; [lia|].
      intros key c' Hkey.
      destruct (decide (key = (s, id))) as [->|Hne].
      + rewrite lookup_insert_eq in Hkey. injection Hkey as <-. lia.
      + rewrite lookup_insert_ne in Hkey by done. eauto. }
  destruct (w_abortControllers w !! (s, id)) as [token|].
  - fields. destruct (w_streamStates w !! (s, id)) as [c|] eqn:Hc; [|done].
    pose proof (Hfor _ _ Hc) as Hne.
    match goal with |- context [controllerError ?c ?x ?W] =>
      destruct (controllerError_frame c x W) as (Hl & Hem & Hsg & Hf & Hst);
      pose proof (controllerError_streams_ne h c x W Hne) as Hs;
      set (W1 := controllerError c x W) in *
    end.
    unfold foreignStream. fields. rewrite Hl, Hem, Hsg, Hs.
    repeat split; try done.
    + by rewrite Hf.
    + rewrite Hst. fields. intros key c' Hkey.
      apply lookup_delete_Some in Hkey as [_ Hkey]. eauto.
  - fields. destruct (w_streamStates w !! (s, id)) as [c|] eqn:Hc.
    + pose proof (Hfor _ _ Hc) as Hne.
      match goal with |- context [controllerError ?c ?x ?W] =>
        destruct (controllerError_frame c x W) as (Hl & Hem & Hsg & Hf & Hst);
        pose proof (controllerError_streams_ne h c x W Hne) as Hs;
        set (W1 := controllerError c x W) in *
      end.
      unfold foreignStream. fields. rewrite Hl, Hem, Hsg, Hs.
      repeat split; try done.
      * by rewrite Hf.
      * rewrite Hst. fields. intros key c' Hkey.
        apply lookup_delete_Some in Hkey as [_ Hkey]. eauto.
    + unfold newReadableStream. fields.
      match goal with
      |- context [serveHandleInvoke rt s event fn id ?pl ?o ?W] =>
        destruct (serveHandleInvoke_frame rt s event fn id pl o W)
          as (Hl1 & Hem1 & Hsg1 & Hf1 & Hst1 & Hs1);
        set (W1 := serveHandleInvoke rt s event fn id pl o W) in *
      end.
      assert (w_fresh w ≠ h) as Hne by lia.
      match goal with |- context [controllerError ?c ?x ?W] =>
        destruct (controllerError_frame c x W) as (Hl & Hem & Hsg & Hf & Hst);
        pose proof (controllerError_streams_ne h c x W Hne) as Hs;
        set (W2 := controllerError c x W) in *
      end.
      unfold foreignStream. fields.
      rewrite Hl, Hem, Hsg, Hs, Hl1, Hem1, Hsg1, Hs1. fields.
      rewrite lookup_insert_ne by done.
      repeat split; try done.
      * rewrite Hf, Hf1. fields. lia.
      * rewrite Hst, Hst1. fields. intros key c' Hkey.
        apply lookup_delete_Some in Hkey as [Hk Hkey].
        rewrite lookup_insert_ne in Hkey by done. eauto.
Qed.

Definition isAbortListener (l : Listener) : Prop :=
  match l with LServeAbort _ _ _ => True | _ => False end.

(** The send-abort of a call, dispatched to the abort listeners of
    streaming servers. *)
Lemma emit_abort_frame rt n e h w :
  Forall isAbortListener (listenersOf (ev_id e) w) ->
  foreignStream h w ->
  let w' := emit rt n e w in
  w_listeners w' = w_listeners w
  ∧ w_emitted w' = w_emitted w ++ [e]
  ∧ w_signals w' = w_signals w
  ∧ w_streams w' !! h = w_streams w !! h
  ∧ foreignStream h w'.
Proof.
  intros Hls Hfor. destruct n as [|n]; cbn [emit]; [done|].
  assert (let W := set_emitted (fun l => l ++ [e]) w in
          w_listeners W = w_listeners w
          ∧ w_emitted W = w_emitted w ++ [e]
          ∧ w_signals W = w_signals w
          ∧ w_streams W !! h = w_streams w !! h
          ∧ foreignStream h W) as HW by done.
  revert HW. generalize (set_emitted (fun l => l ++ [e]) w) as W.
  induction Hls as [|l ls Hl _ IH]; intros W HW; cbn [foldl]; [done|].
  apply IH. destruct l; try done. cbn [runListener].
  destruct HW as (H1 & H2 & H3 & H4 & H5).
  destruct (onServeAbort_frame rt s event fn e h W H5)
    as (G1 & G2 & G3 & G4 & G5).
  cbn zeta. rewrite G1, G2, G3, G4. done.
Qed.


(** *** Nothing that runs later registers a listener *)

(** [id] has no listener. *)
Definition unheard (id : string) (w : World) : Prop := listenersOf id w = [].

(** A step that leaves every descriptor without listener as it is. *)
Definition registersNothing (f : World -> World) : Prop :=
  forall id w, unheard id w -> unheard id (f w).

Lemma registersNothing_same f :
  (forall w, w_listeners (f w) = w_listeners w) -> registersNothing f.
Proof. intros H id w Hw. unfold unheard, listenersOf. by rewrite H. Qed.

Lemma registersNothing_compose f g :
  registersNothing f -> registersNothing g ->
  registersNothing (fun w => g (f w)).
Proof. intros Hf Hg id w Hw. by apply Hg, Hf. Qed.

Lemma unheard_off id id' w : unheard id w -> unheard id (off id' w).
Proof.
  unfold unheard, listenersOf, off. fields. intros H.
  destruct (decide (id' = id)) as [->|Hne].
  - by rewrite lookup_delete_eq.
  - by rewrite lookup_delete_ne.
Qed.

Lemma unheard_same id w w' :
  w_listeners w' = w_listeners w -> unheard id w -> unheard id w'.
Proof. unfold unheard, listenersOf. by intros ->. Qed.

Lemma wake_streams h w : w_streams (wake h w) = w_streams w.
Proof. unfold wake. by destruct (w_waiters w !! h). Qed.

Lemma wake_listeners h w : w_listeners (wake h w) = w_listeners w.
Proof. unfold wake. by destruct (w_waiters w !! h). Qed.

Lemma controllerEnqueue_listeners h v w w' :
  controllerEnqueue h v w = Some w' -> w_listeners w' = w_listeners w.
Proof.
  unfold controllerEnqueue. destruct (w_streams w !! h) as [s|]; [|done].
  cbn [mbind option_bind]. destruct (streamEnqueue v s); [|done].
  cbn [mbind option_bind]. intros <-%(inj Some). exact (wake_listeners h _).
Qed.

Lemma controllerClose_listeners h w w' :
  controllerClose h w = Some w' -> w_listeners w' = w_listeners w.
Proof.
  unfold controllerClose. destruct (w_streams w !! h) as [s|]; [|done].
  cbn [mbind option_bind]. destruct (streamClose s); [|done].
  cbn [mbind option_bind]. intros <-%(inj Some). exact (wake_listeners h _).
Qed.

Lemma controllerError_listeners h e w :
  w_listeners (controllerError h e w) = w_listeners w.
Proof. by destruct (controllerError_frame h e w). Qed.

Lemma default_enqueue_listeners h v w :
  w_listeners (default w (controllerEnqueue h v w)) = w_listeners w.
Proof.
  destruct (controllerEnqueue h v w) eqn:H; [|done].
  by apply controllerEnqueue_listeners in H.
Qed.

Lemma default_close_listeners h w :
  w_listeners (default w (controllerClose h w)) = w_listeners w.
Proof.
  destruct (controllerClose h w) eqn:H; [|done].
  by apply controllerClose_listeners in H.
Qed.

Lemma settle_listeners p r w : w_listeners (settle p r w) = w_listeners w.
Proof. unfold settle. by repeat case_match. Qed.

(** Induction on payload trees. *)
Lemma JsVal_tree_ind (P : JsVal -> Prop) :
  P JUndefined -> P JNull -> (forall b, P (JBool b)) ->
  (forall n, P (JNum n)) ->
  (forall s, P (JStr s)) -> (forall f, P (JFun f)) ->
  (forall name message, P (JErr name message)) -> (forall h, P (JStream h)) ->
  (forall items, Forall P items -> P (JArr items)) ->
  (forall proto fields, Forall (fun kv => P kv.2) fields ->
                        P (JObj proto fields)) ->
  forall v, P v.
Proof.
  intros H1 H2 H3 H4 H5 H6 H7 H8 Harr Hobj.
  refine (fix IH (v : JsVal) : P v :=
            match v with
            | JArr items =>
                Harr items
                  ((fix all (l : list JsVal) : Forall P l :=
                      match l with
                      | [] => Forall_nil_2 P
                      | x :: l' => Forall_cons_2 P x l' (IH x) (all l')
                      end) items)
            | JObj proto fields =>
                Hobj proto fields
                  ((fix all (l : list (string * JsVal))
                      : Forall (fun kv => P kv.2) l :=
                      match l with
                      | [] => Forall_nil_2 _
                      | kv :: l' => Forall_cons_2 _ kv l' (IH kv.2) (all l')
                      end) fields)
            | _ => _
            end); auto.
Qed.


(** The deserializer touches the world only to draw ids and to allocate
    client factories: whatever does not depend on the two counters is
    unchanged by a walk. *)
Section DeserializeFrame.
Context {A : Type} (observe : World -> A).
Hypothesis observe_nextId : forall w, observe (set_nextId S w) = observe w.
Hypothesis observe_fresh : forall w, observe (set_fresh S w) = observe w.

Definition walkedState {S : Type} (r : Walked S) : S :=
  match r with WOk _ st | WThrow _ st => st end.

Lemma defineInvokeEventa_observe rt tag w :
  observe (defineInvokeEventa rt tag w).2 = observe w.
Proof.
  unfold defineInvokeEventa, drawId.
  destruct tag as [t|]; [destruct (String.eqb t "")|]; cbn [snd]; auto.
Qed.

Lemma deserializeStub_observe rt o input tag st :
  observe (des_world (walkedState (deserializeStub rt o input tag st)))
  = observe (des_world st).
Proof.
  unfold deserializeStub.
  destruct (maxFunctions o <=? des_functionCount st); [done|].
  destruct (tagDisallowed o tag); [by destruct (onDisallowedTag o)|].
  pose proof (defineInvokeEventa_observe rt (Some tag) (des_world st)) as H.
  destruct (defineInvokeEventa rt (Some tag) (des_world st)) as [event w1].
  cbn [snd] in H. unfold allocate. cbn [walkedState des_world].
  by rewrite observe_fresh.
Qed.

Lemma walkItems_observe {St} (world : St -> World)
    (walk : JsVal -> St -> Walked St) items : forall out st,
  Forall (fun x => forall st, observe (world (walkedState (walk x st)))
                              = observe (world st)) items ->
  observe (world (walkedState (walkItems walk items out st)))
  = observe (world st).
Proof.
  induction items as [|x items IH]; intros out st Hall; [done|].
  apply Forall_cons in Hall as [Hx Hall]. cbn [walkItems].
  specialize (Hx st). destruct (walk x st) as [v st'|e st'];
    cbn [walkedState] in *; [|done].
  by rewrite IH.
Qed.

Lemma walkFields_observe {St} (world : St -> World)
    (walk : JsVal -> St -> Walked St) fields : forall out st,
  Forall (fun kv => forall st, observe (world (walkedState (walk kv.2 st)))
                               = observe (world st)) fields ->
  observe (world (walkedState (walkFields walk fields out st)))
  = observe (world st).
Proof.
  induction fields as [|[k x] fields IH]; intros out st Hall; [done|].
  apply Forall_cons in Hall as [Hx Hall]. cbn [walkFields].
  specialize (Hx st). cbn [snd] in Hx.
  destruct (walk x st) as [v st'|e st']; cbn [walkedState] in *; [|done].
  by rewrite IH.
Qed.

Lemma deserializeSeen_world input r :
  des_world (walkedState (deserializeSeen input r))
  = des_world (walkedState r).
Proof. by destruct r. Qed.

Lemma deserializeWalk_observe rt o v : forall depth st,
  observe (des_world (walkedState (deserializeWalk rt o v depth st)))
  = observe (des_world st).
Proof.
  induction v as [| | | | | | | |items IH|proto fields IH]
    using JsVal_tree_ind; intros depth st; cbn [deserializeWalk];
    try done; try (by destruct (maxDepth o <? depth)).
  - destruct (maxDepth o <? depth); [done|].
    destruct (seenGet rt (JArr items) (des_seen st)); [done|].
    rewrite deserializeSeen_world.
    apply walkItems_observe. eapply Forall_impl; [exact IH|]. auto.
  - destruct (maxDepth o <? depth); [done|].
    destruct (stubTag (JObj proto fields)); [apply deserializeStub_observe|].
    destruct (strict o && hasInvokeFunctionStubKey (JObj proto fields));
      [done|].
    destruct (seenGet rt (JObj proto fields) (des_seen st)); [done|].
    destruct (isPlainObject (JObj proto fields)); [|done].
    rewrite deserializeSeen_world.
    apply walkFields_observe. eapply Forall_impl; [exact IH|]. auto.
Qed.

Lemma callHandler_observe rt h : forall payload w,
  observe (callHandler rt h payload w).2 = observe w.
Proof.
  induction h as [f|k f|k o h IH]; intros payload w; cbn [callHandler];
    [done|done|].
  unfold deserializeInvokeFunctionPayload.
  pose proof (deserializeWalk_observe rt o payload 0
                (mkDeserializeState 0 [] w)) as Hwalk.
  destruct (allow o).
  - destruct (deserializeWalk rt o payload 0 (mkDeserializeState 0 [] w))
      as [v st|e st]; cbn [walkedState des_world] in Hwalk; [|done].
    specialize (IH v (des_world st)).
    destruct (callHandler rt h v (des_world st)) as [[] w1];
      cbn [snd] in *; congruence.
  - cbn [des_world]. specialize (IH payload w).
    destruct (callHandler rt h payload w) as [[] w1]; cbn [snd] in *; done.
Qed.
End DeserializeFrame.

Lemma unheard_offListener id id' l w :
  unheard id w -> unheard id (offListener id' l w).
Proof.
  unfold unheard. intros H. destruct (decide (id' = id)) as [->|Hne].
  - by rewrite listenersOf_offListener, H.
  - by rewrite listenersOf_offListener_ne.
Qed.

Lemma controllerError_quiet id h e w :
  unheard id w -> unheard id (controllerError h e w).
Proof. apply unheard_same, controllerError_listeners. Qed.

Lemma enqueue_quiet id h v w :
  unheard id w -> unheard id (default w (controllerEnqueue h v w)).
Proof. apply unheard_same, default_enqueue_listeners. Qed.

Lemma controllerClose_quiet id h w w' :
  controllerClose h w = Some w' -> unheard id w -> unheard id w'.
Proof.
  intros H. apply unheard_same. by apply controllerClose_listeners in H.
Qed.

Lemma settle_quiet id p r w : unheard id w -> unheard id (settle p r w).
Proof. apply unheard_same, settle_listeners. Qed.

Lemma callHandler_quiet rt h payload id w :
  unheard id w -> unheard id (callHandler rt h payload w).2.
Proof.
  apply unheard_same. by apply (callHandler_observe w_listeners).
Qed.

Lemma newReadableStream_quiet id w :
  unheard id w -> unheard id (newReadableStream w).2.
Proof. done. Qed.

Ltac quiet_step :=
  first
    [ assumption
    | apply unheard_off
    | apply unheard_offListener
    | apply controllerError_quiet
    | apply enqueue_quiet
    | apply settle_quiet
    | lazymatch goal with
      | H : controllerClose _ ?w = Some ?w' |- unheard _ ?w' =>
          apply (controllerClose_quiet _ _ _ _ H); clear H
      | H : callHandler ?rt ?h ?v ?w = (_, ?w') |- unheard ?id ?w' =>
          let G := fresh in
          assert (unheard id w) as G;
          [clear H
          |apply (callHandler_quiet rt h v id) in G; rewrite H in G; exact G]
      end
    | lazymatch goal with
      | |- unheard ?id (?g ?f ?w) => change (unheard id w)
      end
    | lazymatch goal with
      | |- unheard _ (match ?x with _ => _ end) => destruct x eqn:?
      end ].

Ltac quiet := repeat quiet_step.

Section Quiet.
Variable rt : Runtime.
Variable emit' : Envelope -> World -> World.
Hypothesis emit'_quiet : forall e, registersNothing (emit' e).

Lemma handleInvoke_quiet event h id payload opts :
  registersNothing (handleInvoke rt emit' event h id payload opts).
Proof.
  intros x w Hw. unfold handleInvoke.
  destruct (callHandler _ _ _ _) as [o w2] eqn:Hcall.
  assert (unheard x w2) by quiet.
  destruct o; [quiet|by apply emit'_quiet|quiet].
Qed.

Lemma cleanup_quiet k : registersNothing (cleanup k).
Proof.
  intros x w Hw. unfold cleanup, offReceivers, removeAbortListener. quiet.
Qed.

Lemma onAbort_quiet k : registersNothing (onAbort rt emit' k).
Proof.
  intros x w Hw. unfold onAbort.
  destruct (createAbortError _ _ _); [|by apply emit'_quiet].
  apply cleanup_quiet. quiet. by apply emit'_quiet.
Qed.

Lemma serveHandleInvoke_quiet s event fn id payload opts :
  registersNothing (serveHandleInvoke rt s event fn id payload opts).
Proof.
  intros x w. apply unheard_same.
  by destruct (serveHandleInvoke_frame rt s event fn id payload opts w).
Qed.

Lemma plainHandleInvoke_quiet event fn id payload opts :
  registersNothing (plainHandleInvoke rt event fn id payload opts).
Proof.
  intros x w Hw. unfold plainHandleInvoke.
  by destruct (producer rt fn payload).
Qed.

Lemma runListener_quiet l e : registersNothing (runListener rt emit' l e).
Proof.
  intros x w Hw.
  destruct l; cbn [runListener].
  - unfold onInvokeReceive, invokeCleanup. quiet.
  - unfold onInvokeReceiveError, invokeCleanup. quiet.
  - unfold onSend, newReadableStream, allocate. quiet;
      apply handleInvoke_quiet; quiet.
  - unfold onSendStreamEnd, newReadableStream, allocate.
    destruct (acceptedInvokeId _); [|done].
    destruct (w_streamStates w !! _).
    + quiet.
    + match goal with |- context [handleInvoke ?a ?b ?c ?d ?e ?f ?g ?W] =>
        assert (unheard x (handleInvoke a b c d e f g W)) as Hh
          by (apply handleInvoke_quiet; quiet);
        set (W1 := handleInvoke a b c d e f g W) in *
      end.
      quiet.
  - unfold onStreamReceive. quiet.
  - unfold onStreamReceiveError. quiet; apply cleanup_quiet; quiet.
  - unfold onStreamReceiveStreamEnd. quiet; apply cleanup_quiet; quiet.
  - unfold onServeSend, newReadableStream, allocate. quiet;
      apply serveHandleInvoke_quiet; quiet.
  - unfold onServeStreamEnd. quiet.
  - unfold onServeAbort, newReadableStream, allocate.
    destruct (acceptedInvokeId _); [|done].
    destruct (ev_body _); [|done].
    destruct (w_abortControllers w !! _); [quiet|].
    cbn [w_streamStates set_abortReasons]. fields.
    destruct (w_streamStates w !! _); [quiet|].
    quiet; apply serveHandleInvoke_quiet; quiet.
  - unfold onPlainReceive. quiet.
  - unfold onPlainReceiveError. quiet.
  - unfold onPlainReceiveStreamEnd.
    destruct (bodyFor _ _); [|done].
    destruct (controllerClose _ _) eqn:Hc; [|done]. cbn [default]. quiet.
  - unfold onPlainServeSend, newReadableStream, allocate. quiet;
      apply plainHandleInvoke_quiet; quiet.
  - unfold onServeStreamEnd. quiet.
Qed.
End Quiet.

Lemma emit_quiet rt n : forall e, registersNothing (emit rt n e).
Proof.
  induction n as [|n IH]; intros e x w Hw; cbn [emit]; [done|].
  assert (unheard x (set_emitted (fun l => l ++ [e]) w)) as HW by done.
  revert HW. generalize (set_emitted (fun l => l ++ [e]) w) as W.
  induction (listenersOf (ev_id e) w) as [|l ls IHls]; intros W HW;
    cbn [foldl]; [done|].
  apply IHls. by apply runListener_quiet.
Qed.

Section QuietTasks.
Variable rt : Runtime.
Variable depth : nat.

Lemma runPump_quiet kind event id req opts :
  registersNothing (runPump rt depth kind event id req opts).
Proof.
  intros x w Hw. unfold runPump, cancelRequest.
  destruct (w_streams w !! req) as [s|]; [|done].
  destruct (streamRead s) as [[v| |e|] s'].
  - destruct (match kind with PumpStream sg => signalAborted sg w | _ => false
              end); [done|].
    change (unheard x (emit rt depth
      (mkEnvelope (sendEvent event) (sendBody id v true) opts)
      (set_streams (fun m => <[req := s']> m) w))).
    by apply emit_quiet.
  - by apply emit_quiet.
  - destruct kind; try by apply emit_quiet.
    destruct (signalAborted signal w); [done|].
    destruct (isAbortError e); by apply emit_quiet.
  - done.
Qed.

Lemma runTask_quiet t : registersNothing (runTask rt depth t).
Proof.
  intros x w Hw. destruct t; cbn [runTask].
  - destruct o; by apply emit_quiet.
  - destruct rest as [|y rest].
    + change (unheard x (match fin with
        | GenReturn => emit rt depth
            (mkEnvelope (perCall (receiveEventStreamEnd event) id)
                        (receiveBody id JUndefined) opts) w
        | GenThrow e => emit rt depth
            (mkEnvelope (perCall (receiveEventError event) id)
                        (receiveBody id (errorContent e)) opts) w
        end)).
      destruct fin; by apply emit_quiet.
    + change (unheard x (emit rt depth
        (mkEnvelope (perCall (receiveEvent event) id) (receiveBody id y) opts)
        w)).
      by apply emit_quiet.
  - destruct rest as [|y rest].
    + destruct fin; by apply emit_quiet.
    + change (unheard x (emit rt depth
        (mkEnvelope (perCall (receiveEvent event) id) (receiveBody id y) opts)
        w)).
      by apply emit_quiet.
  - by destruct (w_tokens w !! token) as [[]|].
  - by apply runPump_quiet.
Qed.

Lemma tick_quiet : registersNothing (tick rt depth).
Proof.
  intros x w Hw. unfold tick. destruct (w_tasks w) as [|t ts]; [done|].
  by apply runTask_quiet.
Qed.

Lemma consumerRead_quiet h :
  registersNothing (fun w => (consumerRead h w).2).
Proof.
  intros x w Hw. unfold consumerRead.
  destruct (w_streams w !! h) as [s|]; [|done]. by destruct (streamRead s).
Qed.

Lemma foldl_quiet {A} (f : World -> A -> World) (l : list A) :
  (forall a, registersNothing (fun w => f w a)) ->
  registersNothing (fun w => foldl f w l).
Proof.
  intros Hf x. induction l as [|a l IH]; intros w Hw; cbn [foldl]; [done|].
  apply IH. by apply (Hf a).
Qed.

Lemma abortSignal_quiet sg reason :
  registersNothing (abortSignal rt depth sg reason).
Proof.
  intros x w Hw. unfold abortSignal.
  destruct (w_signals w !! sg) as [s|]; [|done].
  destruct (sg_aborted s); [done|].
  apply (foldl_quiet (fun w' k => onAbort rt (emit rt depth) k w')); [|done].
  intros k. apply onAbort_quiet. apply emit_quiet.
Qed.

Lemma cancel_quiet k reason : registersNothing (cancel rt depth k reason).
Proof.
  intros x w Hw. unfold cancel.
  destruct (w_streams w !! sc_stream k) as [s|]; [|done].
  destruct (isReadable s); [|done].
  apply cleanup_quiet. by apply emit_quiet.
Qed.
End QuietTasks.

(** Whatever happens on a running system once its calls and handlers are
    set up: an envelope is emitted on the context, the scheduler runs its
    next microtask, a consumer reads from a stream, a caller trips a signal,
    a consumer cancels a response stream. *)
Inductive Event :=
| EEmit (e : Envelope)
| ETick
| ERead (h : nat)
| EAbort (sg : nat) (reason : JsVal)
| ECancel (k : StreamCall) (reason : JsVal).

Definition play (rt : Runtime) (depth : nat) (w : World) (ev : Event)
    : World :=
  match ev with
  | EEmit e => emit rt depth e w
  | ETick => tick rt depth w
  | ERead h => (consumerRead h w).2
  | EAbort sg reason => abortSignal rt depth sg reason w
  | ECancel k reason => cancel rt depth k reason w
  end.

Lemma play_quiet rt depth later :
  registersNothing (fun w => foldl (play rt depth) w later).
Proof.
  apply foldl_quiet. intros [e| |h|sg reason|k reason]; cbn [play].
  - apply emit_quiet.
  - apply tick_quiet.
  - apply consumerRead_quiet.
  - apply abortSignal_quiet.
  - apply cancel_quiet.
Qed.

(** *** The abort callback of a streaming call *)

Definition abortEnvelope (k : StreamCall) (reason : JsVal) : Envelope :=
  mkEnvelope (sendEventAbort (sc_event k)) (abortBody (sc_id k) reason)
             (sc_opts k).

(** The three per-call descriptors of a streaming call. *)
Definition perCallIds (k : StreamCall) : list string :=
  [perCall (receiveEvent (sc_event k)) (sc_id k);
   perCall (receiveEventError (sc_event k)) (sc_id k);
   perCall (receiveEventStreamEnd (sc_event k)) (sc_id k)].

Lemma controllerError_streams_eq h e w :
  w_streams (controllerError h e w) !! h = streamError e <$> w_streams w !! h.
Proof.
  unfold controllerError, wake.
  destruct (w_streams w !! h) as [s|] eqn:Hs; [|by rewrite Hs]. fields.
  destruct (w_waiters w !! h); fields; by rewrite lookup_insert_eq.
Qed.

Lemma listenersOf_off_cases x id w :
  listenersOf x (off id w) = [] ∨ listenersOf x (off id w) = listenersOf x w.
Proof.
  destruct (decide (id = x)) as [->|Hne].
  - left. apply listenersOf_off.
  - right. by apply listenersOf_off_ne.
Qed.

Lemma cleanup_listeners k x w :
  listenersOf x (cleanup k w) = [] ∨
  listenersOf x (cleanup k w) = listenersOf x w.
Proof.
  assert (listenersOf x (cleanup k w)
          = listenersOf x (offReceivers (sc_event k) (sc_id k) w)) as ->.
  { unfold cleanup. by destruct (sc_signal k). }
  unfold offReceivers.
  repeat match goal with
  | |- context [listenersOf x (off ?id ?W)] =>
      destruct (listenersOf_off_cases x id W) as [->| ->]; [by left|]
  end.
  by right.
Qed.

Lemma cleanup_unheard k w :
  Forall (fun x => unheard x (cleanup k w)) (perCallIds k).
Proof.
  assert (forall x, unheard x (offReceivers (sc_event k) (sc_id k) w) ->
                    unheard x (cleanup k w)) as Hc.
  { intros x. unfold cleanup. by destruct (sc_signal k). }
  unfold perCallIds, offReceivers. repeat constructor; apply Hc.
  - do 2 apply unheard_off. apply listenersOf_off.
  - apply unheard_off. apply listenersOf_off.
  - apply listenersOf_off.
Qed.

Lemma cleanup_frame k w :
  w_emitted (cleanup k w) = w_emitted w
  ∧ w_streams (cleanup k w) = w_streams w
  ∧ w_fresh (cleanup k w) = w_fresh w
  ∧ w_streamStates (cleanup k w) = w_streamStates w
  ∧ (forall sg, sg_reason <$> w_signals (cleanup k w) !! sg
                = sg_reason <$> w_signals w !! sg).
Proof.
  unfold cleanup, removeAbortListener, offReceivers, off.
  destruct (sc_signal k) as [sg|]; [|done]. repeat split.
  intros sg'. fields. destruct (decide (sg = sg')) as [->|Hne].
  - rewrite lookup_alter_eq. by destruct (w_signals w !! sg').
  - by rewrite lookup_alter_ne.
Qed.

Lemma signalReason_same k w w' :
  (forall sg, sg_reason <$> w_signals w' !! sg
              = sg_reason <$> w_signals w !! sg) ->
  signalReason k w' = signalReason k w.
Proof.
  intros H. unfold signalReason. destruct (sc_signal k); [|done].
  by rewrite H.
Qed.

Lemma onAbort_frame rt n k h w :
  Forall isAbortListener (listenersOf (sendEventAbort (sc_event k)) w) ->
  foreignStream h w ->
  let w' := onAbort rt (emit rt n) k w in
  w_emitted w' = w_emitted w ++ [abortEnvelope k (signalReason k w)]
  ∧ (forall sg, sg_reason <$> w_signals w' !! sg
                = sg_reason <$> w_signals w !! sg)
  ∧ (forall x, listenersOf x w' = [] ∨ listenersOf x w' = listenersOf x w)
  ∧ foreignStream h w'
  ∧ match createAbortError (jsString rt) (hasDOMException rt)
            (signalReason k w) with
    | Value err =>
        Forall (fun x => unheard x w') (perCallIds k)
        ∧ w_streams w' !! h
          = if decide (sc_stream k = h)
            then streamError err <$> w_streams w !! h
            else w_streams w !! h
    | Exception _ =>
        w_listeners w' = w_listeners w
        ∧ w_signals w' = w_signals w
        ∧ w_streams w' !! h = w_streams w !! h
    end.
Proof.
  intros Hls Hfor. unfold onAbort.
  destruct (emit_abort_frame rt n (abortEnvelope k (signalReason k w)) h w
              Hls Hfor) as (E1 & E2 & E3 & E4 & E5).
  fold (abortEnvelope k (signalReason k w)).
  set (w1 := emit rt n (abortEnvelope k (signalReason k w)) w) in *.
  assert (signalReason k w1 = signalReason k w) as ->.
  { apply signalReason_same. intros sg. by rewrite E3. }
  destruct (createAbortError _ _ _) as [err|x].
  - destruct (controllerError_frame (sc_stream k) err w1)
      as (F1 & F2 & F3 & F4 & F5).
    pose proof (controllerError_streams_eq (sc_stream k) err w1) as F6.
    pose proof (fun Hne =>
                  controllerError_streams_ne h (sc_stream k) err w1 Hne)
      as F7.
    set (w2 := controllerError (sc_stream k) err w1) in *.
    destruct (cleanup_frame k w2) as (G1 & G2 & G3 & G4 & G5).
    cbn zeta. repeat split.
    + by rewrite G1, F2, E2.
    + intros sg. by rewrite G5, F3, E3.
    + intros x. destruct (cleanup_listeners k x w2) as [-> | ->]; [by left|].
      right. unfold listenersOf. by rewrite F1, E1.
    + rewrite G3, F4. apply E5.
    + rewrite G4, F5. apply E5.
    + apply cleanup_unheard.
    + rewrite G2. destruct (decide (sc_stream k = h)) as [<-|Hne].
      * by rewrite F6, E4.
      * by rewrite F7, E4.
  - cbn zeta. repeat split; try done.
    + intros sg. by rewrite E3.
    + intros y. right. unfold listenersOf. by rewrite E1.
    + apply E5.
    + apply E5.
Qed.

(** The abort callbacks of the other calls that listen to the same signal
    leave the response stream [h] alone: either none of them owns [h], or
    [h] has already left the readable state. *)
Lemma onAbort_others rt n h (absorbed : string -> Prop) ks : forall w,
  (forall x, absorbed x -> Forall isAbortListener (listenersOf x w)) ->
  Forall (fun k' => absorbed (sendEventAbort (sc_event k'))) ks ->
  foreignStream h w ->
  Forall (fun k' => sc_stream k' ≠ h) ks
  ∨ (exists s, w_streams w !! h = Some s ∧ isReadable s = false) ->
  let w' := foldl (fun w' k' => onAbort rt (emit rt n) k' w') w ks in
  (exists out, w_emitted w' = w_emitted w ++ out)
  ∧ (forall sg, sg_reason <$> w_signals w' !! sg
                = sg_reason <$> w_signals w !! sg)
  ∧ (forall x, listenersOf x w' = [] ∨ listenersOf x w' = listenersOf x w)
  ∧ foreignStream h w'
  ∧ w_streams w' !! h = w_streams w !! h.
Proof.
  induction ks as [|k' ks IH]; intros w Habs Hks Hfor Hst; cbn [foldl].
  { split; [exists []; by rewrite app_nil_r|]. repeat split; auto; apply Hfor. }
  apply Forall_cons in Hks as [Hk' Hks].
  destruct (onAbort_frame rt n k' h w (Habs _ Hk') Hfor)
    as (E1 & E2 & E3 & E5 & E6).
  set (w1 := onAbort rt (emit rt n) k' w) in *.
  assert (w_streams w1 !! h = w_streams w !! h) as Hh.
  { destruct (createAbortError _ _ _) as [err|x]; [|apply E6].
    destruct E6 as [_ E6]. rewrite E6.
    destruct (decide (sc_stream k' = h)) as [Heq|]; [|done].
    destruct Hst as [Hne|(s & Hs & Hr)].
    - by apply Forall_cons in Hne as [? _].
    - rewrite Hs. cbn. unfold streamError. by rewrite Hr. }
  destruct (IH w1) as (F1 & F2 & F3 & F4 & F5).
  - intros x Hx. destruct (E3 x) as [-> | ->]; [constructor|by apply Habs].
  - done.
  - done.
  - destruct Hst as [Hne|Hs].
    + left. by apply Forall_cons in Hne as [_ ?].
    + right. by rewrite Hh.
  - cbn zeta. split; [|repeat split].
    + destruct F1 as [out F1].
      exists (abortEnvelope k' (signalReason k' w) :: out).
      rewrite F1, E1. by rewrite <- app_assoc.
    + intros sg. by rewrite F2, E2.
    + intros x. destruct (F3 x) as [-> | ->]; [by left|apply E3].
    + apply F4.
    + apply F4.
    + by rewrite F5.
Qed.

Lemma shrunk_Forall (P : Listener -> Prop) x w w' :
  listenersOf x w' = [] ∨ listenersOf x w' = listenersOf x w ->
  Forall P (listenersOf x w) -> Forall P (listenersOf x w').
Proof. by intros [-> | ->]. Qed.

Lemma shrunk_unheard x w w' :
  listenersOf x w' = [] ∨ listenersOf x w' = listenersOf x w ->
  unheard x w -> unheard x w'.
Proof. unfold unheard. by intros [-> | ->]. Qed.

(** A streaming call [k] listens to signal [sg], possibly among other
    calls, and its response stream is still readable.  When the signal
    trips with a reason [createAbortError] makes an error of, the client
    emits send-abort for [k] carrying the reason, the response stream ends
    raising that error, and the three per-call descriptors of [k] have no
    listener, whatever happens later. *)
Lemma abortSignal_tears_down rt d sg reason err r0 ls k s w :
  createAbortError (jsString rt) (hasDOMException rt) reason = Value err ->
  w_signals w !! sg = Some (mkSignal false r0 ls) ->
  k ∈ ls ->
  sc_signal k = Some sg ->
  (forall k', k' ∈ ls -> sc_stream k' = sc_stream k -> k' = k) ->
  w_streams w !! sc_stream k = Some s ->
  isReadable s = true ->
  foreignStream (sc_stream k) w ->
  Forall (fun k' => Forall isAbortListener
                      (listenersOf (sendEventAbort (sc_event k')) w)) ls ->
  let w' := abortSignal rt d sg reason w in
  (exists before after,
     w_emitted w' = w_emitted w ++ before ++ abortEnvelope k reason :: after)
  ∧ (exists s', w_streams w' !! sc_stream k = Some s'
       ∧ streamEnd s' = EndsRaising err
       ∧ streamRead s' = (Raise err, s'))
  ∧ forall later,
      let w'' := foldl (play rt d) w' later in
      Forall (fun x => unheard x w'') (perCallIds k)
      ∧ forall n e, ev_id e ∈ perCallIds k ->
          emit rt n e w'' = set_emitted (fun l => l ++ [e]) w''.
Proof.
  intros Hval Hsg Hk Hsignal Hown Hs Hread Hfor Habs w'.
  set (h := sc_stream k) in *.
  set (absorbed := fun x => Forall isAbortListener (listenersOf x w)).
  apply list_elem_of_split_l in Hk as (before & after & -> & Hnotin).
  apply Forall_app in Habs as [Hbefore Hafter].
  apply Forall_cons in Hafter as [Hmine Hafter].
  set (w0 := set_signals (fun m => <[sg := mkSignal true reason []]> m) w).
  assert (w' = foldl (fun w' k' => onAbort rt (emit rt d) k' w')
                 (onAbort rt (emit rt d) k
                    (foldl (fun w' k' => onAbort rt (emit rt d) k' w') w0
                       before)) after) as Hw'.
  { unfold w', abortSignal. rewrite Hsg. cbn [sg_aborted sg_listeners].
    by rewrite foldl_app. }
  clearbody w'. subst w'.
  (* the calls registered before [k] *)
  destruct (onAbort_others rt d h absorbed before w0)
    as ([out1 A1] & A2 & A3 & A4 & A5); [done|done|done| |].
  { left. apply Forall_forall. intros k' Hk' Heq.
    apply Hnotin. rewrite <- (Hown k'); [done| |done].
    apply elem_of_app. by left. }
  set (w1 := foldl (fun w' k' => onAbort rt (emit rt d) k' w') w0 before) in *.
  (* the call itself *)
  assert (signalReason k w1 = reason) as Hreason.
  { unfold signalReason. rewrite Hsignal, A2. subst w0. fields.
    by rewrite lookup_insert_eq. }
  destruct (onAbort_frame rt d k h w1) as (B1 & B2 & B3 & B5 & B6).
  { by apply (shrunk_Forall _ _ w0), Hmine. }
  { done. }
  rewrite Hreason in B1, B6. rewrite Hval in B6. destruct B6 as [B4 B6].
  set (w2 := onAbort rt (emit rt d) k w1) in *.
  rewrite decide_True in B6 by done.
  assert (w_streams w2 !! h = Some (streamError err s)) as Hh.
  { rewrite B6, A5. subst w0. fields. by rewrite Hs. }
  assert (isReadable (streamError err s) = false) as Hdead.
  { unfold streamError. by rewrite Hread. }
  (* the calls registered after [k] *)
  destruct (onAbort_others rt d h absorbed after w2)
    as ([out3 C1] & C2 & C3 & C4 & C5); [|done|done|by eauto|].
  { intros x Hx. apply (shrunk_Forall _ _ w1), (shrunk_Forall _ _ w0);
      auto. }
  set (w' := foldl (fun w' k' => onAbort rt (emit rt d) k' w') w2 after)
    in *.
  assert (Forall (fun x => unheard x w') (perCallIds k)) as Hquiet.
  { eapply Forall_impl; [exact B4|]. intros x. by apply shrunk_unheard. }
  split; [|split].
  - exists out1, out3. rewrite C1, B1, A1. subst w0. fields.
    by rewrite <- !app_assoc.
  - exists (streamError err s). rewrite C5. split; [done|].
    unfold streamError. rewrite Hread. done.
  - intros later w''.
    assert (Forall (fun x => unheard x w'') (perCallIds k)) as Hlater.
    { eapply Forall_impl; [exact Hquiet|]. intros x.
      apply (play_quiet rt d later). }
    split; [done|]. intros n e He. apply emit_unheard.
    rewrite Forall_forall in Hlater. by apply Hlater.
Qed.

(** The callbacks of calls that all listen to signal [sg], run after the
    signal tripped with a reason [createAbortError] throws on: each emits
    its send-abort and ends at the throw, so no stream is errored and no
    listener removed. *)
Lemma onAbort_thrown rt n sg reason x h ks : forall w,
  createAbortError (jsString rt) (hasDOMException rt) reason = Exception x ->
  sg_reason <$> w_signals w !! sg = Some reason ->
  Forall (fun k' => sc_signal k' = Some sg
                    ∧ Forall isAbortListener
                        (listenersOf (sendEventAbort (sc_event k')) w)) ks ->
  foreignStream h w ->
  let w' := foldl (fun w' k' => onAbort rt (emit rt n) k' w') w ks in
  w_emitted w' = w_emitted w ++ ((fun k' => abortEnvelope k' reason) <$> ks)
  ∧ w_listeners w' = w_listeners w
  ∧ w_signals w' = w_signals w
  ∧ w_streams w' !! h = w_streams w !! h.
Proof.
  intros w Hthrow. revert w.
  induction ks as [|k' ks IH]; intros w Hreason Hks Hfor; cbn [foldl].
  { by rewrite app_nil_r. }
  apply Forall_cons in Hks as [[Hsg Hk'] Hks].
  assert (signalReason k' w = reason) as Hr.
  { unfold signalReason. rewrite Hsg.
    destruct (w_signals w !! sg); by simplify_eq/=. }
  destruct (onAbort_frame rt n k' h w Hk' Hfor) as (E1 & _ & _ & E5 & E6).
  rewrite Hr in E1, E6. rewrite Hthrow in E6. destruct E6 as (E2 & E3 & E4).
  set (w1 := onAbort rt (emit rt n) k' w) in *.
  destruct (IH w1) as (F1 & F2 & F3 & F4).
  - by rewrite E3.
  - eapply Forall_impl; [exact Hks|]. intros k'' [? Hl]. split; [done|].
    unfold listenersOf. by rewrite E2.
  - done.
  - cbn zeta. rewrite F1, F2, F3, F4, E1, E2, E3, E4.
    rewrite fmap_cons, <- app_assoc. done.
Qed.

(** What a streaming call with an untripped signal sets up: the three
    listeners, the subscription to the signal, and the request, which the
    streaming server answers by starting its producer. *)
Lemma streamInvoke_subscribes rt d tag s fn req sg r0 ls opts w :
  let event := invokeEventaOf tag in
  let id := nanoid rt (w_nextId w) in
  let h := w_fresh w in
  let k := mkStreamCall event id h (Some sg) opts in
  let r := streamInvoke rt (S d) event req (Some sg) opts w in
  id ≠ "" ->
  listenersOf (sendEvent event) w = [LServeSend s event fn] ->
  Forall (fun x => unheard x w) (perCallIds k) ->
  w_signals w !! sg = Some (mkSignal false r0 ls) ->
  k ∉ ls ->
  r.1 = k
  ∧ streamInvokeThrows rt (S d) event (Some sg) opts w = None
  ∧ listenersOf (perCall (receiveEvent event) id) r.2 = [LStreamReceive k]
  ∧ listenersOf (perCall (receiveEventError event) id) r.2
    = [LStreamReceiveError k]
  ∧ listenersOf (perCall (receiveEventStreamEnd event) id) r.2
    = [LStreamReceiveStreamEnd k]
  ∧ (forall x, x ∉ perCallIds k -> listenersOf x r.2 = listenersOf x w)
  ∧ w_signals r.2 = <[sg := mkSignal false r0 (ls ++ [k])]> (w_signals w)
  ∧ w_streams r.2 = <[h := newStream]> (w_streams w)
  ∧ w_streamStates r.2 = w_streamStates w
  ∧ h < w_fresh r.2
  ∧ (exists out, w_emitted r.2 = w_emitted w ++ out).
Proof.
  intros event id h k r Hid Hsend Hquiet Hsg Hk.
  pose proof (receive_ne_error tag id) as Hre.
  pose proof (receive_ne_streamEnd tag id) as Hrs.
  pose proof (error_ne_streamEnd tag id) as Hes.
  pose proof (send_ne_receive tag id) as Hsr.
  pose proof (send_ne_error tag id) as Hse.
  pose proof (send_ne_receiveStreamEnd tag id) as Hss.
  fold event in Hre, Hrs, Hes, Hsr, Hse, Hss.
  apply Forall_cons in Hquiet as [Hr Hquiet].
  apply Forall_cons in Hquiet as [He Hquiet].
  apply Forall_cons in Hquiet as [Hs _].
  cbn [sc_event sc_id k] in Hr, He, Hs. unfold unheard in Hr, He, Hs.
  set (w5 := set_listeners
               (fun m => <[perCall (receiveEventStreamEnd event) id
                             := [LStreamReceiveStreamEnd k]]>
                         (<[perCall (receiveEventError event) id
                              := [LStreamReceiveError k]]>
                          (<[perCall (receiveEvent event) id
                               := [LStreamReceive k]]> m)))
               (set_streams (fun m => <[h := newStream]> m)
                  (set_fresh S (set_nextId S w)))).
  set (w6 := addAbortListener sg k w5).
  assert (start rt (S d) k
            (set_streams (fun m => <[h := newStream]> m)
               (set_fresh S (set_nextId S w)))
          = (None, w6)) as Hstart.
  { unfold start. cbn [sc_event sc_id sc_signal k].
    rewrite (on_first (perCall (receiveEvent event) id)) by done.
    rewrite (on_first (perCall (receiveEventError event) id))
      by (unfold listenersOf; fields; by rewrite lookup_insert_ne).
    rewrite (on_first (perCall (receiveEventStreamEnd event) id))
      by (unfold listenersOf; fields; by rewrite !lookup_insert_ne).
    unfold signalAborted. fields. rewrite Hsg.
    cbn [fmap option_fmap option_map default sg_aborted]. done. }
  assert (w_signals w6
          = <[sg := mkSignal false r0 (ls ++ [k])]> (w_signals w)) as Hsig6.
  { unfold w6, addAbortListener, w5. fields.
    apply map_eq. intros sg'. destruct (decide (sg = sg')) as [<-|Hne].
    - rewrite lookup_alter_eq, lookup_insert_eq, Hsg.
      cbn [fmap option_fmap option_map sg_aborted sg_reason sg_listeners].
      by rewrite decide_False.
    - by rewrite lookup_alter_ne, lookup_insert_ne. }
  assert (forall x, x ∉ perCallIds k -> listenersOf x w6 = listenersOf x w)
    as Hothers.
  { intros x Hx. unfold perCallIds in Hx. cbn [sc_event sc_id k] in Hx.
    apply not_elem_of_cons in Hx as [H1 Hx].
    apply not_elem_of_cons in Hx as [H2 Hx].
    apply not_elem_of_cons in Hx as [H3 _].
    unfold listenersOf, w6, addAbortListener, w5. fields.
    by rewrite !lookup_insert_ne. }
  assert (streamInvokeThrows rt (S d) event (Some sg) opts w = None) as Hnot.
  { unfold streamInvokeThrows, drawId, newReadableStream. fields.
    fold id h k. by rewrite Hstart. }
  assert (r = match req with
              | JStream q =>
                  (k, enqueueTask (TPump (PumpStream (Some sg)) event id q
                                         opts) w6)
              | _ => (k, emit rt (S d)
                           (mkEnvelope (sendEvent event)
                                       (sendBody id req false) opts) w6)
              end) as Hcall.
  { unfold r, streamInvoke, drawId, newReadableStream. fields.
    fold id h k. by rewrite Hstart. }
  assert (forall W, r = (k, W) ->
            w_listeners W = w_listeners w6 ->
            w_signals W = w_signals w6 ->
            w_streams W = w_streams w6 ->
            w_streamStates W = w_streamStates w6 ->
            w_fresh w6 ≤ w_fresh W ->
            (exists out, w_emitted W = w_emitted w6 ++ out) ->
            r.1 = k
            ∧ streamInvokeThrows rt (S d) event (Some sg) opts w = None
            ∧ listenersOf (perCall (receiveEvent event) id) r.2
              = [LStreamReceive k]
            ∧ listenersOf (perCall (receiveEventError event) id) r.2
              = [LStreamReceiveError k]
            ∧ listenersOf (perCall (receiveEventStreamEnd event) id) r.2
              = [LStreamReceiveStreamEnd k]
            ∧ (forall x, x ∉ perCallIds k ->
                         listenersOf x r.2 = listenersOf x w)
            ∧ w_signals r.2
              = <[sg := mkSignal false r0 (ls ++ [k])]> (w_signals w)
            ∧ w_streams r.2 = <[h := newStream]> (w_streams w)
            ∧ w_streamStates r.2 = w_streamStates w
            ∧ h < w_fresh r.2
            ∧ (exists out, w_emitted r.2 = w_emitted w ++ out)) as Hall.
  { intros W -> Hl Hsi Hst Hss' Hf Hem. cbn [fst snd].
    unfold listenersOf. rewrite Hl, Hsi, Hst, Hss', Hsig6.
    split; [done|]. split; [done|].
    split.
    { unfold w6, addAbortListener, w5. fields.
      by rewrite lookup_insert_ne, lookup_insert_ne, lookup_insert_eq. }
    split.
    { unfold w6, addAbortListener, w5. fields.
      by rewrite lookup_insert_ne, lookup_insert_eq. }
    split.
    { unfold w6, addAbortListener, w5. fields.
      by rewrite lookup_insert_eq. }
    split; [exact Hothers|].
    split; [done|]. split; [done|]. split; [done|].
    split; [unfold w6, addAbortListener, w5 in Hf; fields; lia|].
    done. }
  destruct (isStream req) eqn:Hreq.
  - destruct req; try done. apply (Hall _ Hcall); try done.
    exists []. by rewrite app_nil_r.
  - rewrite plain_request in Hcall by done.
    rewrite (emit_one rt d _ _ (LServeSend s event fn)) in Hcall
      by (cbn [ev_id]; rewrite Hothers; [done|];
          unfold perCallIds; cbn [sc_event sc_id k];
          rewrite !not_elem_of_cons; split_and!; try done;
          apply not_elem_of_nil).
    cbn [runListener] in Hcall. unfold onServeSend in Hcall.
    rewrite accepted_send in Hcall by done.
    cbn [ev_body sendBody isReqStream content ev_opts] in Hcall.
    match type of Hcall with
    | _ = (_, serveHandleInvoke rt s event fn id ?pl ?o ?W) =>
      destruct (serveHandleInvoke_frame rt s event fn id pl o W)
        as (Hl1 & Hem1 & Hsg1 & Hf1 & Hst1 & Hs1)
    end.
    apply (Hall _ Hcall); try done.
    + rewrite Hf1. fields. lia.
    + rewrite Hem1. by eexists.
Qed.

(** C3.  A streaming call is made with signal [sg], which has not tripped
    and may serve other calls [ls] too, on a context whose family is served
    by one streaming server; then the signal trips with [reason].  The call
    has registered its three listeners and subscribed to the signal, and on
    the trip the client emits send-abort for it carrying [reason].  When
    [createAbortError] returns, the response stream ends raising the error
    it made, which is named AbortError, and the three per-call descriptors
    have no listener: whatever happens later, an envelope on one of them is
    logged and runs no callback.  When [createAbortError] throws, which it
    does for a truthy reason that is no Error and has no string conversion,
    the callback ends at the throw: the response stream stays readable, the
    three listeners stay registered, and a receive envelope that arrives
    later is still put into the stream. *)
Theorem tripped_signal_tears_stream_call_down
    rt d tag s fn req sg reason r0 ls opts w :
  let event := invokeEventaOf tag in
  let id := nanoid rt (w_nextId w) in
  let h := w_fresh w in
  let k := mkStreamCall event id h (Some sg) opts in
  let r := streamInvoke rt (S d) event req (Some sg) opts w in
  let w' := abortSignal rt (S d) sg reason r.2 in
  id ≠ "" ->
  listenersOf (sendEvent event) w = [LServeSend s event fn] ->
  Forall isAbortListener (listenersOf (sendEventAbort event) w) ->
  Forall (fun x => unheard x w) (perCallIds k) ->
  (forall key c, w_streamStates w !! key = Some c -> c < w_fresh w) ->
  w_signals w !! sg = Some (mkSignal false r0 ls) ->
  Forall (fun k' => sc_signal k' = Some sg
                    ∧ sc_stream k' < w_fresh w
                    ∧ (sendEventAbort (sc_event k') ∉ perCallIds k)
                    ∧ Forall isAbortListener
                        (listenersOf (sendEventAbort (sc_event k')) w)) ls ->
  r.1 = k
  ∧ streamInvokeThrows rt (S d) event (Some sg) opts w = None
  ∧ w_signals r.2 !! sg = Some (mkSignal false r0 (ls ++ [k]))
  ∧ (exists before after,
       w_emitted w'
       = w_emitted r.2 ++ before ++ abortEnvelope k reason :: after)
  ∧ match createAbortError (jsString rt) (hasDOMException rt) reason with
    | Value err =>
        errorName err = Some "AbortError"
        ∧ (exists s', w_streams w' !! h = Some s'
             ∧ streamEnd s' = EndsRaising err
             ∧ streamRead s' = (Raise err, s'))
        ∧ forall later,
            let w'' := foldl (play rt (S d)) w' later in
            Forall (fun x => unheard x w'') (perCallIds k)
            ∧ forall n e, ev_id e ∈ perCallIds k ->
                emit rt n e w'' = set_emitted (fun l => l ++ [e]) w''
    | Exception _ =>
        w_streams w' !! h = Some newStream
        ∧ listenersOf (perCall (receiveEvent event) id) w'
          = [LStreamReceive k]
        ∧ listenersOf (perCall (receiveEventError event) id) w'
          = [LStreamReceiveError k]
        ∧ listenersOf (perCall (receiveEventStreamEnd event) id) w'
          = [LStreamReceiveStreamEnd k]
        ∧ forall n x,
            let later := emit rt (S n) (receiveEnvelope event id opts x) w' in
            w_streams later !! h = Some (mkStream [x] false Readable [])
    end.
Proof.
  intros event id h k r w' Hid Hsend Habort Hquiet Hstates Hsg Hls.
  pose proof (abort_ne_receive tag id) as Har.
  pose proof (abort_ne_error tag id) as Hae.
  pose proof (abort_ne_receiveStreamEnd tag id) as Has.
  fold event in Har, Hae, Has.
  assert (k ∉ ls) as Hk.
  { intros Hin. rewrite Forall_forall in Hls.
    destruct (Hls k Hin) as (_ & Hlt & _). cbn [sc_stream k] in Hlt.
    unfold h in Hlt. lia. }
  destruct (streamInvoke_subscribes rt d tag s fn req sg r0 ls opts w
              Hid Hsend Hquiet Hsg Hk)
    as (S1 & S2 & S3 & S4 & S5 & S6 & S7 & S8 & S9 & S10 & S11).
  fold event id h k r in S1, S2, S3, S4, S5, S6, S7, S8, S9, S10, S11.
  set (W := r.2) in *.
  assert (w_signals W !! sg = Some (mkSignal false r0 (ls ++ [k]))) as Hsg'.
  { by rewrite S7, lookup_insert_eq. }
  assert (w_streams W !! h = Some newStream) as Hh.
  { by rewrite S8, lookup_insert_eq. }
  assert (foreignStream h W) as Hfor.
  { split; [done|]. rewrite S9. intros key c Hc.
    apply Hstates in Hc. unfold h. lia. }
  assert (sendEventAbort event ∉ perCallIds k) as Hmine.
  { unfold perCallIds. cbn [sc_event sc_id k].
    rewrite !not_elem_of_cons. split_and!; try done. apply not_elem_of_nil. }
  assert (Forall (fun k' => sc_signal k' = Some sg
                            ∧ Forall isAbortListener
                                (listenersOf (sendEventAbort (sc_event k'))
                                             W)) (ls ++ [k])) as Hall.
  { apply Forall_app. split.
    - eapply Forall_impl; [exact Hls|]. intros k' (H1 & _ & H3 & H4).
      split; [done|]. by rewrite S6.
    - constructor; [|constructor]. split; [done|].
      cbn [sc_event k]. by rewrite S6. }
  split; [done|]. split; [done|]. split; [done|].
  destruct (createAbortError (jsString rt) (hasDOMException rt) reason)
    as [err|x] eqn:Hcreate.
  - destruct (abortSignal_tears_down rt (S d) sg reason err r0 (ls ++ [k]) k
                newStream W) as (T1 & T2 & T3); try done.
    + apply elem_of_app. right. by apply list_elem_of_singleton.
    + intros k' [Hin| ->%list_elem_of_singleton]%elem_of_app Heq; [|done].
      rewrite Forall_forall in Hls. destruct (Hls k' Hin) as (_ & Hlt & _).
      cbn [sc_stream k] in Heq. unfold h in Heq. lia.
    + eapply Forall_impl; [exact Hall|]. by intros k' [_ ?].
    + split; [done|]. split; [|split]; [|done|done].
      by apply (createAbortError_name _ _ _ _ Hcreate).
  - assert (w' = foldl (fun w' k' => onAbort rt (emit rt (S d)) k' w')
                   (set_signals
                      (fun m => <[sg := mkSignal true reason []]> m) W)
                   (ls ++ [k])) as Hw'.
    { unfold w', abortSignal. fold W. by rewrite Hsg'. }
    set (W0 := set_signals (fun m => <[sg := mkSignal true reason []]> m) W)
      in *.
    destruct (onAbort_thrown rt (S d) sg reason x h (ls ++ [k]) W0)
      as (T1 & T2 & T3 & T4); try done.
    { unfold W0. fields. by rewrite lookup_insert_eq. }
    rewrite <- Hw' in T1, T2, T3, T4.
    assert (forall y, listenersOf y w' = listenersOf y W) as Hsame.
    { intros y. unfold listenersOf. by rewrite T2. }
    split.
    { exists ((fun k' => abortEnvelope k' reason) <$> ls), [].
      rewrite T1, fmap_app. done. }
    rewrite !Hsame, T4.
    split; [done|]. split; [done|]. split; [done|]. split; [done|].
    intros n y. cbn zeta.
    rewrite (emit_one rt n _ _ (LStreamReceive k))
      by (cbn [ev_id receiveEnvelope]; by rewrite Hsame).
    cbn [runListener]. unfold onStreamReceive, receiveEnvelope.
    rewrite bodyFor_receive. cbn [content sc_id sc_stream k].
    unfold controllerEnqueue. fields. rewrite T4.
    change (w_streams W0) with (w_streams W). rewrite Hh.
    cbn [mbind option_bind streamEnqueue canCloseOrEnqueue closeRequested
         newStream negb andb isReadable state queue taken app default].
    unfold Datatypes.id. rewrite wake_streams. fields.
    by rewrite lookup_insert_eq.
Qed.

(** ** C7: the prototypes of a walked payload *)

(** The prototypes the object nodes of a value are linked to: the node
    itself, the items of an array, the own properties of an object. *)
Fixpoint prototypes (v : JsVal) : list Prototype :=
  match v with
  | JArr items => PArray :: flat_map prototypes items
  | JObj p fields =>
      p :: flat_map (fun kv => let '(_, x) := kv in prototypes x) fields
  | JFun _ => [PFunction]
  | JErr _ _ => [PError]
  | JStream _ => [PStream]
  | _ => []
  end.

(** Through arrays and objects without prototype, an object linked to
    [Object.prototype] is a stub descriptor, and an object without
    prototype is a stub descriptor or has such values only. *)
Fixpoint mappingsRebuilt (v : JsVal) : bool :=
  match v with
  | JArr items => forallb mappingsRebuilt items
  | JObj PNull fields =>
      isInvokeFunctionStubPayload v
      || forallb (fun kv => let '(_, x) := kv in mappingsRebuilt x) fields
  | JObj PObject _ => isInvokeFunctionStubPayload v
  | _ => true
  end.

Definition rebuiltField (kv : string * JsVal) : Prop :=
  mappingsRebuilt kv.2 = true.

Lemma forallb_Forall {A} (f : A -> bool) l :
  forallb f l = true <-> Forall (fun x => f x = true) l.
Proof.
  induction l as [|x l IH]; cbn [forallb].
  - split; [constructor|done].
  - rewrite andb_true_iff, Forall_cons, IH. done.
Qed.

Lemma mappingsRebuilt_fields fields :
  Forall rebuiltField fields -> mappingsRebuilt (JObj PNull fields) = true.
Proof.
  intros H. cbn [mappingsRebuilt]. apply orb_true_iff. right.
  apply forallb_Forall. eapply Forall_impl; [exact H|]. by intros [k x].
Qed.

Lemma setOwn_rebuilt k v fields :
  mappingsRebuilt v = true -> Forall rebuiltField fields ->
  Forall rebuiltField (setOwn k v fields).
Proof.
  intros Hv. induction 1 as [|[k' v'] fs Hk' Hfs IH]; cbn [setOwn].
  - by repeat constructor.
  - destruct (String.eqb k k'); by constructor.
Qed.

(** What a walk gives when it returns. *)
Definition returns {St : Type} (P : JsVal -> Prop) (r : Walked St) : Prop :=
  match r with WOk v _ => P v | WThrow _ _ => True end.

(** [seen.get] finds what [seen.set] has stored. *)
Lemma seenLookup_elem input seen output :
  seenLookup input seen = Some output -> (input, output) ∈ seen.
Proof.
  induction seen as [|[x out] seen IH]; cbn [seenLookup]; [done|].
  destruct (decide (input = x)) as [->|_].
  - intros [= ->]. by left.
  - intros H. right. auto.
Qed.

Lemma seenGet_elem rt input seen output :
  seenGet rt input seen = Some output -> (input, output) ∈ seen.
Proof.
  unfold seenGet. destruct (sameObject rt input); [|done].
  apply seenLookup_elem.
Qed.

(** How a walk over a list keeps what holds of its state, [kept], and of
    each result. *)
Section WalkRebuilt.
Context {St : Type} (kept : St -> Prop).

Definition rebuilds (r : Walked St) : Prop :=
  match r with
  | WOk v st => mappingsRebuilt v = true ∧ kept st
  | WThrow _ _ => True
  end.

Lemma walkItems_rebuilt (walk : JsVal -> St -> Walked St) items :
  Forall (fun x => forall st, kept st -> rebuilds (walk x st)) items ->
  forall out st, Forall (fun v => mappingsRebuilt v = true) out -> kept st ->
  rebuilds (walkItems walk items out st).
Proof.
  induction 1 as [|x items Hx _ IH]; intros out st Hout Hst;
    cbn [walkItems rebuilds].
  - split; [|done]. by apply forallb_Forall.
  - specialize (Hx st Hst). destruct (walk x st) as [v st'|e st']; [|done].
    destruct Hx as [Hv Hst'].
    apply IH; [|done]. apply Forall_app. split; [done|]. by constructor.
Qed.

Lemma walkFields_rebuilt (walk : JsVal -> St -> Walked St) fields :
  Forall (fun kv => forall st, kept st -> rebuilds (walk kv.2 st)) fields ->
  forall out st, Forall rebuiltField out -> kept st ->
  rebuilds (walkFields walk fields out st).
Proof.
  induction 1 as [|[k x] fields Hx _ IH]; intros out st Hout Hst;
    cbn [walkFields rebuilds].
  - split; [|done]. by apply mappingsRebuilt_fields.
  - specialize (Hx st Hst). cbn [snd] in Hx.
    destruct (walk x st) as [v st'|e st']; [|done].
    destruct Hx as [Hv Hst'].
    apply IH; [|done]. by apply setOwn_rebuilt.
Qed.
End WalkRebuilt.

(** Every copy the [seen] map holds is rebuilt. *)
Definition rebuiltCopies (seen : Seen) : Prop :=
  Forall (fun entry => mappingsRebuilt entry.2 = true) seen.

Lemma rebuiltCopies_get rt input seen output :
  rebuiltCopies seen -> seenGet rt input seen = Some output ->
  mappingsRebuilt output = true.
Proof.
  intros Hall Hget%seenGet_elem. unfold rebuiltCopies in Hall.
  rewrite Forall_forall in Hall. by apply (Hall _ Hget).
Qed.

Lemma serializeSeen_rebuilt input r :
  rebuilds (fun st => rebuiltCopies (ser_seen st)) r ->
  rebuilds (fun st => rebuiltCopies (ser_seen st)) (serializeSeen input r).
Proof.
  destruct r as [v st|e st]; [|done]. intros [Hv Hst].
  split; [done|]. by constructor.
Qed.

Lemma deserializeSeen_rebuilt input r :
  rebuilds (fun st => rebuiltCopies (des_seen st)) r ->
  rebuilds (fun st => rebuiltCopies (des_seen st)) (deserializeSeen input r).
Proof.
  destruct r as [v st|e st]; [|done]. intros [Hv Hst].
  split; [done|]. by constructor.
Qed.

Lemma serializeFunction_rebuilt rt o f st :
  rebuiltCopies (ser_seen st) ->
  rebuilds (fun st => rebuiltCopies (ser_seen st))
           (serializeFunction rt o f st).
Proof.
  intros Hst. unfold serializeFunction.
  destruct (maxFunctions o <=? ser_functionCount st); [done|].
  destruct (drawId rt (ser_world st)) as [suffix w1].
  destruct (defineInvokeEventa rt _ w1) as [event w2].
  destruct (allocate w2) as [k w3].
  by destruct (defineInvokeHandler event (HStub k f) w3) as [ih w4].
Qed.

Lemma serializeWalk_rebuilt rt o v : forall depth st,
  rebuiltCopies (ser_seen st) ->
  rebuilds (fun st => rebuiltCopies (ser_seen st))
           (serializeWalk rt o v depth st).
Proof.
  induction v as [| | | | | | | |items IH|proto fields IH]
    using JsVal_tree_ind; intros depth st Hst; cbn [serializeWalk];
    try done; try (by destruct (maxDepth o <? depth)).
  - by apply serializeFunction_rebuilt.
  - destruct (maxDepth o <? depth); [done|].
    destruct (seenGet rt _ _) as [output|] eqn:Hseen.
    { split; [|done]. by eapply rebuiltCopies_get. }
    apply serializeSeen_rebuilt, walkItems_rebuilt; [|constructor|done].
    eapply Forall_impl; [exact IH|]. auto.
  - destruct (maxDepth o <? depth); [done|].
    destruct (seenGet rt _ _) as [output|] eqn:Hseen.
    { split; [|done]. by eapply rebuiltCopies_get. }
    destruct proto; try done; cbn [isPlainObject];
      (apply serializeSeen_rebuilt, walkFields_rebuilt;
       [|constructor|done]);
      (eapply Forall_impl; [exact IH|]; auto).
Qed.

Lemma deserializeWalk_rebuilt rt o v : forall depth st,
  rebuiltCopies (des_seen st) ->
  rebuilds (fun st => rebuiltCopies (des_seen st))
           (deserializeWalk rt o v depth st).
Proof.
  induction v as [| | | | | | | |items IH|proto fields IH]
    using JsVal_tree_ind; intros depth st Hst; cbn [deserializeWalk];
    try done; try (by destruct (maxDepth o <? depth)).
  - destruct (maxDepth o <? depth); [done|].
    destruct (seenGet rt _ _) as [output|] eqn:Hseen.
    { split; [|done]. by eapply rebuiltCopies_get. }
    apply deserializeSeen_rebuilt, walkItems_rebuilt; [|constructor|done].
    eapply Forall_impl; [exact IH|]. auto.
  - destruct (maxDepth o <? depth); [done|].
    destruct (stubTag (JObj proto fields)) as [tag|] eqn:Htag.
    + unfold deserializeStub.
      destruct (maxFunctions o <=? des_functionCount st); [done|].
      destruct (tagDisallowed o tag).
      * destruct (onDisallowedTag o); [|done]. cbn [rebuilds].
        split; [|done].
        assert (isInvokeFunctionStubPayload (JObj proto fields) = true)
          as Hstub by (unfold isInvokeFunctionStubPayload; by rewrite Htag).
        assert (isPlainObject (JObj proto fields) = true) as Hplain.
        { unfold stubTag, hasInvokeFunctionStubKey in Htag.
          by destruct (isPlainObject (JObj proto fields)). }
        destruct proto; try done; cbn [mappingsRebuilt]; by rewrite Hstub.
      * destruct (defineInvokeEventa rt _ _) as [event w1].
        by destruct (allocate w1).
    + destruct (strict o && hasInvokeFunctionStubKey (JObj proto fields));
        [done|].
      destruct (seenGet rt _ _) as [output|] eqn:Hseen.
      { split; [|done]. by eapply rebuiltCopies_get. }
      destruct proto; try done; cbn [isPlainObject];
        (apply deserializeSeen_rebuilt, walkFields_rebuilt;
         [|constructor|done]);
        (eapply Forall_impl; [exact IH|]; auto).
Qed.

(** *** The keys of a rebuilt object *)

(** The keys of every plain object in reach are pairwise distinct, as the
    own keys of an object are. *)
Fixpoint distinctKeys (v : JsVal) : bool :=
  match v with
  | JArr items => forallb distinctKeys items
  | JObj (PObject | PNull) fields =>
      bool_decide (NoDup fields.*1)
      && forallb (fun kv => distinctKeys kv.2) fields
  | _ => true
  end.

Lemma setOwn_new {A} k (v : A) out :
  k ∉ out.*1 -> setOwn k v out = out ++ [(k, v)].
Proof.
  induction out as [|[k' v'] out IH]; cbn [setOwn]; [done|].
  rewrite fmap_cons, not_elem_of_cons. cbn [fst]. intros [Hne Hnotin].
  rewrite (proj2 (String.eqb_neq k k')) by done. by rewrite IH.
Qed.

(** The values a walk does not enter: whatever is neither an array nor a
    plain object, and the plain objects [stub] tells apart, which are the
    well-formed descriptors for the deserializer and none for the
    serializer. *)
Definition leaf (stub : JsVal -> bool) (v : JsVal) : Prop :=
  match v with
  | JArr _ => False
  | JObj _ _ => isPlainObject v = false ∨ stub v = true
  | _ => True
  end.

(** [keysKept stub v v']: [v'] holds, place by place, what a walk made of
    [v].  An array came out as an array, item by item.  A plain object the
    walk entered came out as an object without prototype that has the keys
    of the input as its own keys, in the same order and whatever they are
    called, [__proto__], [constructor] and [prototype] too, each holding
    what the walk made of the input's property.  What came out of a value
    the walk does not enter is left open. *)
#[warnings="-register-all"] Inductive keysKept (stub : JsVal -> bool)
    : JsVal -> JsVal -> Prop :=
| kept_items xs ys :
    Forall2 (keysKept stub) xs ys -> keysKept stub (JArr xs) (JArr ys)
| kept_fields p fs gs :
    isPlainObject (JObj p fs) = true ->
    stub (JObj p fs) = false ->
    Forall2 (fun a b => a.1 = b.1 ∧ keysKept stub a.2 b.2) fs gs ->
    keysKept stub (JObj p fs) (JObj PNull gs)
| kept_leaf v v' : leaf stub v -> keysKept stub v v'.

Section WalkKept.
Context {St : Type} (stub : JsVal -> bool) (kept : St -> Prop).

Definition keeps (x : JsVal) (r : Walked St) : Prop :=
  match r with
  | WOk v st => keysKept stub x v ∧ kept st
  | WThrow _ _ => True
  end.

Lemma walkItems_kept (walk : JsVal -> St -> Walked St) xs :
  Forall (fun x => forall st, kept st -> keeps x (walk x st)) xs ->
  forall out st, kept st ->
  match walkItems walk xs out st with
  | WOk v st' =>
      kept st' ∧ exists vs, v = JArr (out ++ vs)
                            ∧ Forall2 (keysKept stub) xs vs
  | WThrow _ _ => True
  end.
Proof.
  induction 1 as [|x xs Hx _ IH]; intros out st Hst; cbn [walkItems].
  - split; [done|]. exists []. by rewrite app_nil_r.
  - specialize (Hx st Hst). destruct (walk x st) as [v st1|e st1]; [|done].
    destruct Hx as [Hv Hst1]. specialize (IH (out ++ [v]) st1 Hst1).
    destruct (walkItems walk xs (out ++ [v]) st1) as [v' st2|e st2]; [|done].
    destruct IH as (Hst2 & vs & -> & Hvs). split; [done|].
    exists (v :: vs). rewrite <- app_assoc. split; [done|]. by constructor.
Qed.

Lemma walkFields_kept (walk : JsVal -> St -> Walked St) fs :
  Forall (fun a => forall st, kept st -> keeps a.2 (walk a.2 st)) fs ->
  NoDup fs.*1 ->
  forall out st,
  (forall k, k ∈ fs.*1 -> k ∉ out.*1) -> kept st ->
  match walkFields walk fs out st with
  | WOk v st' =>
      kept st'
      ∧ exists hs, v = JObj PNull (out ++ hs)
                   ∧ Forall2 (fun a b => a.1 = b.1 ∧ keysKept stub a.2 b.2)
                             fs hs
  | WThrow _ _ => True
  end.
Proof.
  induction 1 as [|[k x] fs Hx _ IH]; intros Hnodup out st Hout Hst;
    cbn [walkFields].
  - split; [done|]. exists []. by rewrite app_nil_r.
  - rewrite fmap_cons in Hnodup. cbn [fst] in Hnodup.
    apply NoDup_cons in Hnodup as [Hk Hnodup].
    specialize (Hx st Hst). cbn [snd] in Hx.
    destruct (walk x st) as [v st1|e st1]; [|done].
    destruct Hx as [Hv Hst1].
    unfold assignProperty. cbn [andb].
    rewrite setOwn_new by (apply Hout; rewrite fmap_cons; by left).
    specialize (IH Hnodup (out ++ [(k, v)]) st1).
    destruct (walkFields walk fs (out ++ [(k, v)]) st1) as [v' st2|e st2];
      [|done].
    destruct IH as (Hst2 & hs & -> & Hhs); [|done|].
    { intros k' Hk'. rewrite fmap_app, not_elem_of_app. split.
      - apply Hout. rewrite fmap_cons. by right.
      - cbn. intros ->%list_elem_of_singleton. done. }
    split; [done|]. exists ((k, v) :: hs). rewrite <- app_assoc.
    split; [done|]. by constructor.
Qed.
End WalkKept.

(** Every copy the [seen] map holds has the keys of its original. *)
Definition keptCopies (stub : JsVal -> bool) (seen : Seen) : Prop :=
  Forall (fun entry => keysKept stub entry.1 entry.2) seen.

Lemma keptCopies_get rt stub input seen output :
  keptCopies stub seen -> seenGet rt input seen = Some output ->
  keysKept stub input output.
Proof.
  intros Hall Hget%seenGet_elem. unfold keptCopies in Hall.
  rewrite Forall_forall in Hall. by apply (Hall _ Hget).
Qed.

Lemma distinctKeys_items items :
  distinctKeys (JArr items) = true ->
  Forall (fun x => distinctKeys x = true) items.
Proof. cbn [distinctKeys]. apply forallb_Forall. Qed.

Lemma distinctKeys_fields p fields :
  isPlainObject (JObj p fields) = true ->
  distinctKeys (JObj p fields) = true ->
  NoDup fields.*1 ∧ Forall (fun kv => distinctKeys kv.2 = true) fields.
Proof.
  intros Hplain Hkeys.
  assert (bool_decide (NoDup fields.*1)
          && forallb (fun kv => distinctKeys kv.2) fields = true) as H
    by (by destruct p).
  apply andb_true_iff in H as [Hnodup Hall].
  split; [by apply bool_decide_eq_true in Hnodup|].
  by apply forallb_Forall.
Qed.

Lemma serializeWalk_kept rt o v : forall depth st,
  distinctKeys v = true ->
  keptCopies (fun _ => false) (ser_seen st) ->
  keeps (fun _ => false) (fun st => keptCopies (fun _ => false) (ser_seen st))
        v (serializeWalk rt o v depth st).
Proof.
  induction v as [| | | | | | | |items IH|proto fields IH]
    using JsVal_tree_ind; intros depth st Hkeys Hst; cbn [serializeWalk];
    try (split; [by apply kept_leaf|done]);
    try (destruct (maxDepth o <? depth); [done|];
         split; [by apply kept_leaf|done]).
  - unfold serializeFunction.
    destruct (maxFunctions o <=? ser_functionCount st); [done|].
    destruct (drawId rt (ser_world st)) as [suffix w1].
    destruct (defineInvokeEventa rt _ w1) as [event w2].
    destruct (allocate w2) as [k w3].
    destruct (defineInvokeHandler event (HStub k f) w3) as [ih w4].
    split; [by apply kept_leaf|done].
  - destruct (maxDepth o <? depth); [done|].
    destruct (seenGet rt _ _) as [output|] eqn:Hseen.
    { split; [|done]. by eapply keptCopies_get. }
    apply distinctKeys_items in Hkeys.
    assert (Forall (fun x => forall st',
                      keptCopies (fun _ => false) (ser_seen st') ->
                      keeps (fun _ => false)
                        (fun st => keptCopies (fun _ => false) (ser_seen st))
                        x (serializeWalk rt o x (S depth) st')) items) as Hall.
    { rewrite Forall_forall in IH, Hkeys. apply Forall_forall.
      intros x Hx st' Hst'. apply IH; [done|by apply Hkeys|done]. }
    pose proof (walkItems_kept (fun _ => false)
                  (fun st => keptCopies (fun _ => false) (ser_seen st))
                  (fun x st' => serializeWalk rt o x (S depth) st') items
                  Hall [] st Hst) as Hwalk.
    destruct (walkItems _ items [] st) as [v' st'|e st']; [|done].
    destruct Hwalk as (Hst' & vs & -> & Hvs). cbn [serializeSeen keeps].
    split; [by apply kept_items|].
    constructor; [by apply kept_items|done].
  - destruct (maxDepth o <? depth); [done|].
    destruct (seenGet rt _ _) as [output|] eqn:Hseen.
    { split; [|done]. by eapply keptCopies_get. }
    destruct (isPlainObject (JObj proto fields)) eqn:Hplain;
      [|split; [apply kept_leaf; by left|done]].
    apply distinctKeys_fields in Hkeys as [Hnodup Hkeys]; [|done].
    assert (Forall (fun a => forall st',
                      keptCopies (fun _ => false) (ser_seen st') ->
                      keeps (fun _ => false)
                        (fun st => keptCopies (fun _ => false) (ser_seen st))
                        a.2 (serializeWalk rt o a.2 (S depth) st')) fields)
      as Hall.
    { rewrite Forall_forall in IH, Hkeys. apply Forall_forall.
      intros x Hx st' Hst'. apply IH; [done|by apply Hkeys|done]. }
    pose proof (walkFields_kept (fun _ => false)
                  (fun st => keptCopies (fun _ => false) (ser_seen st))
                  (fun x st' => serializeWalk rt o x (S depth) st') fields
                  Hall Hnodup [] st
                  ltac:(intros; apply not_elem_of_nil) Hst) as Hwalk.
    destruct (walkFields _ fields [] st) as [v' st'|e st']; [|done].
    destruct Hwalk as (Hst' & hs & -> & Hhs). cbn [serializeSeen keeps].
    split; [by apply kept_fields|].
    constructor; [by apply kept_fields|done].
Qed.

Lemma deserializeWalk_kept rt o v : forall depth st,
  distinctKeys v = true ->
  keptCopies isInvokeFunctionStubPayload (des_seen st) ->
  keeps isInvokeFunctionStubPayload
        (fun st => keptCopies isInvokeFunctionStubPayload (des_seen st))
        v (deserializeWalk rt o v depth st).
Proof.
  induction v as [| | | | | | | |items IH|proto fields IH]
    using JsVal_tree_ind; intros depth st Hkeys Hst; cbn [deserializeWalk];
    try (split; [by apply kept_leaf|done]);
    try (destruct (maxDepth o <? depth); [done|];
         split; [by apply kept_leaf|done]).
  - destruct (maxDepth o <? depth); [done|].
    destruct (seenGet rt _ _) as [output|] eqn:Hseen.
    { split; [|done]. by eapply keptCopies_get. }
    apply distinctKeys_items in Hkeys.
    assert (Forall (fun x => forall st',
                      keptCopies isInvokeFunctionStubPayload (des_seen st') ->
                      keeps isInvokeFunctionStubPayload
                        (fun st => keptCopies isInvokeFunctionStubPayload (des_seen st))
                        x (deserializeWalk rt o x (S depth) st')) items) as Hall.
    { rewrite Forall_forall in IH, Hkeys. apply Forall_forall.
      intros x Hx st' Hst'. apply IH; [done|by apply Hkeys|done]. }
    pose proof (walkItems_kept isInvokeFunctionStubPayload
                  (fun st => keptCopies isInvokeFunctionStubPayload (des_seen st))
                  (fun x st' => deserializeWalk rt o x (S depth) st') items
                  Hall [] st Hst) as Hwalk.
    destruct (walkItems _ items [] st) as [v' st'|e st']; [|done].
    destruct Hwalk as (Hst' & vs & -> & Hvs). cbn [deserializeSeen keeps].
    split; [by apply kept_items|].
    constructor; [by apply kept_items|done].
  - destruct (maxDepth o <? depth); [done|].
    destruct (stubTag (JObj proto fields)) as [tag|] eqn:Htag.
    { assert (leaf isInvokeFunctionStubPayload (JObj proto fields)) as Hleaf.
      { right. unfold isInvokeFunctionStubPayload. by rewrite Htag. }
      unfold deserializeStub.
      destruct (maxFunctions o <=? des_functionCount st); [done|].
      destruct (tagDisallowed o tag).
      - destruct (onDisallowedTag o); [|done].
        split; [by apply kept_leaf|done].
      - destruct (defineInvokeEventa rt _ _) as [event w1].
        destruct (allocate w1). split; [by apply kept_leaf|done]. }
    destruct (strict o && hasInvokeFunctionStubKey (JObj proto fields));
      [done|].
    destruct (seenGet rt _ _) as [output|] eqn:Hseen.
    { split; [|done]. by eapply keptCopies_get. }
    destruct (isPlainObject (JObj proto fields)) eqn:Hplain;
      [|split; [apply kept_leaf; by left|done]].
    apply distinctKeys_fields in Hkeys as [Hnodup Hkeys]; [|done].
    assert (Forall (fun a => forall st',
                      keptCopies isInvokeFunctionStubPayload (des_seen st') ->
                      keeps isInvokeFunctionStubPayload
                        (fun st => keptCopies isInvokeFunctionStubPayload (des_seen st))
                        a.2 (deserializeWalk rt o a.2 (S depth) st')) fields)
      as Hall.
    { rewrite Forall_forall in IH, Hkeys. apply Forall_forall.
      intros x Hx st' Hst'. apply IH; [done|by apply Hkeys|done]. }
    pose proof (walkFields_kept isInvokeFunctionStubPayload
                  (fun st => keptCopies isInvokeFunctionStubPayload (des_seen st))
                  (fun x st' => deserializeWalk rt o x (S depth) st') fields
                  Hall Hnodup [] st
                  ltac:(intros; apply not_elem_of_nil) Hst) as Hwalk.
    destruct (walkFields _ fields [] st) as [v' st'|e st']; [|done].
    destruct Hwalk as (Hst' & hs & -> & Hhs). cbn [deserializeSeen keeps].
    assert (isInvokeFunctionStubPayload (JObj proto fields) = false)
      as Hnostub by (unfold isInvokeFunctionStubPayload; by rewrite Htag).
    split; [by apply kept_fields|].
    constructor; [by apply kept_fields|done].
Qed.

(** C7, as the walks have it.  Whatever the serializer or the deserializer
    returns, every mapping it rebuilt has no prototype: through arrays and
    objects without prototype, the only objects of the output linked to
    [Object.prototype] are stub descriptors.  The keys of the input do not
    change that: every plain object the walk entered came out as an object
    without prototype with the same own keys, [__proto__], [constructor]
    and [prototype] among them if the input has them, since an assignment
    to an object without prototype reaches no accessor and writes to that
    object alone.  Arrays are rebuilt as arrays, and functions, errors,
    streams and instances of classes are passed on, so their prototypes
    stay in reach. *)
Theorem walks_rebuild_mappings_without_prototype rt o v w :
  allow o = true ->
  returns (fun v' => mappingsRebuilt v' = true)
          (serializeInvokeFunctionPayload rt o v w)
  ∧ returns (fun v' => mappingsRebuilt v' = true)
            (deserializeInvokeFunctionPayload rt o v w)
  ∧ (distinctKeys v = true ->
     returns (keysKept (fun _ => false) v)
             (serializeInvokeFunctionPayload rt o v w)
     ∧ returns (keysKept isInvokeFunctionStubPayload v)
               (deserializeInvokeFunctionPayload rt o v w)).
Proof.
  intros Hallow.
  unfold serializeInvokeFunctionPayload, deserializeInvokeFunctionPayload.
  rewrite Hallow. split; [|split; [|intros Hkeys; split]].
  - pose proof (serializeWalk_rebuilt rt o v 0 (mkSerializeState 0 [] [] w)
                  ltac:(constructor)) as H.
    destruct (serializeWalk rt o v 0 _); [|done]. apply H.
  - pose proof (deserializeWalk_rebuilt rt o v 0 (mkDeserializeState 0 [] w)
                  ltac:(constructor)) as H.
    destruct (deserializeWalk rt o v 0 _); [|done]. apply H.
  - pose proof (serializeWalk_kept rt o v 0 (mkSerializeState 0 [] [] w)
                  Hkeys ltac:(constructor)) as H.
    destruct (serializeWalk rt o v 0 _); [|done]. apply H.
  - pose proof (deserializeWalk_kept rt o v 0 (mkDeserializeState 0 [] w)
                  Hkeys ltac:(constructor)) as H.
    destruct (deserializeWalk rt o v 0 _); [|done]. apply H.
Qed.

(** ** The walks of a payload without shared objects *)

(** The arrays and plain objects of a payload that a walk enters, the
    payload itself among them. *)
Fixpoint containers (v : JsVal) : list JsVal :=
  match v with
  | JArr items => v :: flat_map containers items
  | JObj (PObject | PNull) fields =>
      v :: flat_map (fun kv => containers kv.2) fields
  | _ => []
  end.

(** No array or plain object of the payload is shared: each is reachable
    along one path only. *)
Definition unshared (rt : Runtime) (v : JsVal) : Prop :=
  Forall (fun x => sameObject rt x = false) (containers v).

Lemma unshared_items rt items :
  unshared rt (JArr items) ->
  sameObject rt (JArr items) = false
  ∧ Forall (fun x => unshared rt x) items.
Proof.
  unfold unshared. cbn [containers]. intros [Hv Hall]%Forall_cons.
  split; [done|]. clear Hv.
  induction items as [|x items IH]; [constructor|].
  cbn [flat_map] in Hall. apply Forall_app in Hall as [Hx Hall].
  constructor; auto.
Qed.

Lemma unshared_fields rt p fields :
  isPlainObject (JObj p fields) = true ->
  unshared rt (JObj p fields) ->
  sameObject rt (JObj p fields) = false
  ∧ Forall (fun kv => unshared rt kv.2) fields.
Proof.
  intros Hplain. unfold unshared.
  assert (containers (JObj p fields)
          = JObj p fields :: flat_map (fun kv => containers kv.2) fields)
    as -> by (by destruct p).
  intros [Hv Hall]%Forall_cons. split; [done|]. clear Hv.
  induction fields as [|x fields IH]; [constructor|].
  cbn [flat_map] in Hall. apply Forall_app in Hall as [Hx Hall].
  constructor; auto.
Qed.

(** On such a payload [seen.get] finds nothing, and a walk is the plain
    recursion over the tree: the serializer's, *)
Fixpoint serializeTree (rt : Runtime) (options : StubOptions)
    (input : JsVal) (depth : nat) (st : SerializeState) {struct input}
    : Walked SerializeState :=
  match input with
  | JFun f => serializeFunction rt options f st
  | JArr items =>
      if (maxDepth options <? depth) then WThrow (tooDeep options) st
      else
        walkItems (fun x st' => serializeTree rt options x (S depth) st')
                  items [] st
  | JObj p fields =>
      if (maxDepth options <? depth) then WThrow (tooDeep options) st
      else if isPlainObject input then
        walkFields (fun x st' => serializeTree rt options x (S depth) st')
                   fields [] st
      else WOk input st
  | JErr _ _ | JStream _ =>
      if (maxDepth options <? depth) then WThrow (tooDeep options) st
      else WOk input st
  | _ => WOk input st
  end.

(** and the deserializer's. *)
Fixpoint deserializeTree (rt : Runtime) (options : StubOptions)
    (input : JsVal) (depth : nat) (st : DeserializeState) {struct input}
    : Walked DeserializeState :=
  match input with
  | JArr items =>
      if (maxDepth options <? depth) then WThrow (tooDeep options) st
      else
        walkItems (fun x st' => deserializeTree rt options x (S depth) st')
                  items [] st
  | JObj p fields =>
      if (maxDepth options <? depth) then WThrow (tooDeep options) st
      else
        match stubTag input with
        | Some tag => deserializeStub rt options input tag st
        | None =>
            if strict options && hasInvokeFunctionStubKey input
            then WThrow invalidStub st
            else if isPlainObject input then
              walkFields
                (fun x st' => deserializeTree rt options x (S depth) st')
                fields [] st
            else WOk input st
        end
  | JErr _ _ | JStream _ =>
      if (maxDepth options <? depth) then WThrow (tooDeep options) st
      else WOk input st
  | _ => WOk input st
  end.

(** Two walks that go the same way, up to a relation between their
    states. *)
Section WalkAlike.
Context {St : Type} (R : St -> St -> Prop).

Definition alike (r1 r2 : Walked St) : Prop :=
  match r1, r2 with
  | WOk v1 st1, WOk v2 st2 => v1 = v2 ∧ R st1 st2
  | WThrow e1 st1, WThrow e2 st2 => e1 = e2 ∧ R st1 st2
  | _, _ => False
  end.

Lemma walkItems_alike (walk1 walk2 : JsVal -> St -> Walked St) items :
  Forall (fun x => forall st1 st2,
            R st1 st2 -> alike (walk1 x st1) (walk2 x st2)) items ->
  forall out st1 st2, R st1 st2 ->
  alike (walkItems walk1 items out st1) (walkItems walk2 items out st2).
Proof.
  induction 1 as [|x items Hx _ IH]; intros out st1 st2 Hst;
    cbn [walkItems]; [done|].
  specialize (Hx st1 st2 Hst).
  destruct (walk1 x st1) as [v1 st1'|e1 st1'],
           (walk2 x st2) as [v2 st2'|e2 st2']; try done.
  destruct Hx as [-> Hst']. by apply IH.
Qed.

Lemma walkFields_alike (walk1 walk2 : JsVal -> St -> Walked St) fields :
  Forall (fun kv => forall st1 st2,
            R st1 st2 -> alike (walk1 kv.2 st1) (walk2 kv.2 st2)) fields ->
  forall out st1 st2, R st1 st2 ->
  alike (walkFields walk1 fields out st1) (walkFields walk2 fields out st2).
Proof.
  induction 1 as [|[k x] fields Hx _ IH]; intros out st1 st2 Hst;
    cbn [walkFields]; [done|].
  specialize (Hx st1 st2 Hst). cbn [snd] in Hx.
  destruct (walk1 x st1) as [v1 st1'|e1 st1'],
           (walk2 x st2) as [v2 st2'|e2 st2']; try done.
  destruct Hx as [-> Hst']. by apply IH.
Qed.
End WalkAlike.

(** The keys of a [seen] map are arrays and plain objects. *)
Definition isContainer (v : JsVal) : bool :=
  match v with
  | JArr _ => true
  | JObj _ _ => isPlainObject v
  | _ => false
  end.

Definition seenContainers (seen : Seen) : Prop :=
  Forall (fun entry => isContainer entry.1 = true) seen.

Lemma seenGet_unshared rt input seen :
  sameObject rt input = false -> seenGet rt input seen = None.
Proof. unfold seenGet. by intros ->. Qed.

Lemma seenGet_other rt input seen :
  seenContainers seen -> isContainer input = false ->
  seenGet rt input seen = None.
Proof.
  intros Hall Hinput. unfold seenGet. destruct (sameObject rt input); [|done].
  induction Hall as [|[x out] seen Hx _ IH]; cbn [seenLookup]; [done|].
  destruct (decide (input = x)) as [->|_]; [|done].
  cbn [fst] in Hx. congruence.
Qed.

(** The states of a walk with its [seen] map and of the recursion over the
    tree agree on everything but the map. *)
Definition serializingAlike (st1 st2 : SerializeState) : Prop :=
  ser_functionCount st1 = ser_functionCount st2
  ∧ ser_disposers st1 = ser_disposers st2
  ∧ ser_world st1 = ser_world st2
  ∧ seenContainers (ser_seen st1).

Definition deserializingAlike (st1 st2 : DeserializeState) : Prop :=
  des_functionCount st1 = des_functionCount st2
  ∧ des_world st1 = des_world st2
  ∧ seenContainers (des_seen st1).

Lemma serializeFunction_alike rt o f st1 st2 :
  serializingAlike st1 st2 ->
  alike serializingAlike (serializeFunction rt o f st1)
                         (serializeFunction rt o f st2).
Proof.
  intros (Hc & Hd & Hw & Hseen). unfold serializeFunction.
  rewrite Hc, Hd, Hw.
  destruct (maxFunctions o <=? ser_functionCount st2); [done|].
  destruct (drawId rt (ser_world st2)) as [suffix w1].
  destruct (defineInvokeEventa rt _ w1) as [event w2].
  destruct (allocate w2) as [k w3].
  by destruct (defineInvokeHandler event (HStub k f) w3) as [ih w4].
Qed.

Lemma serializeSeen_alike input r1 r2 :
  isContainer input = true ->
  alike serializingAlike r1 r2 ->
  alike serializingAlike (serializeSeen input r1) r2.
Proof.
  intros Hinput. destruct r1 as [v1 st1|e1 st1], r2 as [v2 st2|e2 st2];
    try done.
  intros [-> (Hc & Hd & Hw & Hseen)]. split; [done|].
  split; [done|]. split; [done|]. split; [done|]. by constructor.
Qed.

(** On a payload without shared objects the serializer's walk is the
    recursion over the tree. *)
Lemma serializeWalk_unshared rt o v : forall depth st1 st2,
  unshared rt v ->
  serializingAlike st1 st2 ->
  alike serializingAlike (serializeWalk rt o v depth st1)
                         (serializeTree rt o v depth st2).
Proof.
  induction v as [| | | | | | | |items IH|proto fields IH]
    using JsVal_tree_ind; intros depth st1 st2 Hun Hst;
    cbn [serializeWalk serializeTree]; try done;
    try (by destruct (maxDepth o <? depth)).
  - by apply serializeFunction_alike.
  - destruct (maxDepth o <? depth); [done|].
    apply unshared_items in Hun as [Hself Hun].
    rewrite seenGet_unshared by done.
    apply serializeSeen_alike; [done|].
    apply walkItems_alike; [|done].
    rewrite Forall_forall in IH, Hun. apply Forall_forall.
    intros x Hx st1' st2' Hst'. apply IH; auto.
  - destruct (maxDepth o <? depth); [done|].
    destruct (isPlainObject (JObj proto fields)) eqn:Hplain.
    + apply unshared_fields in Hun as [Hself Hun]; [|done].
      rewrite seenGet_unshared by done.
      apply serializeSeen_alike; [done|].
      apply walkFields_alike; [|done].
      rewrite Forall_forall in IH, Hun. apply Forall_forall.
      intros x Hx st1' st2' Hst'. apply IH; auto.
    + rewrite seenGet_other; [done|apply Hst|done].
Qed.

Lemma deserializeStub_alike rt o input tag st1 st2 :
  deserializingAlike st1 st2 ->
  alike deserializingAlike (deserializeStub rt o input tag st1)
                           (deserializeStub rt o input tag st2).
Proof.
  intros (Hc & Hw & Hseen). unfold deserializeStub. rewrite Hc, Hw.
  destruct (maxFunctions o <=? des_functionCount st2); [done|].
  destruct (tagDisallowed o tag); [by destruct (onDisallowedTag o)|].
  destruct (defineInvokeEventa rt _ _) as [event w1].
  by destruct (allocate w1).
Qed.

Lemma deserializeSeen_alike input r1 r2 :
  isContainer input = true ->
  alike deserializingAlike r1 r2 ->
  alike deserializingAlike (deserializeSeen input r1) r2.
Proof.
  intros Hinput. destruct r1 as [v1 st1|e1 st1], r2 as [v2 st2|e2 st2];
    try done.
  intros [-> (Hc & Hw & Hseen)]. split; [done|].
  split; [done|]. split; [done|]. by constructor.
Qed.

(** And so is the deserializer's. *)
Lemma deserializeWalk_unshared rt o v : forall depth st1 st2,
  unshared rt v ->
  deserializingAlike st1 st2 ->
  alike deserializingAlike (deserializeWalk rt o v depth st1)
                           (deserializeTree rt o v depth st2).
Proof.
  induction v as [| | | | | | | |items IH|proto fields IH]
    using JsVal_tree_ind; intros depth st1 st2 Hun Hst;
    cbn [deserializeWalk deserializeTree]; try done;
    try (by destruct (maxDepth o <? depth)).
  - destruct (maxDepth o <? depth); [done|].
    apply unshared_items in Hun as [Hself Hun].
    rewrite seenGet_unshared by done.
    apply deserializeSeen_alike; [done|].
    apply walkItems_alike; [|done].
    rewrite Forall_forall in IH, Hun. apply Forall_forall.
    intros x Hx st1' st2' Hst'. apply IH; auto.
  - destruct (maxDepth o <? depth); [done|].
    destruct (stubTag (JObj proto fields));
      [by apply deserializeStub_alike|].
    destruct (strict o && hasInvokeFunctionStubKey (JObj proto fields));
      [done|].
    destruct (isPlainObject (JObj proto fields)) eqn:Hplain.
    + apply unshared_fields in Hun as [Hself Hun]; [|done].
      rewrite seenGet_unshared by done.
      apply deserializeSeen_alike; [done|].
      apply walkFields_alike; [|done].
      rewrite Forall_forall in IH, Hun. apply Forall_forall.
      intros x Hx st1' st2' Hst'. apply IH; auto.
    + rewrite seenGet_other; [done|apply Hst|done].
Qed.

(** What the serializer gives for a payload without shared objects, read
    off the recursion over the tree. *)
Lemma serialize_unshared rt o v w :
  unshared rt v ->
  alike serializingAlike
        (serializeWalk rt o v 0 (mkSerializeState 0 [] [] w))
        (serializeTree rt o v 0 (mkSerializeState 0 [] [] w)).
Proof.
  intros Hun. apply serializeWalk_unshared; [done|].
  repeat split. constructor.
Qed.

Lemma deserialize_unshared rt o v w :
  unshared rt v ->
  alike deserializingAlike
        (deserializeWalk rt o v 0 (mkDeserializeState 0 [] w))
        (deserializeTree rt o v 0 (mkDeserializeState 0 [] w)).
Proof.
  intros Hun. apply deserializeWalk_unshared; [done|].
  repeat split. constructor.
Qed.

(** ** C8: the caps of a walk *)

(** The function values the serializer replaces: those it reaches through
    arrays and plain objects. *)
Fixpoint countFunctions (v : JsVal) : nat :=
  match v with
  | JFun _ => 1
  | JArr items => sum_list_with countFunctions items
  | JObj (PObject | PNull) fields =>
      sum_list_with (fun kv => countFunctions kv.2) fields
  | _ => 0
  end.

(** The levels of object nodes the serializer walks through: a value that
    is no object has none, an object the walk does not enter has one. *)
Fixpoint levels (v : JsVal) : nat :=
  match v with
  | JArr items => S (max_list_with levels items)
  | JObj (PObject | PNull) fields =>
      S (max_list_with (fun kv => levels kv.2) fields)
  | JObj _ _ | JErr _ _ | JStream _ => 1
  | _ => 0
  end.

(** The depth of the deepest object node the serializer visits, the root
    being at depth 0. *)
Definition nestingDepth (v : JsVal) : nat := levels v - 1.

(** The stubs the deserializer turns into functions: the well-formed
    descriptors whose tag passes the prefix filter. *)
Fixpoint countStubs (o : StubOptions) (v : JsVal) : nat :=
  match v with
  | JArr items => sum_list_with (countStubs o) items
  | JObj p fields =>
      match stubTag (JObj p fields) with
      | Some tag => if tagDisallowed o tag then 0 else 1
      | None =>
          if isPlainObject (JObj p fields) then
            sum_list_with (fun kv => countStubs o kv.2)
                          fields
          else 0
      end
  | _ => 0
  end.

(** The levels of object nodes the deserializer walks through; it does not
    enter a stub. *)
Fixpoint stubLevels (v : JsVal) : nat :=
  match v with
  | JArr items => S (max_list_with stubLevels items)
  | JObj p fields =>
      match stubTag (JObj p fields) with
      | Some _ => 1
      | None =>
          if isPlainObject (JObj p fields) then
            S (max_list_with (fun kv => stubLevels kv.2)
                             fields)
          else 1
      end
  | JErr _ _ | JStream _ => 1
  | _ => 0
  end.


(** A plain object that carries the [__eventaInvoke] key without being a
    well-formed descriptor, where the deserializer visits it. *)
Fixpoint hasMalformedStub (v : JsVal) : bool :=
  match v with
  | JArr items => existsb hasMalformedStub items
  | JObj p fields =>
      match stubTag (JObj p fields) with
      | Some _ => false
      | None =>
          hasInvokeFunctionStubKey (JObj p fields)
          || (isPlainObject (JObj p fields)
              && existsb (fun kv => hasMalformedStub kv.2)
                         fields)
      end
  | _ => false
  end.

Definition throws {St : Type} (r : Walked St) : Prop :=
  match r with WThrow _ _ => True | WOk _ _ => False end.

Section WalkCaps.
Context {St : Type} (count : St -> nat) (M B : nat).
Context (cnt ht : JsVal -> nat) (bad : JsVal -> bool).

(** What a walk that returns tells about the value it walked: each
    function or stub was counted and the count stayed within the cap, the
    levels below fit, and, where malformed stubs are rejected, there was
    none. *)
Definition within (b : nat) (x : JsVal) (st : St) (r : Walked St) : Prop :=
  match r with
  | WOk _ st' =>
      count st' = count st + cnt x ∧ count st' ≤ M ∧ ht x ≤ b
      ∧ bad x = false
  | WThrow _ _ => True
  end.

Definition withinAll {A} (item : A -> JsVal) (l : list A) (st : St)
    (r : Walked St) : Prop :=
  match r with
  | WOk _ st' =>
      count st' = count st + sum_list_with (fun a => cnt (item a)) l
      ∧ count st' ≤ M
      ∧ max_list_with (fun a => ht (item a)) l ≤ B
      ∧ existsb (fun a => bad (item a)) l = false
  | WThrow _ _ => True
  end.

Lemma walkItems_within (walk : JsVal -> St -> Walked St) items :
  Forall (fun x => forall st, count st ≤ M -> within B x st (walk x st))
         items ->
  forall out st, count st ≤ M ->
  withinAll id items st (walkItems walk items out st).
Proof.
  induction 1 as [|x items Hx _ IH]; intros out st Hst; cbn [walkItems].
  - cbn. repeat split; lia.
  - specialize (Hx st Hst). destruct (walk x st) as [v st1|e st1]; [|done].
    destruct Hx as (H1 & H2 & H3 & H4).
    specialize (IH (out ++ [v]) st1 H2).
    destruct (walkItems walk items (out ++ [v]) st1) as [v' st2|]; [|done].
    destruct IH as (G1 & G2 & G3 & G4). cbn in *.
    rewrite H4, G4. repeat split; lia.
Qed.

Lemma walkFields_within (walk : JsVal -> St -> Walked St) fields :
  Forall (fun kv => forall st, count st ≤ M ->
                    within B kv.2 st (walk kv.2 st)) fields ->
  forall out st, count st ≤ M ->
  withinAll snd fields st (walkFields walk fields out st).
Proof.
  induction 1 as [|[k x] fields Hx _ IH]; intros out st Hst;
    cbn [walkFields].
  - cbn. repeat split; lia.
  - specialize (Hx st Hst). cbn [snd] in Hx.
    destruct (walk x st) as [v st1|e st1]; [|done].
    destruct Hx as (H1 & H2 & H3 & H4).
    specialize (IH (assignProperty false k v out) st1 H2).
    destruct (walkFields walk fields _ st1) as [v' st2|]; [|done].
    destruct IH as (G1 & G2 & G3 & G4). cbn in *.
    rewrite H4, G4. repeat split; lia.
Qed.
End WalkCaps.

Section SerializeCaps.
Variable rt : Runtime.
Variable o : StubOptions.


End SerializeCaps.

Lemma existsb_guarded {A} (b : bool) (f : A -> bool) l :
  existsb (fun a => b && f a) l = false -> b && existsb f l = false.
Proof.
  destruct b; cbn [andb]; [|done].
  induction l as [|a l IH]; cbn [existsb]; [done|].
  intros [-> H]%orb_false_iff. by rewrite IH.
Qed.

Section DeserializeCaps.
Variable rt : Runtime.
Variable o : StubOptions.

Definition rejected (v : JsVal) : bool := strict o && hasMalformedStub v.

Lemma deserializeStub_within b p fields tag st :
  stubTag (JObj p fields) = Some tag ->
  des_functionCount st ≤ maxFunctions o ->
  1 ≤ b ->
  within des_functionCount (maxFunctions o) (countStubs o) stubLevels
         rejected b (JObj p fields) st
         (deserializeStub rt o (JObj p fields) tag st).
Proof.
  intros Htag Hst Hb. unfold deserializeStub.
  destruct (maxFunctions o <=? des_functionCount st) eqn:Hcap; [done|].
  apply Nat.leb_gt in Hcap. unfold within, rejected.
  cbn [countStubs stubLevels hasMalformedStub]. rewrite Htag.
  rewrite andb_false_r.
  destruct (tagDisallowed o tag).
  - destruct (onDisallowedTag o); [|done]. repeat split; lia.
  - destruct (defineInvokeEventa rt _ _) as [event w1].
    destruct (allocate w1) as [c w2]. cbn. repeat split; lia.
Qed.

Lemma deserializeTree_within v : forall depth st,
  des_functionCount st ≤ maxFunctions o ->
  within des_functionCount (maxFunctions o) (countStubs o) stubLevels
         rejected (S (maxDepth o) - depth) v st
         (deserializeTree rt o v depth st).
Proof.
  induction v as [| | | | | | | |items IH|proto fields IH]
    using JsVal_tree_ind; intros depth st Hst; cbn [deserializeTree];
    unfold rejected;
    try (cbn; rewrite ?andb_false_r; repeat split; lia).
  - destruct (maxDepth o <? depth) eqn:Hd; [done|]. apply Nat.ltb_ge in Hd.
    cbn. rewrite andb_false_r. repeat split; lia.
  - destruct (maxDepth o <? depth) eqn:Hd; [done|]. apply Nat.ltb_ge in Hd.
    cbn. rewrite andb_false_r. repeat split; lia.
  - destruct (maxDepth o <? depth) eqn:Hd; [done|]. apply Nat.ltb_ge in Hd.
    pose proof (walkItems_within des_functionCount (maxFunctions o)
      (maxDepth o - depth) (countStubs o) stubLevels rejected
      (fun x st' => deserializeTree rt o x (S depth) st') items) as Hall.
    specialize (Hall ltac:(eapply Forall_impl; [exact IH|]; cbn beta;
      intros x Hx st' Hst'; by apply (Hx (S depth))) [] st Hst).
    destruct (walkItems _ items [] st) as [v' st'|]; [|done].
    destruct Hall as (H1 & H2 & H3 & H4).
    cbn [within stubLevels countStubs hasMalformedStub].
    assert (max_list_with stubLevels items ≤ maxDepth o - depth) by exact H3.
    apply existsb_guarded in H4.
    repeat split; try done. lia.
  - destruct (maxDepth o <? depth) eqn:Hd; [done|]. apply Nat.ltb_ge in Hd.
    destruct (stubTag (JObj proto fields)) as [tag|] eqn:Htag.
    { apply deserializeStub_within; [done|done|lia]. }
    unfold within. cbn [countStubs stubLevels hasMalformedStub].
    rewrite Htag.
    destruct (strict o) eqn:Hstrict; cbn [andb].
    + destruct (hasInvokeFunctionStubKey (JObj proto fields)) eqn:Hkey;
        [done|]. cbn [orb].
      destruct (isPlainObject (JObj proto fields)) eqn:Hplain;
        [|repeat split; lia].
      pose proof (walkFields_within des_functionCount (maxFunctions o)
        (maxDepth o - depth) (countStubs o) stubLevels rejected
        (fun x st' => deserializeTree rt o x (S depth) st') fields) as Hall.
      specialize (Hall ltac:(eapply Forall_impl; [exact IH|]; cbn beta;
        intros x Hx st' Hst'; by apply (Hx (S depth))) [] st Hst).
      destruct (walkFields _ fields [] st) as [v' st'|]; [|done].
      destruct Hall as (H1 & H2 & H3 & H4).
      assert (max_list_with (fun kv => stubLevels kv.2) fields
              ≤ maxDepth o - depth) by exact H3.
      apply existsb_guarded in H4. rewrite Hstrict in H4.
      repeat split; try done. lia.
    + destruct (isPlainObject (JObj proto fields)) eqn:Hplain;
        [|repeat split; lia].
      pose proof (walkFields_within des_functionCount (maxFunctions o)
        (maxDepth o - depth) (countStubs o) stubLevels rejected
        (fun x st' => deserializeTree rt o x (S depth) st') fields) as Hall.
      specialize (Hall ltac:(eapply Forall_impl; [exact IH|]; cbn beta;
        intros x Hx st' Hst'; by apply (Hx (S depth))) [] st Hst).
      destruct (walkFields _ fields [] st) as [v' st'|]; [|done].
      destruct Hall as (H1 & H2 & H3 & H4).
      assert (max_list_with (fun kv => stubLevels kv.2) fields
              ≤ maxDepth o - depth) by exact H3.
      repeat split; try done. lia.
Qed.
End DeserializeCaps.

(** The serializer touches the world only to draw ids, to allocate and to
    register the handlers that stand in for functions. *)
Section SerializeFrame.
Context {A : Type} (observe : World -> A).
Hypothesis observe_nextId : forall w, observe (set_nextId S w) = observe w.
Hypothesis observe_fresh : forall w, observe (set_fresh S w) = observe w.
Hypothesis observe_invokeHandlers :
  forall f w, observe (set_invokeHandlers f w) = observe w.
Hypothesis observe_listeners :
  forall f w, observe (set_listeners f w) = observe w.

Lemma on_observe id l w : observe (on id l w) = observe w.
Proof. unfold on. by destruct (decide _). Qed.

Lemma defineInvokeHandler_observe event h w :
  observe (defineInvokeHandler event h w).2 = observe w.
Proof.
  unfold defineInvokeHandler, allocate.
  destruct (lookupHandler h _); [done|]. cbn [snd].
  by rewrite !on_observe, observe_invokeHandlers, observe_fresh.
Qed.

Lemma serializeFunction_observe rt o f st :
  observe (ser_world (walkedState (serializeFunction rt o f st)))
  = observe (ser_world st).
Proof.
  unfold serializeFunction.
  destruct (maxFunctions o <=? ser_functionCount st); [done|].
  unfold drawId.
  pose proof (defineInvokeEventa_observe observe observe_nextId rt
    (Some (tagPrefix o +:+ nanoid rt (w_nextId (ser_world st))))
    (set_nextId S (ser_world st))) as H1.
  destruct (defineInvokeEventa rt _ _) as [event w2]. cbn [snd] in H1.
  unfold allocate.
  pose proof (defineInvokeHandler_observe event (HStub (w_fresh w2) f)
    (set_fresh S w2)) as H2.
  destruct (defineInvokeHandler event _ _) as [ih w4]. cbn [snd] in H2.
  cbn [walkedState ser_world].
  by rewrite H2, observe_fresh, H1, observe_nextId.
Qed.

Lemma serializeSeen_world input r :
  ser_world (walkedState (serializeSeen input r))
  = ser_world (walkedState r).
Proof. by destruct r. Qed.

Lemma serializeWalk_observe rt o v : forall depth st,
  observe (ser_world (walkedState (serializeWalk rt o v depth st)))
  = observe (ser_world st).
Proof.
  induction v as [| | | | | | | |items IH|proto fields IH]
    using JsVal_tree_ind; intros depth st; cbn [serializeWalk];
    try done; try (by destruct (maxDepth o <? depth)).
  - apply serializeFunction_observe.
  - destruct (maxDepth o <? depth); [done|].
    destruct (seenGet rt (JArr items) (ser_seen st)); [done|].
    rewrite serializeSeen_world.
    apply walkItems_observe. eapply Forall_impl; [exact IH|]. auto.
  - destruct (maxDepth o <? depth); [done|].
    destruct (seenGet rt (JObj proto fields) (ser_seen st)); [done|].
    destruct (isPlainObject (JObj proto fields)); [|done].
    rewrite serializeSeen_world.
    apply walkFields_observe. eapply Forall_impl; [exact IH|]. auto.
Qed.
End SerializeFrame.


(** * Worked examples *)

(** A runtime for the examples: ids are numbered, a function of the user
    returns its argument and throws on [null], a producer yields its
    argument twice, [String(v)] throws a TypeError for an object without
    prototype, which has no [toString], and no two places of a payload hold
    the same object. *)
Definition demoRuntime : Runtime :=
  mkRuntime (fun n => "call" +:+ pretty n)
            (fun f v => match v with
                        | JNull => ThrowsSync (JErr "Error" "no payload")
                        | _ => Returns v
                        end)
            (fun fn v => ([v; v], GenReturn))
            (fun v => match v with
                      | JStr s => Value s
                      | JObj PNull _ =>
                          Exception
                            (JErr "TypeError"
                                  "Cannot convert object to primitive value")
                      | _ => Value "reason"
                      end)
            true
            (fun _ => false).

Definition demoEvent : InvokeEventa := invokeEventaOf "demo".

(** A context with one unary server on the demo family. *)
Definition demoServer : World :=
  (defineInvokeHandler demoEvent (HUser 0) emptyWorld).2.

(** A send envelope whose body has an empty invokeId. *)
Definition demoAnonymous : Envelope :=
  mkEnvelope (sendEvent demoEvent) (Some (mkBody (Some "") (JNum 1) false))
             None.

Lemma server_ignores_envelope_without_invokeId_example :
  emit demoRuntime 2 demoAnonymous demoServer
  = set_emitted (fun l => l ++ [demoAnonymous]) demoServer.
Proof.
  apply server_ignores_envelope_without_invokeId.
  - right. exists (mkBody (Some "") (JNum 1) false). split; [reflexivity|].
    right. reflexivity.
  - vm_compute. repeat constructor.
Defined.

Lemma undefine_one_then_all_example :
  let r1 := defineInvokeHandler demoEvent (HUser 1) emptyWorld in
  let r2 := defineInvokeHandler demoEvent (HUser 2) r1.2 in
  let u1 := undefineInvokeHandler demoEvent (Some (HUser 1)) r2.2 in
  let u2 := undefineInvokeHandler demoEvent None u1.2 in
  u2.1 = false
  ∧ listenersOf (sendEvent demoEvent) u2.2
    = [LOnSend r2.1 demoEvent (HUser 2)].
Proof.
  destruct (undefine_one_then_all "demo" (HUser 1) (HUser 2) emptyWorld)
    as (_ & _ & _ & H4 & H5 & _).
  - discriminate.
  - reflexivity.
  - reflexivity.
  - reflexivity.
  - split; [exact H4|exact H5].
Defined.

(** A send-stream-end for a call the streaming server has not seen. *)
Definition demoStreamEnd : Envelope :=
  mkEnvelope (sendEventStreamEnd demoEvent)
             (Some (mkBody (Some "call0") JUndefined false)) None.

Lemma stream_server_ignores_end_without_controller_example :
  let w := (defineStreamInvokeHandler demoEvent 0 emptyWorld).2 in
  runListener demoRuntime (emit demoRuntime 1) (LServeStreamEnd 0)
    demoStreamEnd w = w
  ∧ runListener demoRuntime (emit demoRuntime 1) (LPlainServeStreamEnd 0)
      demoStreamEnd w = w.
Proof.
  apply (stream_server_ignores_end_without_controller demoRuntime
           (emit demoRuntime 1) 0 demoEvent 0 demoStreamEnd "call0").
  - reflexivity.
  - reflexivity.
  - discriminate.
Defined.




(** A context with one streaming server (stream.ts with cancellation). *)
Definition demoStreamServer : World :=
  (defineStreamInvokeHandler demoEvent 0 emptyWorld).2.

Definition demoAbort (reason : JsVal) : Envelope :=
  mkEnvelope (sendEventAbort demoEvent)
             (Some (mkBody (Some "call9") reason false)) None.

Lemma abort_before_handler_starts_example :
  let w' := emit demoRuntime 1 (demoAbort (JStr "stop")) demoStreamServer in
  w_abortReasons w' !! (0, "call9") = Some (JStr "stop")
  ∧ w_streams w' !! 1 = Some (erroredEmpty (JErr "AbortError" "stop"))
  ∧ w_streamStates w' !! (0, "call9") = None.
Proof.
  destruct (abort_before_handler_starts demoRuntime 0 "demo" 0
              (demoAbort (JStr "stop"))
              (mkBody (Some "call9") (JStr "stop") false)
              "call9" emptyWorld)
    as (_ & _ & _ & H1 & _ & _ & _ & _ & _ & _ & H2).
  - reflexivity.
  - reflexivity.
  - reflexivity.
  - reflexivity.
  - reflexivity.
  - reflexivity.
  - reflexivity.
  - reflexivity.
  - destruct H2 as (_ & H3 & _ & H4).
    split; [exact H1|]. split; [exact H3|exact H4].
Defined.

(** The failing input of C4: the reason of the abort is an object without
    prototype.  The server stashes it and starts the producer on a new
    input stream, but the listener throws before it errors the stream: the
    input stays readable and empty, and stays in the stream-state table. *)
Lemma abort_with_unprintable_reason_leaves_input_open :
  let w' := emit demoRuntime 1 (demoAbort (JObj PNull [])) demoStreamServer in
  createAbortError (jsString demoRuntime) (hasDOMException demoRuntime)
    (JObj PNull [])
  = Exception (JErr "TypeError" "Cannot convert object to primitive value")
  ∧ w_calls w'
    = [mkHandlerCall (StreamProducer 0) (JStream 1) None (Some 2)]
  ∧ w_streams w' !! 1 = Some newStream
  ∧ streamRead newStream = (Pending, newStream)
  ∧ w_streamStates w' !! (0, "call9") = Some 1.
Proof. vm_compute. repeat split. Qed.

(** A context with one streaming server and the caller's signal 0. *)
Definition demoSignal : World :=
  set_signals (fun m => <[0 := mkSignal false JUndefined []]> m)
    demoStreamServer.

(** A streaming call on that context, made with signal 0. *)
Definition demoSignalled : StreamCall * World :=
  streamInvoke demoRuntime 1 demoEvent (JNum 1) (Some 0) None demoSignal.

Lemma tripped_signal_tears_stream_call_down_example :
  let k := demoSignalled.1 in
  let w' := abortSignal demoRuntime 1 0 (JStr "stop") demoSignalled.2 in
  let err := JErr "AbortError" "stop" in
  w_signals demoSignalled.2 !! 0 = Some (mkSignal false JUndefined [k])
  ∧ (exists before after,
       w_emitted w'
       = w_emitted demoSignalled.2
         ++ before ++ abortEnvelope k (JStr "stop") :: after)
  ∧ (exists s', w_streams w' !! sc_stream k = Some s'
       ∧ streamEnd s' = EndsRaising err
       ∧ streamRead s' = (Raise err, s'))
  ∧ Forall (fun x => unheard x (foldl (play demoRuntime 1) w' [ETick; ETick]))
           (perCallIds k).
Proof.
  destruct (tripped_signal_tears_stream_call_down demoRuntime 0 "demo" 0 0
              (JNum 1) 0 (JStr "stop") JUndefined [] None demoSignal)
    as (_ & _ & H1 & H2 & _ & H3 & H4).
  - vm_compute. discriminate.
  - reflexivity.
  - vm_compute. repeat constructor.
  - vm_compute. repeat constructor.
  - intros key c Hc. exfalso.
    assert (w_streamStates demoSignal = ∅) as Hempty
      by (vm_compute; reflexivity).
    rewrite Hempty in Hc. exact (lookup_empty_Some _ _ Hc).
  - reflexivity.
  - constructor.
  - destruct (H4 [ETick; ETick]) as [H5 _].
    split; [exact H1|]. split; [exact H2|]. split; [exact H3|exact H5].
Defined.

(** The failing input of C3: the signal trips with an object without
    prototype as its reason.  The client emits send-abort, and the callback
    throws before it errors the response stream or removes a listener: the
    stream stays readable and the three per-call listeners stay. *)
Lemma trip_with_unprintable_reason_leaves_call_open :
  let k := demoSignalled.1 in
  let w' := abortSignal demoRuntime 1 0 (JObj PNull []) demoSignalled.2 in
  w_emitted w'
  = w_emitted demoSignalled.2 ++ [abortEnvelope k (JObj PNull [])]
  ∧ w_streams w' !! sc_stream k = Some newStream
  ∧ listenersOf (perCall (receiveEvent demoEvent) (sc_id k)) w'
    = [LStreamReceive k]
  ∧ listenersOf (perCall (receiveEventError demoEvent) (sc_id k)) w'
    = [LStreamReceiveError k]
  ∧ listenersOf (perCall (receiveEventStreamEnd demoEvent) (sc_id k)) w'
    = [LStreamReceiveStreamEnd k].
Proof. vm_compute. repeat split. Qed.

(** A request with an array and a function in it. *)
Definition demoPayload : JsVal :=
  JObj PObject [("list", JArr []); ("helper", JFun (FUser 0))].

(** A request whose keys name the prototype chain. *)
Definition demoHostile : JsVal :=
  JObj PObject [("__proto__", JObj PObject [("test", JStr "value")]);
                ("constructor", JObj PObject [("prototype", JNum 1)])].

Lemma walks_rebuild_mappings_without_prototype_example :
  serializeInvokeFunctionPayload demoRuntime
    (DEFAULT_FUNCTION_STUB_OPTIONS true) demoHostile emptyWorld
  = WOk (JObj PNull [("__proto__", JObj PNull [("test", JStr "value")]);
                     ("constructor", JObj PNull [("prototype", JNum 1)])])
        (mkSerializeState 0
           [(demoHostile,
             JObj PNull [("__proto__", JObj PNull [("test", JStr "value")]);
                         ("constructor",
                          JObj PNull [("prototype", JNum 1)])]);
            (JObj PObject [("prototype", JNum 1)],
             JObj PNull [("prototype", JNum 1)]);
            (JObj PObject [("test", JStr "value")],
             JObj PNull [("test", JStr "value")])]
           [] emptyWorld)
  ∧ returns (fun v' => mappingsRebuilt v' = true)
      (serializeInvokeFunctionPayload demoRuntime
         (DEFAULT_FUNCTION_STUB_OPTIONS true) demoHostile emptyWorld)
  ∧ returns (fun v' => mappingsRebuilt v' = true)
      (deserializeInvokeFunctionPayload demoRuntime
         (DEFAULT_FUNCTION_STUB_OPTIONS true) demoHostile emptyWorld)
  ∧ returns (keysKept (fun _ => false) demoHostile)
      (serializeInvokeFunctionPayload demoRuntime
         (DEFAULT_FUNCTION_STUB_OPTIONS true) demoHostile emptyWorld)
  ∧ returns (keysKept isInvokeFunctionStubPayload demoHostile)
      (deserializeInvokeFunctionPayload demoRuntime
         (DEFAULT_FUNCTION_STUB_OPTIONS true) demoHostile emptyWorld).
Proof.
  split; [reflexivity|].
  destruct (walks_rebuild_mappings_without_prototype demoRuntime
              (DEFAULT_FUNCTION_STUB_OPTIONS true) demoHostile emptyWorld
              eq_refl) as (H1 & H2 & H3).
  destruct (H3 eq_refl) as [H4 H5]. repeat split; assumption.
Defined.

(** The output of the serializer reaches [Array.prototype] through the
    array it rebuilt and [Object.prototype] through the stub descriptor it
    put in place of the function. *)
Lemma serialized_payload_reaches_prototypes :
  exists out st,
    serializeInvokeFunctionPayload demoRuntime
      (DEFAULT_FUNCTION_STUB_OPTIONS true) demoPayload emptyWorld
    = WOk out st
    ∧ prototypes out = [PNull; PArray; PObject; PObject]
    ∧ ¬ Forall (fun p => p = PNull) (prototypes out).
Proof.
  eexists _, _. split; [vm_compute; reflexivity|].
  split; [reflexivity|].
  intros H. apply Forall_cons in H as [_ H].
  apply Forall_cons in H as [H _]. discriminate.
Qed.

(** Options that allow one function or stub. *)
Definition demoOneFunction : StubOptions :=
  {| allow := true; maxDepth := 32; maxFunctions := 1;
     tagPrefix := "eventa-invoke-fn-"; onDisallowedTag := Ignore;
     autoDisposeMs := 0; strict := false |}.


(** A runtime in which equal arrays and equal plain objects of a payload
    are one object. *)
Definition demoSharingRuntime : Runtime :=
  mkRuntime (nanoid demoRuntime) (userFn demoRuntime) (producer demoRuntime)
            (jsString demoRuntime) (hasDOMException demoRuntime)
            (fun _ => true).

(** An object that is shared is walked once: with a cap of one function,
    the payload [{a: o, b: o}] where [o] is [{f}] is serialized, the second
    place holding what the first was given; were the two places to hold two
    objects, the second function would be over the cap. *)
Lemma shared_object_is_walked_once :
  let o := JObj PObject [("f", JFun (FUser 0))] in
  let v := JObj PObject [("a", o); ("b", o)] in
  maxFunctions demoOneFunction < countFunctions v
  ∧ (exists stub st,
       serializeInvokeFunctionPayload demoSharingRuntime demoOneFunction v
         emptyWorld
       = WOk (JObj PNull [("a", JObj PNull [("f", stub)]);
                          ("b", JObj PNull [("f", stub)])]) st
       ∧ ser_functionCount st = 1)
  ∧ throws (serializeInvokeFunctionPayload demoRuntime demoOneFunction v
              emptyWorld).
Proof.
  split; [vm_compute; lia|]. split; [|by vm_compute].
  eexists _, _. split; [vm_compute; reflexivity|reflexivity].
Qed.

(** * Further properties *)

(** ** invoke-shared.ts: the descriptors of a family *)

(** X1.  Whatever the tag, the seven descriptors [defineInvokeEventa]
    builds are pairwise distinct; so are the three per-call response
    descriptors of one call, none of which is a descriptor the server
    listens on; and a per-call descriptor determines its invokeId. *)
Theorem family_descriptors_distinct tag :
  let event := invokeEventaOf tag in
  NoDup [sendEvent event; sendEventError event; sendEventStreamEnd event;
         sendEventAbort event; receiveEvent event; receiveEventError event;
         receiveEventStreamEnd event]
  ∧ (forall id,
       NoDup [perCall (receiveEvent event) id;
              perCall (receiveEventError event) id;
              perCall (receiveEventStreamEnd event) id;
              sendEvent event; sendEventStreamEnd event; sendEventAbort event])
  ∧ (forall base id1 id2, perCall base id1 = perCall base id2 -> id1 = id2).
Proof.
  intros event. split; [|split].
  - repeat (apply NoDup_cons; split;
              [rewrite ?elem_of_cons, elem_of_nil;
               intros H; repeat destruct H as [H|H]; try done;
               revert H; family_ne|]).
    apply NoDup_nil_2.
  - intros id.
    repeat (apply NoDup_cons; split;
              [rewrite ?elem_of_cons, elem_of_nil;
               intros H; repeat destruct H as [H|H]; try done;
               revert H; family_ne|]).
    apply NoDup_nil_2.
  - intros base id1 id2. unfold perCall. rewrite <- !append_assoc.
    by intros H%(inj _).
Qed.

(** ** utils.ts: createAbortError and isAbortError *)


(** ** context-extension-invoke-internal.ts *)

(** X3.  Registering a fatal source records it in the configuration the
    context carries, after the sources recorded before, which all stay;
    a source that is recorded already is not recorded again, so registering
    twice is registering once, and a list without repetition stays one. *)
Theorem registerInvokeAbortEventListeners_records source w :
  let before := default [] (getContextExtensionInvokeInternalConfig w) in
  let r := registerInvokeAbortEventListeners source w in
  getContextExtensionInvokeInternalConfig r.2 = Some r.1
  ∧ source ∈ r.1
  ∧ (exists added, r.1 = before ++ added
                   ∧ (added = [] ∨ added = [source] ∧ source ∉ before))
  ∧ registerInvokeAbortEventListeners source r.2 = r
  ∧ (NoDup before -> NoDup r.1).
Proof.
  intros before r.
  unfold r, registerInvokeAbortEventListeners,
    getContextExtensionInvokeInternalConfig in *.
  fold before. cbn [fst snd]. fields. cbn [default].
  destruct (decide (source ∈ before)) as [Hin|Hnotin].
  - split; [done|]. split; [done|]. split.
    { exists []. split; [by rewrite app_nil_r|by left]. }
    rewrite decide_True by done. done.
  - split; [done|]. split; [apply elem_of_app; right; by left|]. split.
    { exists [source]. split; [done|by right]. }
    rewrite decide_True by (apply elem_of_app; right; by left).
    split; [done|]. intros Hnd. apply NoDup_app. split; [done|].
    split; [|apply NoDup_singleton].
    intros x Hx ->%list_elem_of_singleton. done.
Qed.

(** ** invoke.ts: the registry of handlers and the bus *)

Definition sendListener (event : InvokeEventa) (entry : Handler * nat)
    : Listener :=
  LOnSend entry.2 event entry.1.

Definition streamEndListener (event : InvokeEventa) (entry : Handler * nat)
    : Listener :=
  LOnSendStreamEnd entry.2 event entry.1.

(** The family's entry of [ctx.invokeHandlers] and the listeners on its two
    server descriptors tell the same story: one pair of listeners per
    registered handler, in registration order. *)
Definition inSync (event : InvokeEventa) (w : World) : Prop :=
  listenersOf (sendEvent event) w
  = sendListener event <$> registered event w
  ∧ listenersOf (sendEventStreamEnd event) w
    = streamEndListener event <$> registered event w.

Lemma lookupHandler_None h entries :
  lookupHandler h entries = None <-> h ∉ entries.*1.
Proof.
  induction entries as [|[h' ih] entries IH]; cbn [lookupHandler].
  - split; [intros _; apply not_elem_of_nil|done].
  - rewrite fmap_cons, not_elem_of_cons. cbn [fst].
    destruct (decide (h = h')) as [->|Hne]; [split; [done|by intros [? _]]|].
    rewrite IH. tauto.
Qed.

Lemma lookupHandler_Some h ih entries :
  lookupHandler h entries = Some ih -> (h, ih) ∈ entries.
Proof.
  induction entries as [|[h' ih'] entries IH]; cbn [lookupHandler]; [done|].
  destruct (decide (h = h')) as [->|Hne].
  - intros [= ->]. by left.
  - intros H. right. auto.
Qed.

Lemma lookupHandler_app h ih entries :
  lookupHandler h entries = None ->
  lookupHandler h (entries ++ [(h, ih)]) = Some ih.
Proof.
  induction entries as [|[h' ih'] entries IH]; cbn [lookupHandler app].
  - by rewrite decide_True.
  - destruct (decide (h = h')); [done|]. auto.
Qed.

Lemma registered_on id l event w :
  registered event (on id l w) = registered event w.
Proof. unfold registered. by rewrite on_invokeHandlers. Qed.

Lemma registered_define event h w :
  registered event (defineInvokeHandler event h w).2
  = match lookupHandler h (registered event w) with
    | Some _ => registered event w
    | None => registered event w ++ [(h, w_fresh w)]
    end.
Proof.
  unfold defineInvokeHandler. fold (registered event w).
  destruct (lookupHandler h (registered event w)); [done|].
  unfold allocate. cbn [snd]. rewrite !registered_on.
  unfold registered. fields. by rewrite lookup_insert_eq.
Qed.

(** A handler is found in its family's entry once it is registered. *)
Lemma defineInvokeHandler_found event h w :
  lookupHandler h (registered event (defineInvokeHandler event h w).2)
  = Some (defineInvokeHandler event h w).1.
Proof.
  rewrite registered_define. unfold defineInvokeHandler.
  fold (registered event w).
  destruct (lookupHandler h (registered event w)) as [ih|] eqn:Hh; [done|].
  unfold allocate. cbn [fst]. by apply lookupHandler_app.
Qed.

(** X4.  Registering a handler a second time on a family changes nothing:
    the same internal handler is returned and the context is as the first
    registration left it, so the handler still runs once per invoke. *)
Theorem defineInvokeHandler_twice event h w :
  let r := defineInvokeHandler event h w in
  defineInvokeHandler event h r.2 = r
  ∧ lookupHandler h (registered event r.2) = Some r.1.
Proof.
  intros r.
  pose proof (defineInvokeHandler_found event h w) as Hfound. fold r in Hfound.
  split; [|done].
  unfold defineInvokeHandler at 1. fold (registered event r.2).
  rewrite Hfound. by destruct r.
Qed.

Lemma inSync_define tag h w :
  inSync (invokeEventaOf tag) w ->
  inSync (invokeEventaOf tag) (defineInvokeHandler (invokeEventaOf tag) h w).2.
Proof.
  set (event := invokeEventaOf tag). intros [Hs He].
  pose proof (send_ne_streamEnd tag) as Hids. fold event in Hids.
  unfold inSync. rewrite registered_define.
  unfold defineInvokeHandler. fold (registered event w).
  destruct (lookupHandler h (registered event w)) as [ih|] eqn:Hh; [done|].
  apply lookupHandler_None in Hh.
  unfold allocate. cbn [snd]. rewrite !fmap_app. cbn [fmap list_fmap].
  split.
  - rewrite listenersOf_on_ne by done. rewrite listenersOf_on.
    rewrite decide_False; [by rewrite <- Hs|].
    change (listenersOf (sendEvent event) (set_invokeHandlers _ _))
      with (listenersOf (sendEvent event) w).
    rewrite Hs. intros ([h' ih'] & [= <- <-] & Hin)%list_elem_of_fmap.
    apply Hh. apply list_elem_of_fmap. by exists (h, w_fresh w).
  - rewrite listenersOf_on.
    rewrite listenersOf_on_ne by done.
    change (listenersOf (sendEventStreamEnd event) (set_invokeHandlers _ _))
      with (listenersOf (sendEventStreamEnd event) w).
    rewrite decide_False; [by rewrite <- He|].
    rewrite He. intros ([h' ih'] & [= <- <-] & Hin)%list_elem_of_fmap.
    apply Hh. apply list_elem_of_fmap. by exists (h, w_fresh w).
Qed.

Lemma listenersOf_dispose_send tag h ih w :
  let event := invokeEventaOf tag in
  listenersOf (sendEvent event) (dispose event h ih w)
  = filter (fun l => l ≠ LOnSend ih event h) (listenersOf (sendEvent event) w).
Proof.
  intros event. pose proof (send_ne_streamEnd tag) as Hids.
  fold event in Hids. unfold dispose.
  rewrite listenersOf_offListener_ne by done.
  apply listenersOf_offListener.
Qed.

Lemma listenersOf_dispose_streamEnd tag h ih w :
  let event := invokeEventaOf tag in
  listenersOf (sendEventStreamEnd event) (dispose event h ih w)
  = filter (fun l => l ≠ LOnSendStreamEnd ih event h)
           (listenersOf (sendEventStreamEnd event) w).
Proof.
  intros event. pose proof (send_ne_streamEnd tag) as Hids.
  fold event in Hids. unfold dispose.
  rewrite listenersOf_offListener.
  by rewrite listenersOf_offListener_ne.
Qed.

Lemma filter_ne_idem {A} `{EqDecision A} (x : A) (l : list A) :
  filter (fun y => y ≠ x) (filter (fun y => y ≠ x) l)
  = filter (fun y => y ≠ x) l.
Proof.
  induction l as [|y l IH]; [done|].
  rewrite (filter_cons (fun y => y ≠ x) y l).
  destruct (decide (y ≠ x)) as [Hy|Hy]; [|done].
  by rewrite filter_cons_True, IH.
Qed.

Lemma filter_ne_snoc {A} `{EqDecision A} (x : A) (l : list A) :
  filter (fun y => y ≠ x) (l ++ [x]) = filter (fun y => y ≠ x) l.
Proof.
  rewrite filter_app, filter_cons_False by (intros H; by apply H).
  by rewrite filter_nil, app_nil_r.
Qed.

Lemma listenersOf_define_send tag h w :
  let event := invokeEventaOf tag in
  let r := defineInvokeHandler event h w in
  filter (fun l => l ≠ LOnSend r.1 event h) (listenersOf (sendEvent event) r.2)
  = filter (fun l => l ≠ LOnSend r.1 event h) (listenersOf (sendEvent event) w).
Proof.
  intros event r. pose proof (send_ne_streamEnd tag) as Hids.
  fold event in Hids. unfold r, defineInvokeHandler.
  destruct (lookupHandler h _); [done|]. unfold allocate. cbn [fst snd].
  rewrite listenersOf_on_ne by done. rewrite listenersOf_on.
  change (listenersOf (sendEvent event) (set_invokeHandlers _ _))
    with (listenersOf (sendEvent event) w).
  case_decide; [done|]. apply filter_ne_snoc.
Qed.

Lemma listenersOf_define_streamEnd tag h w :
  let event := invokeEventaOf tag in
  let r := defineInvokeHandler event h w in
  filter (fun l => l ≠ LOnSendStreamEnd r.1 event h)
         (listenersOf (sendEventStreamEnd event) r.2)
  = filter (fun l => l ≠ LOnSendStreamEnd r.1 event h)
           (listenersOf (sendEventStreamEnd event) w).
Proof.
  intros event r. pose proof (send_ne_streamEnd tag) as Hids.
  fold event in Hids. unfold r, defineInvokeHandler.
  destruct (lookupHandler h _); [done|]. unfold allocate. cbn [fst snd].
  rewrite listenersOf_on. rewrite listenersOf_on_ne by done.
  change (listenersOf (sendEventStreamEnd event) (set_invokeHandlers _ _))
    with (listenersOf (sendEventStreamEnd event) w).
  case_decide; [done|]. apply filter_ne_snoc.
Qed.

Lemma registered_dispose event h ih w :
  registered event (dispose event h ih w) = registered event w.
Proof. done. Qed.

Lemma undefine_all_result event w :
  (undefineInvokeHandler event None w).1
  = match registered event w with [] => false | _ => true end.
Proof.
  unfold undefineInvokeHandler, registered.
  destruct (w_invokeHandlers w) as [registry|];
    [|cbn [default]; by rewrite lookup_empty].
  change (default ∅ (Some registry)) with registry.
  by destruct (registry !! sendEvent event) as [handlers|].
Qed.

(** X5.  The disposer [defineInvokeHandler] returns takes the handler's
    two listeners off the bus and nothing else: every other listener stays,
    and so does the handler's entry in [ctx.invokeHandlers].  Registering
    the same handler again therefore finds the entry and registers nothing,
    so the handler stays off the bus; and removing all handlers of the
    family afterwards still reports a removal. *)
Theorem disposer_keeps_registry_entry tag h w :
  let event := invokeEventaOf tag in
  let r := defineInvokeHandler event h w in
  let w' := dispose event h r.1 r.2 in
  listenersOf (sendEvent event) w'
  = filter (fun l => l ≠ LOnSend r.1 event h)
           (listenersOf (sendEvent event) w)
  ∧ listenersOf (sendEventStreamEnd event) w'
    = filter (fun l => l ≠ LOnSendStreamEnd r.1 event h)
             (listenersOf (sendEventStreamEnd event) w)
  ∧ lookupHandler h (registered event w') = Some r.1
  ∧ defineInvokeHandler event h w' = (r.1, w')
  ∧ ¬ (sendListener event (h, r.1) ∈ listenersOf (sendEvent event) w')
  ∧ (undefineInvokeHandler event None w').1 = true.
Proof.
  intros event r w'.
  pose proof (defineInvokeHandler_found event h w) as Hfound.
  fold r in Hfound.
  assert (listenersOf (sendEvent event) w'
          = filter (fun l => l ≠ LOnSend r.1 event h)
                   (listenersOf (sendEvent event) w)) as Hs.
  { unfold w', event. rewrite listenersOf_dispose_send.
    apply listenersOf_define_send. }
  split; [done|]. split.
  { unfold w', event. rewrite listenersOf_dispose_streamEnd.
    apply listenersOf_define_streamEnd. }
  split; [done|]. split.
  { unfold defineInvokeHandler. fold (registered event w').
    unfold w'. rewrite registered_dispose. by rewrite Hfound. }
  split.
  { rewrite Hs. intros [Hne _]%list_elem_of_filter. by apply Hne. }
  rewrite undefine_all_result. unfold w'. rewrite registered_dispose.
  by destruct (registered event r.2).
Qed.


Lemma filter_all {A} (P : A -> Prop) `{forall x, Decision (P x)}
    (l : list A) :
  (forall x, P x) -> filter P l = l.
Proof.
  intros HP. induction l as [|x l IH]; [done|].
  by rewrite filter_cons_True, IH.
Qed.

Lemma filter_none {A} (P : A -> Prop) `{forall x, Decision (P x)}
    (l : list A) :
  (forall x, x ∈ l -> ¬ P x) -> filter P l = [].
Proof.
  induction l as [|x l IH]; intros HP; [done|].
  rewrite filter_cons_False by (apply HP; by left).
  apply IH. intros y Hy. apply HP. by right.
Qed.

Lemma filter_filter_ne {A} `{EqDecision A} (x : A) (xs l : list A) :
  filter (fun y => y ∉ xs) (filter (fun y => y ≠ x) l)
  = filter (fun y => y ∉ x :: xs) l.
Proof.
  induction l as [|y l IH]; [done|].
  rewrite (filter_cons (fun y => y ≠ x) y l),
    (filter_cons (fun y => y ∉ x :: xs) y l).
  destruct (decide (y ≠ x)) as [Hy|Hy].
  - rewrite (filter_cons (fun y => y ∉ xs) y _), IH.
    destruct (decide (y ∉ xs)) as [Hxs|Hxs].
    + rewrite decide_True; [done|]. rewrite not_elem_of_cons. done.
    + rewrite decide_False; [done|]. rewrite not_elem_of_cons. tauto.
  - rewrite IH. rewrite decide_False; [done|].
    rewrite not_elem_of_cons. tauto.
Qed.

Lemma listenersOf_disposeAll tag entries : forall w,
  let event := invokeEventaOf tag in
  let w' := foldl (fun w' '(h, ih) => dispose event h ih w') w entries in
  listenersOf (sendEvent event) w'
  = filter (fun l => l ∉ sendListener event <$> entries)
           (listenersOf (sendEvent event) w)
  ∧ listenersOf (sendEventStreamEnd event) w'
    = filter (fun l => l ∉ streamEndListener event <$> entries)
             (listenersOf (sendEventStreamEnd event) w).
Proof.
  induction entries as [|[h ih] entries IH]; intros w event; cbn [foldl].
  - cbn [fmap list_fmap].
    split; symmetry; apply filter_all; intros; apply not_elem_of_nil.
  - destruct (IH (dispose event h ih w)) as [IHs IHe]. fold event in IHs, IHe.
    cbn zeta. rewrite IHs, IHe. unfold event.
    rewrite listenersOf_dispose_send, listenersOf_dispose_streamEnd.
    rewrite !filter_filter_ne. done.
Qed.

(** X6.  [undefineInvokeHandler] without a handler takes the listeners of
    every handler the family's entry holds off the two server descriptors
    and leaves every other listener; it drops the entry, and reports whether
    the entry held a handler, so a second call reports false.  When the
    entry and the bus agree, as after any sequence of registrations on a
    family nothing else listens on, nothing is left listening. *)
Theorem undefine_all_removes_every_handler tag w :
  let event := invokeEventaOf tag in
  let u := undefineInvokeHandler event None w in
  u.1 = match registered event w with [] => false | _ => true end
  ∧ listenersOf (sendEvent event) u.2
    = filter (fun l => l ∉ sendListener event <$> registered event w)
             (listenersOf (sendEvent event) w)
  ∧ listenersOf (sendEventStreamEnd event) u.2
    = filter (fun l => l ∉ streamEndListener event <$> registered event w)
             (listenersOf (sendEventStreamEnd event) w)
  ∧ registered event u.2 = []
  ∧ (undefineInvokeHandler event None u.2).1 = false
  ∧ (inSync event w ->
     listenersOf (sendEvent event) u.2 = []
     ∧ listenersOf (sendEventStreamEnd event) u.2 = []).
Proof.
  intros event u.
  assert (listenersOf (sendEvent event) u.2
          = filter (fun l => l ∉ sendListener event <$> registered event w)
                   (listenersOf (sendEvent event) w)
          ∧ listenersOf (sendEventStreamEnd event) u.2
            = filter (fun l => l ∉ streamEndListener event
                                     <$> registered event w)
                     (listenersOf (sendEventStreamEnd event) w)
          ∧ registered event u.2 = []) as (Hs & He & Hreg).
  { unfold u, undefineInvokeHandler.
    destruct (w_invokeHandlers w) as [registry|] eqn:Hregistry.
    - destruct (registry !! sendEvent event) as [handlers|] eqn:Hfam.
      + assert (registered event w = handlers) as ->.
        { unfold registered. rewrite Hregistry.
          change (default ∅ (Some registry)) with registry.
          by rewrite Hfam. }
        cbn [snd].
        destruct (listenersOf_disposeAll tag handlers w) as [H1 H2].
        fold event in H1, H2. cbn zeta in H1, H2.
        split; [exact H1|]. split; [exact H2|].
        unfold registered. fields.
        change (default ∅ (Some ?m)) with m.
        by rewrite lookup_delete_eq.
      + assert (registered event w = []) as Hnone.
        { unfold registered. rewrite Hregistry.
          change (default ∅ (Some registry)) with registry.
          by rewrite Hfam. }
        cbn [snd]. rewrite Hnone. cbn [fmap list_fmap].
        repeat split; try done; symmetry; apply filter_all; intros;
          apply not_elem_of_nil.
    - assert (registered event w = []) as Hnone.
      { unfold registered. rewrite Hregistry. cbn [default].
        by rewrite lookup_empty. }
      cbn [snd]. rewrite Hnone. cbn [fmap list_fmap].
      repeat split; try done; symmetry; apply filter_all; intros;
        apply not_elem_of_nil. }
  split; [apply undefine_all_result|]. split; [done|]. split; [done|].
  split; [done|]. split.
  { rewrite undefine_all_result. by rewrite Hreg. }
  intros [Is Ie]. rewrite Hs, He, Is, Ie.
  split; apply filter_none; intros l Hl Hnot; by apply Hnot.
Qed.

(** ** invoke.ts: defineInvokeHandlers *)

Lemma registered_define_other event event' h w :
  sendEvent event' ≠ sendEvent event ->
  registered event (defineInvokeHandler event' h w).2 = registered event w.
Proof.
  intros Hne. unfold defineInvokeHandler.
  destruct (lookupHandler h _); [done|]. unfold allocate. cbn [snd].
  rewrite !registered_on. unfold registered. fields. cbn [default].
  by rewrite lookup_insert_ne.
Qed.

Lemma lookupHandler_app_Some h ih entries more :
  lookupHandler h entries = Some ih ->
  lookupHandler h (entries ++ more) = Some ih.
Proof.
  induction entries as [|[h' ih'] entries IH]; cbn [lookupHandler app];
    [done|].
  destruct (decide (h = h')); [done|]. auto.
Qed.

(** A registration is never undone by a later one. *)
Lemma registered_define_mono event event' h h' ih w :
  lookupHandler h (registered event w) = Some ih ->
  lookupHandler h (registered event (defineInvokeHandler event' h' w).2)
  = Some ih.
Proof.
  intros Hh. destruct (decide (sendEvent event' = sendEvent event)) as [He|He].
  - assert (forall W, registered event W = registered event' W) as Hsame.
    { intros W. unfold registered. by rewrite He. }
    rewrite Hsame, registered_define, <- Hsame.
    destruct (lookupHandler h' (registered event w)); [done|].
    by apply lookupHandler_app_Some.
  - by rewrite registered_define_other.
Qed.

Lemma assignDisposer_prototype disposer returnValues :
  assignDisposer "__proto__" disposer returnValues
  = mkDisposerRecord (Some disposer) (dr_own returnValues).
Proof. done. Qed.

Lemma assignDisposer_own key disposer returnValues :
  key ≠ "__proto__" ->
  key ∉ (dr_own returnValues).*1 ->
  assignDisposer key disposer returnValues
  = mkDisposerRecord (dr_prototype returnValues)
                     (dr_own returnValues ++ [(key, disposer)]).
Proof.
  intros Hne Hnew. unfold assignDisposer, assignProperty.
  rewrite (proj2 (String.eqb_neq key "__proto__")) by done.
  cbn [andb]. by rewrite setOwn_new.
Qed.

Lemma propertyOf_app {A} key (v : A) o more :
  propertyOf key o = Some v -> propertyOf key (o ++ more) = Some v.
Proof.
  induction o as [|[k v'] o IH]; cbn [propertyOf app]; [done|].
  destruct (String.eqb key k); [done|]. auto.
Qed.

Lemma propertyOf_snoc {A} key (v : A) o :
  key ∉ o.*1 -> propertyOf key (o ++ [(key, v)]) = Some v.
Proof.
  induction o as [|[k v'] o IH]; cbn [propertyOf app].
  - by rewrite String.eqb_refl.
  - rewrite fmap_cons, not_elem_of_cons. cbn [fst]. intros [Hne Hnotin].
    rewrite (proj2 (String.eqb_neq key k)) by done. auto.
Qed.

Lemma propertyOf_elem {A} key (o : list (string * A)) :
  key ∈ o.*1 -> exists v, propertyOf key o = Some v.
Proof.
  induction o as [|[k v'] o IH]; cbn [propertyOf].
  - by intros ?%elem_of_nil.
  - rewrite fmap_cons, elem_of_cons. cbn [fst].
    destruct (String.eqb key k) eqn:Hk; [by eexists|].
    apply String.eqb_neq in Hk. intros [?|?]; [done|auto].
Qed.

Lemma propertyOf_key {A} key (v : A) (o : list (string * A)) :
  propertyOf key o = Some v -> key ∈ o.*1.
Proof.
  induction o as [|[k v'] o IH]; cbn [propertyOf]; [done|].
  rewrite fmap_cons. cbn [fst].
  destruct (String.eqb key k) eqn:Hk.
  - apply String.eqb_eq in Hk as ->. by left.
  - right. auto.
Qed.

(** The keys match: under distinct keys, the two objects have the same
    keys, in whatever order. *)
Lemma keys_match (eventKeys handlerKeys : list string) :
  NoDup eventKeys -> NoDup handlerKeys ->
  negb (length eventKeys =? length (remove_dups handlerKeys))
  || negb (forallb (fun key => bool_decide (key ∈ remove_dups handlerKeys))
                   eventKeys) = false
  <-> eventKeys ≡ₚ handlerKeys.
Proof.
  intros He Hh.
  assert (remove_dups handlerKeys ≡ₚ handlerKeys) as Hdedup.
  { apply NoDup_Permutation; [apply NoDup_remove_dups|done|].
    intros x. apply elem_of_remove_dups. }
  rewrite orb_false_iff, !negb_false_iff, Nat.eqb_eq, forallb_forall.
  split.
  - intros [Hlen Hall]. rewrite <- Hdedup.
    apply submseteq_length_Permutation; [|by rewrite Hlen].
    apply NoDup_submseteq; [done|]. intros x Hx.
    apply list_elem_of_In in Hx. apply Hall in Hx.
    by apply bool_decide_eq_true in Hx.
  - intros Hperm. split.
    + by rewrite Hdedup, Hperm.
    + intros x Hx. apply bool_decide_eq_true.
      rewrite Hdedup, <- Hperm. by apply list_elem_of_In.
Qed.

(** The keys that become own properties of the record: all but
    [__proto__], which on an object literal names the accessor of
    [Object.prototype]. *)
Definition ownKeys (keys : list string) : list string :=
  filter (fun key => key ≠ "__proto__") keys.

Section DefineInvokeHandlers.
Variables (events : list (string * InvokeEventa))
          (handlers : list (string * Handler)).

(** Where the disposer of [key] is found in the record. *)
Definition disposerOf (key : string) (returnValues : DisposerRecord)
    : option Disposer :=
  if String.eqb key "__proto__" then dr_prototype returnValues
  else propertyOf key (dr_own returnValues).

(** The disposers returned so far and the registry agree on the keys
    [done]. *)
Definition registeredUpTo (done : list string)
    (state : DisposerRecord * World) : Prop :=
  (dr_own state.1).*1 = ownKeys done
  ∧ ("__proto__" ∉ done -> dr_prototype state.1 = None)
  ∧ forall key event h,
      key ∈ done ->
      propertyOf key events = Some event ->
      propertyOf key handlers = Some h ->
      exists ih,
        lookupHandler h (registered event state.2) = Some ih
        ∧ disposerOf key state.1 = Some (mkDisposer event h ih).

Lemma defineInvokeHandlers_loop keys : forall done state,
  NoDup (done ++ keys) ->
  Forall (fun key => key ∈ events.*1 ∧ key ∈ handlers.*1) keys ->
  registeredUpTo done state ->
  registeredUpTo (done ++ keys)
    (foldl (fun '(returnValues, w') key =>
              match propertyOf key events, propertyOf key handlers with
              | Some event, Some h =>
                  let (ih, w'') := defineInvokeHandler event h w' in
                  (assignDisposer key (mkDisposer event h ih) returnValues,
                   w'')
              | _, _ => (returnValues, w')
              end) state keys).
Proof.
  induction keys as [|key keys IH]; intros done [rv w] Hnd Hkeys Hinv;
    cbn [foldl].
  { by rewrite app_nil_r. }
  apply Forall_cons in Hkeys as [[Hke Hkh] Hkeys].
  destruct (propertyOf_elem key events Hke) as [event Hevent].
  destruct (propertyOf_elem key handlers Hkh) as [h Hh].
  rewrite Hevent, Hh.
  pose proof (defineInvokeHandler_found event h w) as Hfound.
  destruct (defineInvokeHandler event h w) as [ih w1] eqn:Hdef.
  cbn [fst snd] in Hfound.
  replace (done ++ key :: keys) with ((done ++ [key]) ++ keys)
    by (by rewrite <- app_assoc).
  apply IH; [by rewrite <- app_assoc|done|].
  destruct Hinv as (Hrv & Hproto & Hall). cbn [fst snd] in *.
  assert (key ∉ done) as Hfresh.
  { apply NoDup_app in Hnd as (_ & Hdisj & _).
    intros Hin. apply (Hdisj key Hin). by left. }
  assert (forall event' h' ih',
            lookupHandler h' (registered event' w) = Some ih' ->
            lookupHandler h' (registered event' w1) = Some ih') as Hmono.
  { intros event' h' ih' H.
    replace w1 with (defineInvokeHandler event h w).2 by (by rewrite Hdef).
    by apply registered_define_mono. }
  unfold registeredUpTo, ownKeys. cbn [fst snd]. rewrite filter_app.
  destruct (decide (key = "__proto__")) as [->|Hne].
  - rewrite assignDisposer_prototype. cbn [dr_own dr_prototype].
    split; [|split].
    + rewrite filter_cons_False by (intros H; by apply H).
      by rewrite filter_nil, app_nil_r.
    + intros Hnot. destruct Hnot. apply elem_of_app. right. by left.
    + intros key' event' h' [Hin| ->%list_elem_of_singleton]%elem_of_app
        Hevent' Hh'.
      * destruct (Hall key' event' h' Hin Hevent' Hh') as (ih' & H1 & H2).
        exists ih'. split; [by eapply Hmono|].
        unfold disposerOf in *. cbn [dr_own dr_prototype].
        destruct (String.eqb key' "__proto__") eqn:Hk; [|done].
        apply String.eqb_eq in Hk as ->. done.
      * rewrite Hevent in Hevent'. rewrite Hh in Hh'.
        injection Hevent' as <-. injection Hh' as <-.
        exists ih. split; [done|]. done.
  - assert (key ∉ (dr_own rv).*1) as Hnew.
    { rewrite Hrv. unfold ownKeys. rewrite list_elem_of_filter.
      intros [_ ?]. done. }
    rewrite assignDisposer_own by done. cbn [dr_own dr_prototype].
    split; [|split].
    + rewrite filter_cons_True by done.
      by rewrite filter_nil, fmap_app, Hrv.
    + intros Hnot. apply Hproto. intros Hin. apply Hnot, elem_of_app.
      by left.
    + intros key' event' h' [Hin| ->%list_elem_of_singleton]%elem_of_app
        Hevent' Hh'.
      * destruct (Hall key' event' h' Hin Hevent' Hh') as (ih' & H1 & H2).
        exists ih'. split; [by eapply Hmono|].
        unfold disposerOf in *. cbn [dr_own dr_prototype].
        destruct (String.eqb key' "__proto__"); [done|].
        by apply propertyOf_app.
      * rewrite Hevent in Hevent'. rewrite Hh in Hh'.
        injection Hevent' as <-. injection Hh' as <-.
        exists ih. split; [done|]. unfold disposerOf.
        rewrite (proj2 (String.eqb_neq key "__proto__")) by done.
        cbn [dr_own]. by apply propertyOf_snoc.
Qed.

(** X7.  [defineInvokeHandlers] on two objects whose keys are the same, in
    whatever order, registers the handler of every key on the key's family
    and returns a record with one disposer per key: as own properties in
    the order of the events for every key but [__proto__], and for the key
    [__proto__], which on the object literal the record starts from names
    the accessor of [Object.prototype], as the prototype of the record, with
    no own property of that name.  If the keys differ it throws before
    registering anything. *)
Theorem defineInvokeHandlers_keys_must_match w :
  NoDup events.*1 -> NoDup handlers.*1 ->
  let r := defineInvokeHandlers events handlers w in
  (events.*1 ≡ₚ handlers.*1 ->
   exists disposers,
     r.1 = inr disposers
     ∧ (dr_own disposers).*1 = ownKeys events.*1
     ∧ ("__proto__" ∉ (dr_own disposers).*1)
     ∧ ("__proto__" ∉ events.*1 -> dr_prototype disposers = None)
     ∧ forall key event h,
         propertyOf key events = Some event ->
         propertyOf key handlers = Some h ->
         exists ih,
           lookupHandler h (registered event r.2) = Some ih
           ∧ disposerOf key disposers = Some (mkDisposer event h ih))
  ∧ (¬ events.*1 ≡ₚ handlers.*1 -> r = (inl keysMismatch, w)).
Proof.
  intros He Hh r. pose proof (keys_match _ _ He Hh) as Hcheck.
  unfold r, defineInvokeHandlers. split.
  - intros Hperm. rewrite (proj2 Hcheck Hperm).
    pose proof (defineInvokeHandlers_loop events.*1 []
                  (mkDisposerRecord None [], w)) as Hloop.
    destruct (foldl _ (mkDisposerRecord None [], w) events.*1) as [rv w'].
    destruct Hloop as (Hkeys & Hproto & Hall).
    + done.
    + apply Forall_forall. intros key Hkey. split; [done|].
      by rewrite <- Hperm.
    + split; [done|]. split; [done|]. intros ? ? ? ?%elem_of_nil. done.
    + exists rv. cbn [fst snd app] in *. split; [done|]. split; [done|].
      split.
      { rewrite Hkeys. unfold ownKeys. rewrite list_elem_of_filter.
        intros [? _]. done. }
      split; [done|].
      intros key event h Hevent Hhandler.
      apply (Hall key event h); [|done|done].
      by eapply propertyOf_key.
  - intros Hperm.
    destruct (negb _ || negb _) eqn:Hc; [done|].
    destruct Hperm. by apply Hcheck.
Qed.
End DefineInvokeHandlers.

(** ** invoke.ts and stream.ts: the invokeId check of the client *)

(** [l] is a per-call listener of a client, and [e] does not carry the
    invokeId of its call: the body is absent or names another call. *)
Definition foreignTo (l : Listener) (e : Envelope) : Prop :=
  match l with
  | LInvokeReceive _ _ id | LInvokeReceiveError _ _ id
  | LPlainReceive id _ | LPlainReceiveError id _
  | LPlainReceiveStreamEnd id _ => bodyFor id e = None
  | LStreamReceive k | LStreamReceiveError k
  | LStreamReceiveStreamEnd k => bodyFor (sc_id k) e = None
  | _ => False
  end.

(** X8.  An envelope that reaches per-call listeners of calls whose
    invokeId it does not carry is logged and nothing else happens: no
    promise is settled, no stream is fed, closed or errored, and the
    listeners stay. *)
Theorem client_ignores_foreign_invokeId rt n e w :
  Forall (fun l => foreignTo l e) (listenersOf (ev_id e) w) ->
  emit rt n e w = set_emitted (fun l => l ++ [e]) w.
Proof.
  intros Hls. destruct n as [|n]; cbn [emit]; [done|].
  generalize (set_emitted (fun l => l ++ [e]) w) as w0.
  induction Hls as [|l ls Hl _ IH]; intros w0; cbn [foldl]; [done|].
  by rewrite client_listener_ignores.
Qed.

(** ** stream.ts: a producer that throws *)












(** ** stream.ts with cancellation: the request pump after an abort *)

Lemma ticks_idle rt depth n w : w_tasks w = [] -> ticks rt depth n w = w.
Proof.
  intros H. induction n as [|n IH]; [done|]. cbn [ticks].
  unfold tick. by rewrite H.
Qed.

(** X10.  The pump of a streaming request is the only microtask and the
    call's signal has tripped.  If the request stream holds a chunk or is
    errored, the pump emits nothing, now or in any later turn: the chunk is
    dropped, the request stream is cancelled, an error is swallowed whether
    it is an AbortError or not, and the pump is gone.  The check sits inside
    the loop only: if the request stream has ended, the pump still emits
    send-stream-end. *)
Theorem pump_after_abort rt depth sg event id req opts rs w :
  signalAborted (Some sg) w = true ->
  w_streams w !! req = Some rs ->
  w_tasks w = [TPump (PumpStream (Some sg)) event id req opts] ->
  (queue rs ≠ [] ∨ (exists e, state rs = Errored e) ->
   forall n,
     let w' := ticks rt depth (S n) w in
     w_emitted w' = w_emitted w
     ∧ w_tasks w' = []
     ∧ w_waiters w' = w_waiters w
     ∧ exists rs', w_streams w' !! req = Some rs'
                   ∧ (state rs = Readable ->
                      state rs' = Closed ∧ queue rs' = []))
  ∧ (queue rs = [] -> state rs = Closed ->
     tick rt depth w
     = emit rt depth (mkEnvelope (sendEventStreamEnd event)
                                 (sendBody id JUndefined false) opts)
         (set_tasks (fun _ => []) w)).
Proof.
  intros Hab Hrs Ht. split.
  - intros Hread n w'. unfold w'. cbn [ticks].
    assert (let w1 := tick rt depth w in
            w_emitted w1 = w_emitted w
            ∧ w_tasks w1 = []
            ∧ w_waiters w1 = w_waiters w
            ∧ exists rs', w_streams w1 !! req = Some rs'
                          ∧ (state rs = Readable ->
                             state rs' = Closed ∧ queue rs' = []))
      as (H1 & H2 & H3 & H4).
    { unfold tick. rewrite Ht. cbn [runTask]. unfold runPump. fields.
      rewrite Hrs.
      change (signalAborted (Some sg) (set_tasks _ w))
        with (signalAborted (Some sg) w). rewrite Hab.
      unfold streamRead. destruct (queue rs) as [|x q] eqn:Hq.
      - destruct Hread as [?|[e He]]; [done|]. rewrite He.
        repeat split; try done. exists rs. split; [done|]. by rewrite He.
      - unfold cancelRequest. fields.
        rewrite lookup_alter_eq, lookup_insert_eq.
        cbn [fmap option_fmap option_map].
        repeat split; try done.
        eexists. split; [done|]. intros Hs. unfold isReadable.
        cbn [state]. rewrite Hs.
        destruct q as [|y q]; [destruct (closeRequested rs)|]; done. }
    rewrite ticks_idle by done. done.
  - intros Hq Hs. unfold tick. rewrite Ht. cbn [runTask]. unfold runPump.
    fields. rewrite Hrs. unfold streamRead. by rewrite Hq, Hs.
Qed.

(** ** stream.ts with cancellation: a call made with a tripped signal *)


(** ** stream.ts with cancellation: the consumer cancels *)

(** X12.  The consumer cancels the response stream of a streaming call
    that is still readable and listens to signal [sg]; the listeners on
    send-abort are those of streaming servers.  The stream is closed, the
    client emits send-abort once with the consumer's reason, the three
    per-call descriptors lose their listeners, and the call's abort callback
    leaves the signal: when the signal trips later, only the callbacks of
    the other calls run, so no second send-abort is emitted for this
    call. *)
Theorem cancel_leaves_signal rt d sg reason reason2 r0 ls k s w :
  w_signals w !! sg = Some (mkSignal false r0 ls) ->
  sc_signal k = Some sg ->
  w_streams w !! sc_stream k = Some s ->
  isReadable s = true ->
  foreignStream (sc_stream k) w ->
  Forall isAbortListener (listenersOf (sendEventAbort (sc_event k)) w) ->
  let w1 := cancel rt d k reason w in
  let w2 := abortSignal rt d sg reason2 w1 in
  w_emitted w1 = w_emitted w ++ [abortEnvelope k reason]
  ∧ w_streams w1 !! sc_stream k
    = Some (mkStream [] (closeRequested s) Closed (taken s))
  ∧ Forall (fun x => unheard x w1) (perCallIds k)
  ∧ w_signals w1 !! sg
    = Some (mkSignal false r0 (filter (fun x => x ≠ k) ls))
  ∧ w2 = foldl (fun w' k' => onAbort rt (emit rt d) k' w')
           (set_signals (fun m => <[sg := mkSignal true reason2 []]> m) w1)
           (filter (fun x => x ≠ k) ls)
  ∧ (ls = [k] -> w_emitted w2 = w_emitted w1).
Proof.
  intros Hsg Hsignal Hs Hread Hfor Habs w1 w2.
  set (h := sc_stream k) in *.
  set (closed := mkStream [] (closeRequested s) Closed (taken s)).
  set (w0 := set_streams (fun m => <[h := closed]> m) w).
  destruct (emit_abort_frame rt d (abortEnvelope k reason) h w0)
    as (E1 & E2 & E3 & E4 & E5); [done|done|].
  set (w0' := emit rt d (abortEnvelope k reason) w0) in *.
  destruct (cleanup_frame k w0') as (G1 & G2 & G3 & G4 & G5).
  pose proof (cleanup_unheard k w0') as Hquiet.
  assert (w1 = cleanup k w0') as Hw1.
  { unfold w1, cancel. fold h. by rewrite Hs, Hread. }
  assert (w_signals w1 !! sg
          = Some (mkSignal false r0 (filter (fun x => x ≠ k) ls))) as Hsg1.
  { rewrite Hw1. unfold cleanup, removeAbortListener. rewrite Hsignal.
    fields. rewrite lookup_alter_eq.
    change (w_signals (offReceivers _ _ w0')) with (w_signals w0').
    rewrite E3. unfold w0. fields. by rewrite Hsg. }
  assert (w2 = foldl (fun w' k' => onAbort rt (emit rt d) k' w')
                 (set_signals (fun m => <[sg := mkSignal true reason2 []]> m)
                    w1)
                 (filter (fun x => x ≠ k) ls)) as Hw2.
  { unfold w2, abortSignal. by rewrite Hsg1. }
  clearbody w1 w2. subst w1.
  split; [by rewrite G1, E2|]. split.
  { rewrite G2, E4. unfold w0. fields. by rewrite lookup_insert_eq. }
  split; [done|]. split; [done|]. split; [done|].
  intros ->. rewrite Hw2.
  rewrite (filter_cons_False (fun x => x ≠ k) k []) by (intros H; by apply H).
  done.
Qed.

(** ** invoke-remote-methods.ts: what the walks make of a payload *)

(** The descriptor the serializer puts in place of a function. *)
Definition stubOf (tag : string) : JsVal :=
  JObj PObject [("__eventaInvoke", JObj PObject [("tag", JStr tag)])].

(** The values a walk returns as they are: primitives, and objects that
    are neither arrays nor plain. *)
Definition passedOn (v : JsVal) : Prop :=
  match v with
  | JFun _ | JArr _ => False
  | JObj _ _ => isPlainObject v = false
  | _ => True
  end.

(** [rebuilt fn v v']: [v'] is the copy of [v] a walk builds, with arrays
    copied item by item, plain objects copied key by key onto an object
    without prototype, every other value shared, and each function [f]
    replaced by a value [fn] allows for it. *)
#[warnings="-register-all"] Inductive rebuilt (fn : Fn -> JsVal -> Prop)
    : JsVal -> JsVal -> Prop :=
| rebuilt_fun f v' : fn f v' -> rebuilt fn (JFun f) v'
| rebuilt_arr xs ys :
    Forall2 (rebuilt fn) xs ys -> rebuilt fn (JArr xs) (JArr ys)
| rebuilt_obj p fs gs :
    isPlainObject (JObj p fs) = true ->
    Forall2 (fun a b => a.1 = b.1 ∧ rebuilt fn a.2 b.2) fs gs ->
    rebuilt fn (JObj p fs) (JObj PNull gs)
| rebuilt_other v : passedOn v -> rebuilt fn v v.

Lemma max_list_with_Forall {A} (f : A -> nat) l b :
  max_list_with f l ≤ b -> Forall (fun x => f x ≤ b) l.
Proof.
  induction l as [|x l IH]; cbn [max_list_with]; [constructor|].
  intros H. constructor; [lia|]. apply IH. lia.
Qed.

Lemma rebuilt_mono (fn fn' : Fn -> JsVal -> Prop) v : forall v',
  (forall f x, fn f x -> fn' f x) -> rebuilt fn v v' -> rebuilt fn' v v'.
Proof.
  induction v as [| | | | | | | |items IH|proto fields IH]
    using JsVal_tree_ind; intros v' Hfn Hv; inversion Hv; subst;
    try (by apply rebuilt_other); try (by apply rebuilt_fun, Hfn).
  - apply rebuilt_arr.
    match goal with H : Forall2 _ items _ |- _ => revert IH H end.
    generalize ys. clear -Hfn.
    induction items as [|x items IHl]; intros ys IH H;
      inversion H; subst; constructor.
    + apply Forall_cons in IH as [Hx _]. by apply Hx.
    + apply Forall_cons in IH as [_ Hrest]. by apply IHl.
  - apply rebuilt_obj; [done|].
    match goal with H : Forall2 _ fields _ |- _ => revert IH H end.
    generalize gs. clear -Hfn.
    induction fields as [|x fields IHl]; intros gs IH H;
      inversion H; subst; constructor.
    + apply Forall_cons in IH as [Hx _].
      match goal with H : _ ∧ _ |- _ => destruct H as [? ?] end.
      split; [done|]. by apply Hx.
    + apply Forall_cons in IH as [_ Hrest]. by apply IHl.
Qed.

(** How a walk over a list threads its state: each child is walked from
    the state the one before left, the count goes up by what each child
    holds, and what was true of an earlier result stays true. *)
Section WalkRelated.
Context {St : Type} (walk : JsVal -> St -> Walked St).
Context (count : St -> nat) (cnt : JsVal -> nat) (M : nat).
Context (le : St -> St -> Prop) (R : St -> JsVal -> JsVal -> Prop).
Hypothesis le_refl : forall st, le st st.
Hypothesis le_trans : forall a b c, le a b -> le b c -> le a c.
Hypothesis R_mono : forall a b x v, le a b -> R a x v -> R b x v.

Definition walksTo (x y : JsVal) (st : St) : Prop :=
  count st + cnt x ≤ M ->
  exists v st', walk y st = WOk v st' ∧ count st' = count st + cnt x
                ∧ le st st' ∧ R st' x v.

Lemma walkItems_related xs ys :
  Forall2 (fun x y => forall st, walksTo x y st) xs ys ->
  forall out st, count st + sum_list_with cnt xs ≤ M ->
  exists vs st',
    walkItems walk ys out st = WOk (JArr (out ++ vs)) st'
    ∧ count st' = count st + sum_list_with cnt xs
    ∧ le st st' ∧ Forall2 (R st') xs vs.
Proof.
  induction 1 as [|x y xs ys Hxy _ IH]; intros out st Hst;
    cbn [walkItems sum_list_with] in *.
  - exists [], st. rewrite app_nil_r. repeat split; auto.
  - destruct (Hxy st) as (v & st1 & -> & Hc1 & Hle1 & HR1); [lia|].
    destruct (IH (out ++ [v]) st1) as (vs & st2 & -> & Hc2 & Hle2 & HR2);
      [lia|].
    exists (v :: vs), st2. rewrite <- app_assoc. cbn [app].
    split; [done|]. split; [lia|]. split; [eauto|].
    constructor; [eauto|done].
Qed.

Lemma walkFields_related fs gs :
  Forall2 (fun a b => a.1 = b.1 ∧ forall st, walksTo a.2 b.2 st) fs gs ->
  NoDup fs.*1 ->
  forall out st,
  (forall k, k ∈ fs.*1 -> k ∉ out.*1) ->
  count st + sum_list_with (fun a => cnt a.2) fs ≤ M ->
  exists hs st',
    walkFields walk gs out st = WOk (JObj PNull (out ++ hs)) st'
    ∧ count st' = count st + sum_list_with (fun a => cnt a.2) fs
    ∧ le st st'
    ∧ Forall2 (fun a b => a.1 = b.1 ∧ R st' a.2 b.2) fs hs.
Proof.
  induction 1 as [|[k x] [k' y] fs gs [Hk Hxy] _ IH]; intros Hnodup out st
    Hout Hst; cbn [walkFields sum_list_with fst snd] in *.
  - exists [], st. rewrite app_nil_r. repeat split; auto.
  - subst k'. rewrite fmap_cons in Hnodup. cbn [fst] in Hnodup.
    apply NoDup_cons in Hnodup as [Hk Hnodup].
    destruct (Hxy st) as (v & st1 & -> & Hc1 & Hle1 & HR1); [lia|].
    unfold assignProperty. cbn [andb].
    rewrite setOwn_new by (apply Hout; rewrite fmap_cons; by left).
    destruct (IH Hnodup (out ++ [(k, v)]) st1)
      as (hs & st2 & -> & Hc2 & Hle2 & HR2); [|lia|].
    { intros k' Hk'. rewrite fmap_app, not_elem_of_app. split.
      - apply Hout. rewrite fmap_cons. by right.
      - cbn. intros ->%list_elem_of_singleton. done. }
    exists ((k, v) :: hs), st2. rewrite <- app_assoc. cbn [app].
    split; [done|]. split; [lia|]. split; [eauto|].
    constructor; [|done]. cbn [fst snd]. eauto.
Qed.
End WalkRelated.

(** ** invoke-remote-methods.ts: the serializer within its caps *)

Lemma append_nonempty (a b : string) : b ≠ "" -> a +:+ b ≠ "".
Proof.
  intros Hb H. apply (f_equal String.length) in H.
  rewrite length_append in H. destruct b; [done|]. cbn in H. lia.
Qed.

Lemma Forall_and2 {A} (P Q : A -> Prop) l :
  Forall P l -> Forall Q l -> Forall (fun x => P x ∧ Q x) l.
Proof. intros. by apply Forall_and. Qed.

Lemma Forall_and3 {A} (P Q R : A -> Prop) l :
  Forall P l -> Forall Q l -> Forall R l ->
  Forall (fun x => P x ∧ Q x ∧ R x) l.
Proof. intros. apply Forall_and. split; [done|]. by apply Forall_and. Qed.

Section SerializeReturns.
Variable rt : Runtime.
Variable o : StubOptions.
Hypothesis ids : forall n, nanoid rt n ≠ "".

(** Later steps of a walk keep the disposers collected so far, one per
    function counted, and the handlers registered so far. *)
Definition grows (st st' : SerializeState) : Prop :=
  (exists more, ser_disposers st' = ser_disposers st ++ more
                ∧ ser_functionCount st' = ser_functionCount st + length more)
  ∧ forall event h ih,
      lookupHandler h (registered event (ser_world st)) = Some ih ->
      lookupHandler h (registered event (ser_world st')) = Some ih.

(** A handler wrapping [f] is registered on the family of [tag], a tag
    the serializer made, with a disposer for it among those collected. *)
Definition serving (st : SerializeState) (f : Fn) (tag : string) : Prop :=
  exists n k ih,
    tag = tagPrefix o +:+ nanoid rt n
    ∧ mkDisposer (invokeEventaOf tag) (HStub k f) ih ∈ ser_disposers st
    ∧ lookupHandler (HStub k f)
        (registered (invokeEventaOf tag) (ser_world st)) = Some ih.

(** [v'] is the descriptor of such a family. *)
Definition served (st : SerializeState) (f : Fn) (v' : JsVal) : Prop :=
  exists tag, v' = stubOf tag ∧ serving st f tag.

Lemma grows_refl st : grows st st.
Proof.
  split; [|done]. exists []. by rewrite app_nil_r, Nat.add_0_r.
Qed.

Lemma grows_trans a b c : grows a b -> grows b c -> grows a c.
Proof.
  intros [(m1 & D1 & C1) R1] [(m2 & D2 & C2) R2]. split; [|by auto].
  exists (m1 ++ m2). rewrite D2, D1, C2, C1, <- app_assoc, length_app.
  split; [done|lia].
Qed.

Lemma served_mono a b f v' : grows a b -> served a f v' -> served b f v'.
Proof.
  intros [(more & D & _) Hreg] (tag & -> & n & k & ih & Ht & Hin & Hfound).
  exists tag. split; [done|]. exists n, k, ih. split; [done|].
  split; [|by apply Hreg]. rewrite D. apply elem_of_app. by left.
Qed.

Lemma rebuilt_served a b v v' :
  grows a b -> rebuilt (served a) v v' -> rebuilt (served b) v v'.
Proof. intros Hg. apply rebuilt_mono. intros f x. by apply served_mono. Qed.

Lemma serializeFunction_returns f st :
  ser_functionCount st + 1 ≤ maxFunctions o ->
  exists v st',
    serializeFunction rt o f st = WOk v st'
    ∧ ser_functionCount st' = ser_functionCount st + 1
    ∧ grows st st' ∧ served st' f v.
Proof.
  intros Hcap. unfold serializeFunction.
  destruct (maxFunctions o <=? ser_functionCount st) eqn:Hc;
    [apply Nat.leb_le in Hc; lia|].
  unfold drawId. set (n := w_nextId (ser_world st)).
  set (tag := tagPrefix o +:+ nanoid rt n).
  assert (tag ≠ "") as Htag by apply append_nonempty, ids.
  unfold defineInvokeEventa.
  rewrite (proj2 (String.eqb_neq tag "")) by done.
  unfold allocate. set (w3 := set_fresh S (set_nextId S (ser_world st))).
  change (w_fresh (set_nextId S (ser_world st)))
    with (w_fresh (ser_world st)).
  set (h := HStub (w_fresh (ser_world st)) f).
  pose proof (defineInvokeHandler_found (invokeEventaOf tag) h w3) as Hfound.
  assert (forall event h' ih,
            lookupHandler h' (registered event (ser_world st)) = Some ih ->
            lookupHandler h'
              (registered event
                 (defineInvokeHandler (invokeEventaOf tag) h w3).2) = Some ih)
    as Hmono.
  { intros event h' ih Hh. by apply registered_define_mono. }
  destruct (defineInvokeHandler (invokeEventaOf tag) h w3) as [ih w4].
  cbn [fst snd] in *. eexists _, _. split; [done|].
  cbn [ser_functionCount ser_disposers ser_world].
  split; [lia|]. split.
  - split; [|done]. exists [mkDisposer (invokeEventaOf tag) h ih].
    split; [done|]. cbn. lia.
  - exists tag. split; [done|].
    exists n, (w_fresh (ser_world st)), ih. split; [done|].
    split; [|done]. apply elem_of_app. right. by left.
Qed.

Lemma serializeTree_returns v : forall depth st,
  ser_functionCount st + countFunctions v ≤ maxFunctions o ->
  depth + levels v ≤ S (maxDepth o) ->
  distinctKeys v = true ->
  exists v' st',
    serializeTree rt o v depth st = WOk v' st'
    ∧ ser_functionCount st' = ser_functionCount st + countFunctions v
    ∧ grows st st' ∧ rebuilt (served st') v v'.
Proof.
  induction v as [| | | | | | | |items IH|proto fields IH]
    using JsVal_tree_ind; intros depth st Hcnt Hdepth Hkeys;
    cbn [serializeTree countFunctions levels] in *;
    try (eexists _, st; split; [done|]; split; [lia|];
         split; [apply grows_refl|]; by apply rebuilt_other).
  - destruct (serializeFunction_returns f st) as (v & st' & -> & ? & ? & ?);
      [lia|]. exists v, st'. split; [done|]. split; [done|]. split; [done|].
    by apply rebuilt_fun.
  - rewrite (proj2 (Nat.ltb_ge _ _)) by lia.
    eexists _, st; split; [done|]; split; [lia|];
      split; [apply grows_refl|]; by apply rebuilt_other.
  - rewrite (proj2 (Nat.ltb_ge _ _)) by lia.
    eexists _, st; split; [done|]; split; [lia|];
      split; [apply grows_refl|]; by apply rebuilt_other.
  - rewrite (proj2 (Nat.ltb_ge _ _)) by lia.
    cbn [distinctKeys] in Hkeys. apply forallb_Forall in Hkeys.
    assert (Forall (fun x => levels x ≤ maxDepth o - depth) items) as Hlv.
    { apply max_list_with_Forall. lia. }
    destruct (walkItems_related
                (fun x st' => serializeTree rt o x (S depth) st')
                ser_functionCount countFunctions (maxFunctions o)
                grows (fun st' => rebuilt (served st'))
                grows_refl grows_trans rebuilt_served items items)
      with (out := @nil JsVal) (st := st)
      as (vs & st' & -> & Hc & Hg & HR); [|done|].
    { apply Forall_Forall2_diag.
      eapply Forall_impl; [exact (Forall_and3 _ _ _ _ IH Hlv Hkeys)|].
      cbn beta. intros x (Hx & Hl & Hk) st0 Hst0.
      apply Hx; [done|lia|done]. }
    exists (JArr vs), st'. split; [done|]. split; [done|]. split; [done|].
    by apply rebuilt_arr.
  - rewrite (proj2 (Nat.ltb_ge _ _))
      by (destruct proto; lia).
    destruct (isPlainObject (JObj proto fields)) eqn:Hplain.
    + assert (bool_decide (NoDup fields.*1)
              && forallb (fun kv => distinctKeys kv.2) fields = true)
        as [Hnodup Hsub]%andb_true_iff
        by (destruct proto; done).
      apply bool_decide_eq_true in Hnodup. apply forallb_Forall in Hsub.
      assert (countFunctions (JObj proto fields)
              = sum_list_with (fun kv => countFunctions kv.2) fields) as Hsum
        by (destruct proto; done).
      cbn [countFunctions] in Hsum. rewrite Hsum in *.
      assert (depth + S (max_list_with (fun kv => levels kv.2) fields)
              ≤ S (maxDepth o)) as Hd
        by (destruct proto; try done; exact Hdepth).
      assert (Forall (fun kv => levels kv.2 ≤ maxDepth o - depth) fields)
        as Hlv by (apply (max_list_with_Forall (fun kv => levels kv.2)); lia).
      destruct (walkFields_related
                  (fun x st' => serializeTree rt o x (S depth) st')
                  ser_functionCount countFunctions (maxFunctions o)
                  grows (fun st' => rebuilt (served st'))
                  grows_refl grows_trans rebuilt_served fields fields)
        with (out := @nil (string * JsVal)) (st := st)
        as (hs & st' & -> & Hc & Hg & HR); [|done| |done|].
      { apply Forall_Forall2_diag.
        eapply Forall_impl; [exact (Forall_and3 _ _ _ _ IH Hlv Hsub)|].
        cbn beta. intros x (Hx & Hl & Hk). split; [done|].
        intros st0 Hst0. apply Hx; [done|lia|done]. }
      { intros k _. apply not_elem_of_nil. }
      exists (JObj PNull hs), st'. split; [done|]. split; [done|].
      split; [done|]. by apply rebuilt_obj.
    + assert (countFunctions (JObj proto fields) = 0) as Hzero
        by (destruct proto; done).
      cbn [countFunctions] in Hzero. rewrite Hzero.
      eexists _, st; split; [done|]; split; [lia|];
        split; [apply grows_refl|]. by apply rebuilt_other.
Qed.
End SerializeReturns.

Lemma serving_alike rt o st1 st2 f tag :
  serializingAlike st1 st2 ->
  serving rt o st2 f tag -> serving rt o st1 f tag.
Proof.
  intros (_ & Hd & Hw & _) (n & k & ih & Ht & Hin & Hfound).
  exists n, k, ih. by rewrite Hd, Hw.
Qed.

Lemma served_alike rt o st1 st2 v v' :
  serializingAlike st1 st2 ->
  rebuilt (served rt o st2) v v' -> rebuilt (served rt o st1) v v'.
Proof.
  intros Hst. apply rebuilt_mono. intros f x (tag & -> & Hs).
  exists tag. split; [done|]. by eapply serving_alike.
Qed.

(** The serializer on a payload without shared objects, within its
    caps. *)
Lemma serialize_returns rt o v w :
  (forall n, nanoid rt n ≠ "") ->
  unshared rt v ->
  countFunctions v ≤ maxFunctions o ->
  levels v ≤ S (maxDepth o) ->
  distinctKeys v = true ->
  exists v' st,
    serializeWalk rt o v 0 (mkSerializeState 0 [] [] w) = WOk v' st
    ∧ rebuilt (served rt o st) v v'
    ∧ ser_functionCount st = countFunctions v
    ∧ length (ser_disposers st) = countFunctions v.
Proof.
  intros Hids Hun Hcnt Hdepth Hkeys.
  pose proof (serialize_unshared rt o v w Hun) as Halike.
  destruct (serializeTree_returns rt o Hids v 0 (mkSerializeState 0 [] [] w))
    as (v' & st & Htree & Hc & [(more & Hd & Hlen) _] & Hv);
    [done|lia|done|].
  rewrite Htree in Halike.
  destruct (serializeWalk rt o v 0 _) as [v1 st1|]; [|done].
  destruct Halike as [-> Hst]. exists v', st1. split; [done|].
  split; [by eapply served_alike|].
  destruct Hst as (Ac & Ad & _). cbn in Hd, Hc, Hlen.
  rewrite Ac, Ad, Hd. split; lia.
Qed.

(** X13.  With function stubs allowed and within the caps (no more
    functions in reach than [maxFunctions], no object node deeper than
    [maxDepth]), the serializer returns: its output is the payload rebuilt,
    with every function replaced by the descriptor of a new family on which
    a handler wrapping that function is registered, and it hands back one
    disposer per function.  Ids are not empty, the keys of an object are
    distinct, and no array or plain object of the payload is shared between
    two places, so that the payload is the tree the caps are counted on. *)
Theorem serializer_returns_within_caps rt o v w :
  allow o = true ->
  (forall n, nanoid rt n ≠ "") ->
  unshared rt v ->
  countFunctions v ≤ maxFunctions o ->
  nestingDepth v ≤ maxDepth o ->
  distinctKeys v = true ->
  exists v' st,
    serializeInvokeFunctionPayload rt o v w = WOk v' st
    ∧ rebuilt (served rt o st) v v'
    ∧ length (ser_disposers st) = countFunctions v
    ∧ w_emitted (ser_world st) = w_emitted w.
Proof.
  intros Hallow Hids Hun Hcnt Hdepth Hkeys.
  unfold serializeInvokeFunctionPayload. rewrite Hallow.
  pose proof (serializeWalk_observe w_emitted ltac:(done) ltac:(done)
    ltac:(done) ltac:(done) rt o v 0 (mkSerializeState 0 [] [] w)) as Hlog.
  destruct (serialize_returns rt o v w) as (v' & st & Hwalk & Hv & _ & Hlen);
    [done|done|done|unfold nestingDepth in Hdepth; lia|done|].
  rewrite Hwalk in *. cbn [walkedState ser_world] in Hlog.
  by exists v', st.
Qed.

(** ** invoke-remote-methods.ts: serialize, then deserialize *)

(** No plain object in reach has an own key [__eventaInvoke]. *)
Fixpoint noStubKey (v : JsVal) : bool :=
  match v with
  | JArr items => forallb noStubKey items
  | JObj (PObject | PNull) fields =>
      negb (hasOwn "__eventaInvoke" fields)
      && forallb (fun kv => noStubKey kv.2) fields
  | _ => true
  end.

(** The levels of object nodes of the serialized payload: as [levels],
    with the descriptor that stands for a function counted as the object it
    is. *)
Fixpoint stubbedLevels (v : JsVal) : nat :=
  match v with
  | JFun _ => 1
  | JArr items => S (max_list_with stubbedLevels items)
  | JObj (PObject | PNull) fields =>
      S (max_list_with (fun kv => stubbedLevels kv.2) fields)
  | JObj _ _ | JErr _ _ | JStream _ => 1
  | _ => 0
  end.

Lemma prefix_append (p s : string) : String.prefix p (p +:+ s) = true.
Proof.
  induction p as [|c p IH]; [by destruct s|].
  change (String c p +:+ s) with (String c (p +:+ s)). cbn [String.prefix].
  by destruct (Ascii.ascii_dec c c).
Qed.

Lemma lookupField_keys {A} (P : JsVal -> A -> Prop) k fs
    (gs : list (string * A)) :
  Forall2 (fun a b => a.1 = b.1 ∧ P a.2 b.2) fs gs ->
  lookupField k fs = None -> k ∉ gs.*1.
Proof.
  induction 1 as [|[k1 x] [k2 y] fs gs [Hk _] _ IH]; cbn [lookupField];
    [intros _; apply not_elem_of_nil|].
  cbn [fst] in Hk. subst k2.
  destruct (String.eqb k k1) eqn:Hkk; [done|]. apply String.eqb_neq in Hkk.
  intros H. rewrite fmap_cons, not_elem_of_cons. auto.
Qed.

Lemma lookupField_None k fs : k ∉ fs.*1 -> lookupField k fs = None.
Proof.
  induction fs as [|[k1 x] fs IH]; cbn [lookupField]; [done|].
  rewrite fmap_cons, not_elem_of_cons. cbn [fst]. intros [Hne Hnotin].
  rewrite (proj2 (String.eqb_neq k k1)) by done. auto.
Qed.

Lemma stubTag_rebuilt (P : JsVal -> JsVal -> Prop) fs gs :
  Forall2 (fun a b => a.1 = b.1 ∧ P a.2 b.2) fs gs ->
  hasOwn "__eventaInvoke" fs = false ->
  forall p, stubTag (JObj p gs) = None.
Proof.
  intros Hfs Hown p. unfold stubTag, hasInvokeFunctionStubKey, hasOwn in *.
  destruct (lookupField "__eventaInvoke" fs) eqn:Hl; [done|].
  rewrite (lookupField_None _ gs (lookupField_keys _ _ _ _ Hfs Hl)).
  by rewrite andb_false_r.
Qed.

Section DeserializeRevives.
Variable rt : Runtime.
Variable o : StubOptions.
Variable serves : Fn -> string -> Prop.
Hypothesis serves_tag :
  forall f tag, serves f tag -> tag ≠ "" ∧ tagDisallowed o tag = false.

Definition stubbed (f : Fn) (v' : JsVal) : Prop :=
  exists tag, v' = stubOf tag ∧ serves f tag.

(** [v'] is a client function on a family that serves [f]. *)
Definition revived (f : Fn) (v' : JsVal) : Prop :=
  exists c tag, v' = JFun (FInvoke c (invokeEventaOf tag)) ∧ serves f tag.

Lemma deserializeTree_revives v : forall v1 depth st,
  rebuilt stubbed v v1 ->
  des_functionCount st + countFunctions v ≤ maxFunctions o ->
  depth + stubbedLevels v ≤ S (maxDepth o) ->
  noStubKey v = true ->
  distinctKeys v = true ->
  exists v2 st',
    deserializeTree rt o v1 depth st = WOk v2 st'
    ∧ des_functionCount st' = des_functionCount st + countFunctions v
    ∧ True ∧ rebuilt revived v v2.
Proof.
  induction v as [| | | | | | | |items IH|proto fields IH]
    using JsVal_tree_ind; intros v1 depth st Hv Hcnt Hdepth Hstub Hkeys;
    inversion Hv; subst;
    cbn [deserializeTree countFunctions stubbedLevels passedOn] in *;
    try done;
    try (eexists _, st; split; [done|]; split; [lia|];
         split; [done|]; by apply rebuilt_other).
  - match goal with H : stubbed _ _ |- _ => destruct H as (tag & -> & Hf) end.
    destruct (serves_tag _ _ Hf) as [Htag Hallowed].
    unfold stubOf. cbn [deserializeTree].
    rewrite (proj2 (Nat.ltb_ge _ _)) by lia.
    change (stubTag (JObj PObject
              [("__eventaInvoke", JObj PObject [("tag", JStr tag)])]))
      with (Some tag).
    unfold deserializeStub.
    destruct (maxFunctions o <=? des_functionCount st) eqn:Hc;
      [apply Nat.leb_le in Hc; lia|].
    rewrite Hallowed. unfold defineInvokeEventa.
    rewrite (proj2 (String.eqb_neq tag "")) by done.
    unfold allocate. eexists _, _. split; [done|].
    cbn [des_functionCount]. split; [lia|]. split; [done|].
    apply rebuilt_fun. by eexists _, tag.
  - rewrite (proj2 (Nat.ltb_ge _ _)) by lia.
    eexists _, st; split; [done|]; split; [lia|];
      split; [done|]; by apply rebuilt_other.
  - rewrite (proj2 (Nat.ltb_ge _ _)) by lia.
    eexists _, st; split; [done|]; split; [lia|];
      split; [done|]; by apply rebuilt_other.
  - rewrite (proj2 (Nat.ltb_ge _ _)) by lia.
    cbn [distinctKeys noStubKey] in Hkeys, Hstub.
    apply forallb_Forall in Hkeys. apply forallb_Forall in Hstub.
    assert (Forall (fun x => S depth + stubbedLevels x ≤ S (maxDepth o))
                   items) as Hlv.
    { eapply Forall_impl;
        [apply (max_list_with_Forall stubbedLevels _ (maxDepth o - depth));
         lia|].
      cbn beta. intros. lia. }
    destruct (walkItems_related
                (fun x st' => deserializeTree rt o x (S depth) st')
                des_functionCount countFunctions (maxFunctions o)
                (fun _ _ => True) (fun _ => rebuilt revived)
                ltac:(done) ltac:(done) ltac:(done) items ys)
      with (out := @nil JsVal) (st := st)
      as (vs & st' & -> & Hc & _ & HR); [|done|].
    { pose proof (Forall_and3 _ _ _ _ IH Hlv
                    (Forall_and2 _ _ _ Hstub Hkeys)) as Hall.
      match goal with H : Forall2 _ items ys |- _ => revert Hall H end.
      generalize ys. clear. induction items as [|x items IHl];
        intros ys Hall H; inversion H; subst; constructor.
      - apply Forall_cons in Hall as [(Hx & Hl & Hs & Hk) _].
        intros st0 Hst0. by apply Hx.
      - apply Forall_cons in Hall as [_ Hrest]. by apply IHl. }
    exists (JArr vs), st'. split; [done|]. split; [done|]. split; [done|].
    by apply rebuilt_arr.
  - match goal with H : isPlainObject _ = true |- _ => rename H into Hplain end.
    match goal with H : Forall2 _ fields gs |- _ => rename H into Hfs end.
    assert (negb (hasOwn "__eventaInvoke" fields)
            && forallb (fun kv => noStubKey kv.2) fields = true)
      as [Hown Hstubs]%andb_true_iff by (destruct proto; done).
    assert (bool_decide (NoDup fields.*1)
            && forallb (fun kv => distinctKeys kv.2) fields = true)
      as [Hnodup Hsub]%andb_true_iff by (destruct proto; done).
    apply bool_decide_eq_true in Hnodup.
    apply forallb_Forall in Hsub. apply forallb_Forall in Hstubs.
    assert (countFunctions (JObj proto fields)
            = sum_list_with (fun kv => countFunctions kv.2) fields) as Hsum
      by (destruct proto; done).
    cbn [countFunctions] in Hsum. rewrite Hsum in *.
    assert (depth + S (max_list_with (fun kv => stubbedLevels kv.2) fields)
            ≤ S (maxDepth o)) as Hd
      by (destruct proto; try done; exact Hdepth).
    assert (Forall (fun kv => S depth + stubbedLevels kv.2 ≤ S (maxDepth o))
                   fields) as Hlv.
    { eapply Forall_impl;
        [apply (max_list_with_Forall (fun kv => stubbedLevels kv.2) _
                  (maxDepth o - depth)); lia|].
      cbn beta. intros. lia. }
    rewrite (proj2 (Nat.ltb_ge _ _)) by lia.
    apply negb_true_iff in Hown.
    rewrite (stubTag_rebuilt _ _ _ Hfs Hown).
    assert (hasInvokeFunctionStubKey (JObj PNull gs) = false) as ->.
    { unfold hasInvokeFunctionStubKey, hasOwn in *.
      destruct (lookupField "__eventaInvoke" fields) eqn:Hl; [done|].
      by rewrite (lookupField_None _ gs (lookupField_keys _ _ _ _ Hfs Hl)). }
    rewrite andb_false_r.
    cbn [isPlainObject].
    destruct (walkFields_related
                (fun x st' => deserializeTree rt o x (S depth) st')
                des_functionCount countFunctions (maxFunctions o)
                (fun _ _ => True) (fun _ => rebuilt revived)
                ltac:(done) ltac:(done) ltac:(done) fields gs)
      with (out := @nil (string * JsVal)) (st := st)
      as (hs & st' & -> & Hc & _ & HR); [|done| |done|].
    { pose proof (Forall_and3 _ _ _ _ IH Hlv
                    (Forall_and2 _ _ _ Hstubs Hsub)) as Hall.
      revert Hall Hfs. generalize gs. clear.
      induction fields as [|x fields IHl];
        intros gs Hall H; inversion H; subst; constructor.
      - apply Forall_cons in Hall as [(Hx & Hl & Hs & Hk) _].
        match goal with H : _ ∧ _ |- _ => destruct H as [? ?] end.
        split; [done|].
        intros st0 Hst0. by apply Hx.
      - apply Forall_cons in Hall as [_ Hrest]. by apply IHl. }
    { intros k _. apply not_elem_of_nil. }
    exists (JObj PNull hs), st'. split; [done|]. split; [done|].
    split; [done|]. by apply rebuilt_obj.
  - match goal with
    | H : isPlainObject _ = false |- _ => rename H into Hplain
    end.
    rewrite (proj2 (Nat.ltb_ge _ _)) by (destruct proto; done || lia).
    assert (stubTag (JObj proto fields) = None) as ->.
    { unfold stubTag, hasInvokeFunctionStubKey. by rewrite Hplain. }
    unfold hasInvokeFunctionStubKey. rewrite Hplain, andb_false_r.
    assert (countFunctions (JObj proto fields) = 0) as Hzero
      by (destruct proto; done).
    cbn [countFunctions] in Hzero. rewrite Hzero.
    eexists _, st; split; [done|]; split; [lia|];
      split; [done|]. by apply rebuilt_other.
Qed.
End DeserializeRevives.

Lemma max_list_with_mono {A} (f g : A -> nat) l :
  Forall (fun x => f x ≤ g x) l -> max_list_with f l ≤ max_list_with g l.
Proof. induction 1; cbn [max_list_with]; lia. Qed.

Lemma levels_stubbedLevels v : levels v ≤ stubbedLevels v.
Proof.
  induction v as [| | | | | | | |items IH|proto fields IH]
    using JsVal_tree_ind; cbn [levels stubbedLevels]; try lia.
  - apply le_n_S. by apply max_list_with_mono.
  - assert (max_list_with (fun kv => levels kv.2) fields
            ≤ max_list_with (fun kv => stubbedLevels kv.2) fields)
      by by apply max_list_with_mono.
    destruct proto; lia.
Qed.

Lemma serving_tag rt o st f tag :
  (forall n, nanoid rt n ≠ "") ->
  serving rt o st f tag -> tag ≠ "" ∧ tagDisallowed o tag = false.
Proof.
  intros Hids (n & k & ih & -> & _). split; [by apply append_nonempty|].
  unfold tagDisallowed. by rewrite prefix_append, andb_false_r.
Qed.

(** X14.  A payload that the serializer turned into descriptors comes back
    from the deserializer, run with the same options on any context, as the
    payload rebuilt with every function replaced by a client function on
    the family where the handler wrapping that function is registered.
    This takes a payload within the caps, the descriptors that stand for
    functions counted as object nodes, without [__eventaInvoke] keys of its
    own, and neither in the payload nor in what the serializer makes of it
    an array or plain object shared between two places; the deserializer
    registers no listener. *)
Theorem remote_payload_round_trip rt o v w w' :
  allow o = true ->
  (forall n, nanoid rt n ≠ "") ->
  unshared rt v ->
  (forall v1 st1,
     serializeInvokeFunctionPayload rt o v w = WOk v1 st1 ->
     unshared rt v1) ->
  countFunctions v ≤ maxFunctions o ->
  stubbedLevels v ≤ S (maxDepth o) ->
  noStubKey v = true ->
  distinctKeys v = true ->
  exists v1 st1 v2 st2,
    serializeInvokeFunctionPayload rt o v w = WOk v1 st1
    ∧ deserializeInvokeFunctionPayload rt o v1 w' = WOk v2 st2
    ∧ rebuilt (revived (serving rt o st1)) v v2
    ∧ des_functionCount st2 = countFunctions v
    ∧ w_listeners (des_world st2) = w_listeners w'.
Proof.
  intros Hallow Hids Hun Hun1 Hcnt Hdepth Hstub Hkeys.
  unfold serializeInvokeFunctionPayload, deserializeInvokeFunctionPayload
    in *.
  rewrite Hallow in *.
  pose proof (levels_stubbedLevels v) as Hlv.
  destruct (serialize_returns rt o v w) as (v1 & st1 & Hwalk1 & Hv1 & _);
    [done|done|done|lia|done|].
  specialize (Hun1 v1 st1 Hwalk1). rewrite Hwalk1.
  pose proof (deserializeWalk_observe w_listeners ltac:(done) ltac:(done)
    rt o v1 0 (mkDeserializeState 0 [] w')) as Hquiet.
  pose proof (deserialize_unshared rt o v1 w' Hun1) as Halike.
  destruct (deserializeTree_revives rt o (serving rt o st1)
              ltac:(intros f tag; by apply serving_tag) v v1 0
              (mkDeserializeState 0 [] w'))
    as (v2 & st2 & Htree & Hc & _ & Hv2); [done|done|done|done|done|].
  rewrite Htree in Halike.
  destruct (deserializeWalk rt o v1 0 _) as [v2' st2'|] eqn:Hwalk2; [|done].
  destruct Halike as [-> (Ac & _)]. exists v1, st1, v2, st2'.
  split; [done|]. split; [done|]. split; [done|].
  split; [by rewrite Ac|]. exact Hquiet.
Qed.

Lemma max_list_with_Forall2 {A B} (f : A -> nat) (g : B -> nat) l k :
  Forall2 (fun x y => f x = g y) l k ->
  max_list_with f l = max_list_with g k.
Proof. induction 1; cbn [max_list_with]; lia. Qed.

(** The levels the deserializer finds in the serializer's output. *)
Lemma stubLevels_rebuilt (serves : Fn -> string -> Prop) v : forall v1,
  rebuilt (stubbed serves) v v1 -> noStubKey v = true ->
  stubLevels v1 = stubbedLevels v.
Proof.
  induction v as [| | | | | | | |items IH|proto fields IH]
    using JsVal_tree_ind; intros v1 Hv Hstub; inversion Hv; subst;
    cbn [passedOn] in *; try done.
  - match goal with H : stubbed _ _ _ |- _ => by destruct H as (t & -> & _) end.
  - cbn [stubLevels stubbedLevels noStubKey] in *. f_equal.
    apply forallb_Forall in Hstub. symmetry.
    apply max_list_with_Forall2.
    pose proof (Forall_and2 _ _ _ IH Hstub) as Hall.
    match goal with H : Forall2 _ items ys |- _ => revert Hall H end.
    generalize ys. clear. induction items as [|x items IHl];
      intros ys Hall H; inversion H; subst; constructor.
    + apply Forall_cons in Hall as [[Hx Hs] _]. symmetry. by apply Hx.
    + apply Forall_cons in Hall as [_ Hrest]. by apply IHl.
  - match goal with H : isPlainObject _ = true |- _ => rename H into Hplain end.
    match goal with H : Forall2 _ fields gs |- _ => rename H into Hfs end.
    assert (negb (hasOwn "__eventaInvoke" fields)
            && forallb (fun kv => noStubKey kv.2) fields = true)
      as [Hown Hstubs]%andb_true_iff by (destruct proto; done).
    apply negb_true_iff in Hown. apply forallb_Forall in Hstubs.
    cbn [stubLevels]. rewrite (stubTag_rebuilt _ _ _ Hfs Hown).
    cbn [isPlainObject].
    transitivity (S (max_list_with (fun kv => stubbedLevels kv.2) fields));
      [|by destruct proto].
    f_equal. symmetry.
    apply (max_list_with_Forall2 (fun kv => stubbedLevels kv.2)
             (fun kv => stubLevels kv.2)).
    pose proof (Forall_and2 _ _ _ IH Hstubs) as Hall.
    revert Hall Hfs. generalize gs. clear.
    induction fields as [|x fields IHl];
      intros gs Hall H; inversion H; subst; constructor.
    + apply Forall_cons in Hall as [[Hx Hs] _].
      match goal with H : _ ∧ _ |- _ => destruct H as [? ?] end.
      symmetry. by apply Hx.
    + apply Forall_cons in Hall as [_ Hrest]. by apply IHl.
  - match goal with
    | H : isPlainObject _ = false |- _ => rename H into Hplain
    end.
    cbn [stubLevels]. unfold stubTag, hasInvokeFunctionStubKey.
    rewrite Hplain. cbn [andb]. by destruct proto.
Qed.

(** X15.  The serializer does not check the depth of a function, the
    deserializer checks the depth of the descriptor that stands for it: a
    payload within the serializer's caps that holds a function right under
    a node at depth [maxDepth] is serialized, and the deserializer, run with
    the same options on that output, throws.  Neither the payload nor what
    the serializer makes of it has an array or plain object shared between
    two places. *)
Theorem function_under_deepest_node_does_not_come_back rt o v w w' :
  allow o = true ->
  (forall n, nanoid rt n ≠ "") ->
  unshared rt v ->
  (forall v1 st1,
     serializeInvokeFunctionPayload rt o v w = WOk v1 st1 ->
     unshared rt v1) ->
  countFunctions v ≤ maxFunctions o ->
  nestingDepth v ≤ maxDepth o ->
  noStubKey v = true ->
  distinctKeys v = true ->
  S (maxDepth o) < stubbedLevels v ->
  exists v1 st1,
    serializeInvokeFunctionPayload rt o v w = WOk v1 st1
    ∧ throws (deserializeInvokeFunctionPayload rt o v1 w').
Proof.
  intros Hallow Hids Hun Hun1 Hcnt Hdepth Hstub Hkeys Hdeep.
  unfold serializeInvokeFunctionPayload, deserializeInvokeFunctionPayload
    in *.
  rewrite Hallow in *. unfold nestingDepth in Hdepth.
  destruct (serialize_returns rt o v w) as (v1 & st1 & Hwalk1 & Hv1 & _);
    [done|done|done|lia|done|].
  specialize (Hun1 v1 st1 Hwalk1). rewrite Hwalk1.
  exists v1, st1. split; [done|].
  pose proof (deserialize_unshared rt o v1 w' Hun1) as Halike.
  pose proof (deserializeTree_within rt o v1 0 (mkDeserializeState 0 [] w')
                ltac:(cbn; lia)) as Hin.
  destruct (deserializeWalk rt o v1 0 _) as [v2 st2|e st2]; [|done].
  destruct (deserializeTree rt o v1 0 _) as [v2' st2'|e st2']; [|done].
  destruct Hin as (_ & _ & Hlv & _).
  rewrite (stubLevels_rebuilt (serving rt o st1) v v1) in Hlv by done.
  lia.
Qed.

(** ** invoke-remote-methods.ts: an object met twice *)

(** A walk that entered an array or plain object has stored its copy. *)
Lemma serializeWalk_seen rt o x depth st x1 st1 :
  isContainer x = true ->
  seenGet rt x (ser_seen st) = None ->
  serializeWalk rt o x depth st = WOk x1 st1 ->
  seenLookup x (ser_seen st1) = Some x1.
Proof.
  intros Hx Hnone.
  destruct x as [| | | | | | | |items|proto fields]; try discriminate Hx;
    cbn [serializeWalk]; (destruct (maxDepth o <? depth); [done|]);
    rewrite Hnone.
  - destruct (walkItems _ items [] st) as [v st'|]; [|done].
    intros [= <- <-]. cbn [ser_seen seenLookup]. by rewrite decide_True.
  - cbn [isContainer] in Hx. rewrite Hx.
    destruct (walkFields _ fields [] st) as [v st'|]; [|done].
    intros [= <- <-]. cbn [ser_seen seenLookup]. by rewrite decide_True.
Qed.

Lemma deserializeWalk_seen rt o x depth st x1 st1 :
  isContainer x = true ->
  stubTag x = None ->
  seenGet rt x (des_seen st) = None ->
  deserializeWalk rt o x depth st = WOk x1 st1 ->
  seenLookup x (des_seen st1) = Some x1
  ∧ strict o && hasInvokeFunctionStubKey x = false.
Proof.
  intros Hx Htag Hnone.
  destruct x as [| | | | | | | |items|proto fields]; try discriminate Hx;
    cbn [deserializeWalk]; (destruct (maxDepth o <? depth); [done|]).
  - rewrite Hnone.
    destruct (walkItems _ items [] st) as [v st'|]; [|done].
    intros [= <- <-]. cbn [des_seen seenLookup]. rewrite decide_True by done.
    split; [done|]. apply andb_false_r.
  - rewrite Htag.
    destruct (strict o && hasInvokeFunctionStubKey (JObj proto fields));
      [done|].
    rewrite Hnone. cbn [isContainer] in Hx. rewrite Hx.
    destruct (walkFields _ fields [] st) as [v st'|]; [|done].
    intros [= <- <-]. cbn [des_seen seenLookup]. by rewrite decide_True.
Qed.

(** X22.  An array or plain object [x] that is one and the same object at
    the two places of the payload [[x, x]] is entered once: if the walk
    of [x] returns, the walk of the payload returns the copy made at the
    first place at both places, and it counts, registers and collects what
    the walk of [x] alone does.  For the deserializer [x] is not a stub
    descriptor: the stub test comes before the look into [seen]. *)
Theorem shared_container_is_walked_once rt o x w :
  allow o = true ->
  isContainer x = true ->
  sameObject rt x = true ->
  (forall x1 st1,
     serializeWalk rt o x 1 (mkSerializeState 0 [] [] w) = WOk x1 st1 ->
     exists st2,
       serializeInvokeFunctionPayload rt o (JArr [x; x]) w
       = WOk (JArr [x1; x1]) st2
       ∧ ser_functionCount st2 = ser_functionCount st1
       ∧ ser_disposers st2 = ser_disposers st1
       ∧ ser_world st2 = ser_world st1)
  ∧ (stubTag x = None ->
     forall x1 st1,
       deserializeWalk rt o x 1 (mkDeserializeState 0 [] w) = WOk x1 st1 ->
       exists st2,
         deserializeInvokeFunctionPayload rt o (JArr [x; x]) w
         = WOk (JArr [x1; x1]) st2
         ∧ des_functionCount st2 = des_functionCount st1
         ∧ des_world st2 = des_world st1).
Proof.
  intros Hallow Hx Hsame. split.
  - intros x1 st1 Hwalk.
    assert (seenGet rt x (ser_seen (mkSerializeState 0 [] [] w)) = None)
      as Hnone by (unfold seenGet; by destruct (sameObject rt x)).
    pose proof (serializeWalk_seen rt o x 1 _ x1 st1 Hx Hnone Hwalk)
      as Hseen.
    assert ((maxDepth o <? 1) = false) as Hdepth.
    { destruct x; try discriminate Hx; cbn [serializeWalk] in Hwalk;
        by destruct (maxDepth o <? 1). }
    assert ((maxDepth o <? 0) = false) as Hroot.
    { apply Nat.ltb_ge. lia. }
    assert (serializeWalk rt o x 1 st1 = WOk x1 st1) as Hagain.
    { destruct x; try discriminate Hx; cbn [serializeWalk];
        rewrite Hdepth; unfold seenGet; by rewrite Hsame, Hseen. }
    unfold serializeInvokeFunctionPayload. rewrite Hallow.
    cbn [serializeWalk]. rewrite Hroot.
    unfold seenGet at 1. cbn [ser_seen seenLookup].
    destruct (sameObject rt (JArr [x; x])); cbn [walkItems];
      rewrite Hwalk, Hagain; cbn [serializeSeen app]; by eexists.
  - intros Htag x1 st1 Hwalk.
    assert (seenGet rt x (des_seen (mkDeserializeState 0 [] w)) = None)
      as Hnone by (unfold seenGet; by destruct (sameObject rt x)).
    destruct (deserializeWalk_seen rt o x 1 _ x1 st1 Hx Htag Hnone Hwalk)
      as [Hseen Hstrict].
    assert ((maxDepth o <? 1) = false) as Hdepth.
    { destruct x; try discriminate Hx; cbn [deserializeWalk] in Hwalk;
        by destruct (maxDepth o <? 1). }
    assert ((maxDepth o <? 0) = false) as Hroot.
    { apply Nat.ltb_ge. lia. }
    assert (deserializeWalk rt o x 1 st1 = WOk x1 st1) as Hagain.
    { destruct x; try discriminate Hx; cbn [deserializeWalk];
        rewrite Hdepth; rewrite ?Htag, ?Hstrict; unfold seenGet;
        by rewrite Hsame, Hseen. }
    unfold deserializeInvokeFunctionPayload. rewrite Hallow.
    cbn [deserializeWalk]. rewrite Hroot.
    unfold seenGet at 1. cbn [des_seen seenLookup].
    destruct (sameObject rt (JArr [x; x])); cbn [walkItems];
      rewrite Hwalk, Hagain; cbn [deserializeSeen app]; by eexists.
Qed.

(** ** invoke.ts: a request that arrives in chunks *)

Definition chunkEnvelope (event : InvokeEventa) (id : string) (opts : Opts)
    (x : JsVal) : Envelope :=
  mkEnvelope (sendEvent event) (sendBody id x true) opts.

Definition requestEndEnvelope (event : InvokeEventa) (id : string)
    (opts : Opts) : Envelope :=
  mkEnvelope (sendEventStreamEnd event) (sendBody id JUndefined false) opts.

(** The unary server holds the input stream [h] of call [id]: the handler
    was called with it, and it holds the chunks [ys], none read yet. *)
Definition collecting (ih : nat) (id : string) (h : nat) (call : HandlerCall)
    (ys : list JsVal) (w0 w : World) : Prop :=
  w_calls w = w_calls w0 ++ [call]
  ∧ w_streams w !! h = Some (mkStream ys false Readable [])
  ∧ w_streamStates w !! (ih, id) = Some h.

Lemma accepted_chunk event id opts x :
  id ≠ "" -> acceptedInvokeId (chunkEnvelope event id opts x) = Some id.
Proof.
  intros Hid. unfold acceptedInvokeId. cbn.
  by rewrite (proj2 (String.eqb_neq id "")).
Qed.

Lemma onSend_first_chunk rt emit' ih event f id opts x w :
  id ≠ "" ->
  w_streamStates w !! (ih, id) = None ->
  (forall e, userFn rt (FUser f) (JStream (w_fresh w)) ≠ ThrowsSync e) ->
  collecting ih id (w_fresh w)
    (mkHandlerCall (UnaryHandler (HUser f)) (JStream (w_fresh w)) opts None)
    [x] w
    (onSend rt emit' ih event (HUser f) (chunkEnvelope event id opts x) w).
Proof.
  intros Hid Hnone Hsync. unfold onSend.
  rewrite accepted_chunk by done. cbn [ev_body chunkEnvelope sendBody
    isReqStream content ev_opts].
  rewrite Hnone. unfold newReadableStream, handleInvoke. fields.
  cbn [callHandler].
  destruct (userFn rt (FUser f) (JStream (w_fresh w))) as [v|e|e] eqn:Ho;
    [|by destruct (Hsync e)|]; fields;
    unfold controllerEnqueue; fields; rewrite lookup_insert_eq;
    cbn [mbind option_bind];
    change (streamEnqueue x newStream)
      with (Some (mkStream [x] false Readable []));
    cbn [mbind option_bind default]; unfold wake; fields;
    (destruct (w_waiters w !! w_fresh w); fields; unfold collecting; fields;
     rewrite ?lookup_insert_eq; done).
Qed.

Lemma onSend_next_chunk rt emit' ih event h id opts x stream call ys w0 w :
  id ≠ "" ->
  collecting ih id stream call ys w0 w ->
  collecting ih id stream call (ys ++ [x]) w0
    (onSend rt emit' ih event h (chunkEnvelope event id opts x) w).
Proof.
  intros Hid (Hcalls & Hs & Hc). unfold onSend.
  rewrite accepted_chunk by done. cbn [ev_body chunkEnvelope sendBody
    isReqStream content ev_opts].
  rewrite Hc. unfold controllerEnqueue. rewrite Hs.
  cbn [mbind option_bind].
  change (streamEnqueue x (mkStream ys false Readable []))
    with (Some (mkStream (ys ++ [x]) false Readable [])).
  cbn [mbind option_bind default]. unfold wake; fields.
  destruct (w_waiters w !! stream); fields; unfold collecting; fields;
    rewrite ?lookup_insert_eq; done.
Qed.

Lemma onSend_chunks rt emit' ih event h id opts stream call xs :
  id ≠ "" -> forall ys w0 w,
  collecting ih id stream call ys w0 w ->
  collecting ih id stream call (ys ++ xs) w0
    (foldl (fun w' x => runListener rt emit' (LOnSend ih event h)
                          (chunkEnvelope event id opts x) w') w xs).
Proof.
  intros Hid. induction xs as [|x xs IH]; intros ys w0 w Hw; cbn [foldl].
  - by rewrite app_nil_r.
  - rewrite (cons_middle x ys xs), app_assoc. apply IH. cbn [runListener].
    by apply onSend_next_chunk.
Qed.

(** X16.  A request streamed to the unary server of [defineInvokeHandler]
    as chunks followed by send-stream-end, for an invokeId it holds no
    input stream for: the handler is called once, with a new stream, when
    the first envelope arrives; the stream receives the chunks in order and
    is closed, so reading it gives the chunks and then the end; and the
    server forgets the stream.  (For a handler that does not throw before
    it returns.) *)
Theorem unary_server_collects_chunks rt emit' ih event f id opts xs w :
  id ≠ "" ->
  w_streamStates w !! (ih, id) = None ->
  (forall e, userFn rt (FUser f) (JStream (w_fresh w)) ≠ ThrowsSync e) ->
  let w1 := foldl (fun w' x => runListener rt emit' (LOnSend ih event (HUser f))
                                 (chunkEnvelope event id opts x) w') w xs in
  let w2 := runListener rt emit' (LOnSendStreamEnd ih event (HUser f))
              (requestEndEnvelope event id opts) w1 in
  exists s,
    w_calls w2
    = w_calls w ++ [mkHandlerCall (UnaryHandler (HUser f))
                                  (JStream (w_fresh w)) opts None]
    ∧ w_streams w2 !! w_fresh w = Some s
    ∧ queue s = xs ∧ taken s = []
    ∧ readMany (S (length xs)) s = (Chunk <$> xs) ++ [Done]
    ∧ w_streamStates w2 !! (ih, id) = None.
Proof.
  intros Hid Hnone Hsync w1 w2.
  assert (acceptedInvokeId (requestEndEnvelope event id opts) = Some id)
    as Hend.
  { unfold acceptedInvokeId. cbn. by rewrite (proj2 (String.eqb_neq id "")). }
  destruct xs as [|x xs].
  - destruct (onSendStreamEnd_without_controller rt emit' ih event f
                (requestEndEnvelope event id opts) id w Hend Hnone Hsync)
      as (Hcalls & Hs & Hst).
    exists closedEmpty. by repeat split.
  - set (call := mkHandlerCall (UnaryHandler (HUser f))
                   (JStream (w_fresh w)) opts None).
    assert (collecting ih id (w_fresh w) call (x :: xs) w w1)
      as (Hcalls & Hs & Hc).
    { unfold w1. cbn [foldl runListener].
      apply (onSend_chunks rt emit' ih event (HUser f) id opts (w_fresh w)
               call xs Hid [x]).
      by apply onSend_first_chunk. }
    set (s := mkStream (x :: xs) true Readable []).
    destruct (onSendStreamEnd_with_controller rt emit' ih event (HUser f)
                (requestEndEnvelope event id opts) id (w_fresh w)
                (mkStream (x :: xs) false Readable []) s w1 Hend Hc Hs
                eq_refl) as (Hs2 & Hst & Hcalls2 & _).
    exists s. split; [unfold w2; cbn [runListener]; by rewrite Hcalls2|].
    split; [done|]. split; [done|]. split; [done|].
    split; [|done]. by apply (closedWith_drain s).
Qed.

(** ** invoke.ts: two handlers on one family *)







(** ** stream.ts with cancellation: a call that runs to its end *)








(** ** The request pump *)

(** A request stream its producer closed, holding [xs] unread. *)
Definition closedHolding (xs taken0 : list JsVal) : Stream :=
  mkStream xs true match xs with [] => Closed | _ => Readable end taken0.

Definition signalQuiet (kind : PumpKind) (w : World) : Prop :=
  match kind with
  | PumpStream signal => signalAborted signal w = false
  | _ => True
  end.

(** The pump of call [id] is the only microtask, nothing listens on the
    family's send and send-stream-end descriptors, and the signal of the
    call, if it has one, has not tripped. *)
Definition pumping (kind : PumpKind) (event : InvokeEventa) (id : string)
    (req : nat) (opts : Opts) (before : list Envelope)
    (sent rest taken0 : list JsVal) (w : World) : Prop :=
  w_tasks w = [TPump kind event id req opts]
  ∧ w_emitted w = before ++ (chunkEnvelope event id opts <$> sent)
  ∧ w_streams w !! req = Some (closedHolding rest (taken0 ++ sent))
  ∧ unheard (sendEvent event) w
  ∧ unheard (sendEventStreamEnd event) w
  ∧ signalQuiet kind w.

Lemma pumping_tick rt depth kind event id req opts before sent x rest taken0
    w :
  pumping kind event id req opts before sent (x :: rest) taken0 w ->
  pumping kind event id req opts before (sent ++ [x]) rest taken0
    (tick rt depth w).
Proof.
  intros (Ht & Hem & Hs & Hsend & Hend & Hsig).
  unfold tick. rewrite Ht. cbn [runTask]. unfold runPump. fields.
  rewrite Hs.
  assert (match kind with
          | PumpStream signal =>
              signalAborted signal
                (set_tasks (fun _ => []) w)
          | _ => false
          end = false) as ->.
  { by destruct kind. }
  change (streamRead (closedHolding (x :: rest) (taken0 ++ sent)))
    with (Chunk x, closedHolding rest ((taken0 ++ sent) ++ [x])).
  cbv iota. rewrite emit_unheard by exact Hsend.
  unfold pumping. fields.
  split; [done|]. split; [by rewrite Hem, fmap_app, app_assoc|].
  split; [by rewrite lookup_insert_eq, <- app_assoc|].
  split; [exact Hsend|]. split; [exact Hend|]. by destruct kind.
Qed.

Lemma pumping_last rt depth kind event id req opts before sent taken0 w :
  pumping kind event id req opts before sent [] taken0 w ->
  let w' := tick rt depth w in
  w_tasks w' = []
  ∧ w_emitted w'
    = before ++ (chunkEnvelope event id opts <$> sent)
      ++ [requestEndEnvelope event id opts]
  ∧ w_streams w' !! req = Some (closedHolding [] (taken0 ++ sent)).
Proof.
  intros (Ht & Hem & Hs & Hsend & Hend & Hsig) w'.
  unfold w', tick. rewrite Ht. cbn [runTask]. unfold runPump. fields.
  rewrite Hs.
  change (streamRead (closedHolding [] (taken0 ++ sent)))
    with (Done, closedHolding [] (taken0 ++ sent)).
  cbv iota. rewrite emit_unheard by exact Hend. fields.
  split; [done|]. split; [by rewrite Hem, <- app_assoc|done].
Qed.

(** X19.  The pump of a request stream that its producer closed holding
    [xs], on a context where nothing listens on the family's send and
    send-stream-end descriptors, for any of the three clients (the signal
    of a streaming call not tripped): in one turn per chunk and one more it
    emits a send envelope flagged [isReqStream] for each chunk, in order,
    and then send-stream-end; the request stream is read to its end and the
    pump is gone. *)
Theorem pump_sends_chunks_then_end
    rt depth kind event id req opts xs taken0 w :
  w_tasks w = [TPump kind event id req opts] ->
  w_streams w !! req = Some (closedHolding xs taken0) ->
  unheard (sendEvent event) w ->
  unheard (sendEventStreamEnd event) w ->
  signalQuiet kind w ->
  let w' := ticks rt depth (S (length xs)) w in
  w_emitted w'
  = w_emitted w ++ (chunkEnvelope event id opts <$> xs)
    ++ [requestEndEnvelope event id opts]
  ∧ w_tasks w' = []
  ∧ w_streams w' !! req = Some (mkStream [] true Closed (taken0 ++ xs)).
Proof.
  intros Ht Hs Hsend Hend Hsig.
  assert (forall rest sent W,
            pumping kind event id req opts (w_emitted w) sent rest taken0 W ->
            let W' := ticks rt depth (S (length rest)) W in
            w_tasks W' = []
            ∧ w_emitted W'
              = w_emitted w ++ (chunkEnvelope event id opts <$> sent ++ rest)
                ++ [requestEndEnvelope event id opts]
            ∧ w_streams W' !! req
              = Some (closedHolding [] (taken0 ++ sent ++ rest))) as Hrun.
  { induction rest as [|x rest IH]; intros sent W Hinv.
    - rewrite app_nil_r. cbn [length ticks].
      by apply (pumping_last rt depth kind).
    - cbn [length].
      change (ticks rt depth (S (S (length rest))) W)
        with (ticks rt depth (S (length rest)) (tick rt depth W)).
      replace (sent ++ x :: rest) with ((sent ++ [x]) ++ rest)
        by (by rewrite <- app_assoc).
      apply (IH (sent ++ [x])). by apply pumping_tick. }
  intros w'. destruct (Hrun xs [] w) as (H1 & H2 & H3).
  { unfold pumping. rewrite !app_nil_r. by repeat split. }
  fold w' in H1, H2, H3. cbn [app] in H2, H3. by repeat split.
Qed.

(** ** stream.ts: toStreamHandler *)

(** The values the handler passed to [emit], in order. *)
Definition emitsOf (trace : list BridgeEvent) : list JsVal :=
  omap (fun ev => match ev with HandlerEmits x => Some x | _ => None end)
       trace.

(** The handler's promise has not settled in this event. *)
Definition unsettled (ev : BridgeEvent) : Prop :=
  match ev with
  | HandlerEmits _ | GeneratorResumes => True
  | _ => False
  end.

Definition chunkEntry (x : JsVal) : JsVal * bool := (x, false).

Definition endEntry : JsVal * bool := (JUndefined, true).

(** The handler is still running: every emitted value is in [values], a
    promise is pending behind them, and the generator has yielded the first
    of them. *)
Definition flowing (emits : list JsVal) (b : Bridge) : Prop :=
  b_resolved b = chunkEntry <$> emits
  ∧ b_pending b = true
  ∧ b_handlerError b = JNull
  ∧ b_status b = Suspended
  ∧ b_i b = length (b_yielded b)
  ∧ exists rest, emits = b_yielded b ++ rest.

(** The handler's promise settled without an error the generator sees:
    the end marker is behind the emitted values. *)
Definition draining (emits : list JsVal) (b : Bridge) : Prop :=
  b_resolved b = (chunkEntry <$> emits) ++ [endEntry]
  ∧ truthy (b_handlerError b) = false
  ∧ b_status b = Suspended
  ∧ b_i b = length (b_yielded b)
  ∧ exists rest, emits = b_yielded b ++ rest.

Lemma emitsOf_app t1 t2 : emitsOf (t1 ++ t2) = emitsOf t1 ++ emitsOf t2.
Proof. apply omap_app. Qed.

Lemma lookup_chunks (yielded rest : list JsVal) (tail : list (JsVal * bool)) :
  ((chunkEntry <$> yielded ++ rest) ++ tail) !! length yielded
  = match rest with
    | x :: _ => Some (x, false)
    | [] => tail !! 0
    end.
Proof.
  rewrite fmap_app, <- app_assoc.
  rewrite lookup_app_r by (by rewrite length_fmap).
  rewrite length_fmap, Nat.sub_diag. by destruct rest.
Qed.

Ltac bridge :=
  cbn [b_resolved b_pending b_handlerError b_i b_status b_yielded] in *.

Lemma flowing_step emits b ev :
  unsettled ev -> flowing emits b ->
  flowing (emits ++ emitsOf [ev]) (bridgeStep b ev).
Proof.
  intros Hev (Hres & Hpend & Herr & Hst & Hi & rest & Hrest).
  destruct ev as [x| | |]; try done; cbn [bridgeStep emitsOf omap].
  - unfold bridgeEmit, bridgeResolve. rewrite Hpend.
    unfold flowing. bridge. rewrite Hres, fmap_app.
    repeat split; try done. exists (rest ++ [x]).
    by rewrite Hrest, <- app_assoc.
  - rewrite app_nil_r.
    pose proof (lookup_chunks (b_yielded b) rest []) as Hl.
    rewrite app_nil_r, <- Hrest, <- Hres, <- Hi in Hl.
    destruct rest as [|x rest].
    + assert (bridgeResume b = b) as ->; [|by repeat split; try exists []].
      unfold bridgeResume. rewrite Hst, Hl. cbn [lookup].
      rewrite Hpend, Hres, length_fmap, Hrest, app_nil_r, Hi, Nat.eqb_refl.
      done.
    + unfold bridgeResume. rewrite Hst, Hl, Herr. cbn [truthy].
      unfold flowing. bridge. rewrite length_app. cbn [length].
      repeat split; try done; [lia|].
      exists rest. by rewrite Hrest, <- app_assoc.
Qed.

Lemma flowing_run pre : forall emits b,
  Forall unsettled pre -> flowing emits b ->
  flowing (emits ++ emitsOf pre) (foldl bridgeStep b pre).
Proof.
  induction pre as [|ev pre IH]; intros emits b Hpre Hb; cbn [foldl].
  - by rewrite app_nil_r.
  - apply Forall_cons in Hpre as [Hev Hpre].
    change (ev :: pre) with ([ev] ++ pre). rewrite emitsOf_app, app_assoc.
    apply IH; [done|]. by apply flowing_step.
Qed.

Lemma flowing_new : flowing [] newBridge.
Proof. unfold flowing. repeat split; try done. by exists []. Qed.

Lemma resumes_settled n : forall b,
  b_status b ≠ Suspended ->
  foldl bridgeStep b (replicate n GeneratorResumes) = b.
Proof.
  induction n as [|n IH]; intros b Hb; cbn [replicate foldl]; [done|].
  assert (bridgeResume b = b) as Hsame.
  { unfold bridgeResume. by destruct (b_status b). }
  cbn [bridgeStep]. rewrite Hsame. by apply IH.
Qed.

Lemma draining_resumes emits n : forall b,
  draining emits b ->
  length emits - b_i b < n ->
  let b' := foldl bridgeStep b (replicate n GeneratorResumes) in
  b_status b' = Completed ∧ b_yielded b' = emits.
Proof.
  induction n as [|n IH]; intros b (Hres & Herr & Hst & Hi & rest & Hrest) Hn;
    [lia|].
  cbn [replicate foldl bridgeStep].
  pose proof (lookup_chunks (b_yielded b) rest [endEntry]) as Hl.
  rewrite <- Hrest, <- Hres, <- Hi in Hl.
  destruct rest as [|x rest].
  - assert (bridgeResume b
            = mkBridge (b_resolved b) (b_pending b) (b_handlerError b)
                       (S (b_i b)) Completed (b_yielded b)) as ->.
    { unfold bridgeResume. rewrite Hst, Hl, Herr. done. }
    rewrite resumes_settled by done. bridge.
    by rewrite Hrest, app_nil_r.
  - assert (bridgeResume b
            = mkBridge (b_resolved b) (b_pending b) (b_handlerError b)
                       (S (b_i b)) Suspended (b_yielded b ++ [x])) as ->.
    { unfold bridgeResume. rewrite Hst, Hl, Herr. done. }
    apply IH.
    + unfold draining. bridge. rewrite length_app. cbn [length].
      repeat split; try done; [lia|].
      exists rest. by rewrite Hrest, <- app_assoc.
    + bridge. rewrite Hrest, Hi, !length_app in *. cbn [length] in *. lia.
Qed.

Lemma flowing_settles emits err b :
  flowing emits b ->
  truthy err = false ->
  draining emits (bridgeReturned b) ∧ draining emits (bridgeRejected err b).
Proof.
  intros (Hres & Hpend & Herr & Hst & Hi & rest & Hrest) Hfalsy.
  unfold bridgeReturned, bridgeRejected, bridgeResolve. bridge.
  rewrite Hpend. unfold draining. bridge. rewrite Hres, Herr.
  repeat split; try done; by exists rest.
Qed.

(** Once the generator has ended or thrown, nothing moves it. *)
Lemma settled_step b ev :
  b_status b ≠ Suspended ->
  b_status (bridgeStep b ev) = b_status b
  ∧ b_yielded (bridgeStep b ev) = b_yielded b.
Proof.
  intros Hb. destruct ev; cbn [bridgeStep].
  - unfold bridgeEmit, bridgeResolve. by destruct (b_pending b).
  - unfold bridgeReturned, bridgeResolve. by destruct (b_pending b).
  - unfold bridgeRejected, bridgeResolve. bridge.
    by destruct (b_pending b).
  - unfold bridgeResume.
    destruct (b_status b) eqn:Hs; [by destruct Hb| |]; cbv iota; by rewrite Hs.
Qed.

Lemma settled_run post : forall b,
  b_status b ≠ Suspended ->
  b_status (foldl bridgeStep b post) = b_status b
  ∧ b_yielded (foldl bridgeStep b post) = b_yielded b.
Proof.
  induction post as [|ev post IH]; intros b Hb; cbn [foldl]; [done|].
  destruct (settled_step b ev Hb) as [Hs Hy].
  destruct (IH (bridgeStep b ev)) as [Hs' Hy']; [by rewrite Hs|].
  by rewrite Hs', Hy', Hs, Hy.
Qed.

(** X20.  A handler wrapped by [toStreamHandler], whatever it emits and
    however the generator's turns fall between its emits.  If its promise
    is fulfilled, the generator, resumed often enough, yields every value
    that was emitted, in order, and ends.  If it is rejected with a truthy
    error, the generator throws that error the next time it resumes: the
    values emitted but not yet yielded by then are never yielded.  If it is
    rejected with a falsy value ([undefined], [null], 0, an empty string),
    [if (handlerError)] does not see it: the generator yields every value
    and ends as if the handler had returned. *)
Theorem toStreamHandler_settles pre :
  Forall unsettled pre ->
  (forall n, length (emitsOf pre) < n ->
     let b := bridgeRun (pre ++ [HandlerReturns]
                         ++ replicate n GeneratorResumes) in
     b_status b = Completed ∧ b_yielded b = emitsOf pre)
  ∧ (forall err post, truthy err = true ->
       let b := bridgeRun (pre ++ [HandlerRejects err; GeneratorResumes]
                           ++ post) in
       b_status b = Failed err
       ∧ b_yielded b = b_yielded (bridgeRun pre)
       ∧ b_yielded b `prefix_of` emitsOf pre)
  ∧ (forall err n, truthy err = false -> length (emitsOf pre) < n ->
       let b := bridgeRun (pre ++ [HandlerRejects err]
                           ++ replicate n GeneratorResumes) in
       b_status b = Completed ∧ b_yielded b = emitsOf pre).
Proof.
  intros Hpre.
  pose proof (flowing_run pre [] newBridge Hpre flowing_new) as Hflow.
  cbn [app] in Hflow. fold (bridgeRun pre) in Hflow.
  split; [|split].
  - intros n Hn. unfold bridgeRun. rewrite !foldl_app. cbn [foldl bridgeStep].
    fold (bridgeRun pre).
    destruct (flowing_settles _ JNull _ Hflow eq_refl) as [Hdrain _].
    apply draining_resumes; [done|lia].
  - intros err post Herr. unfold bridgeRun. rewrite foldl_app.
    cbn [app foldl bridgeStep]. fold (bridgeRun pre).
    destruct Hflow as (Hres & Hpend & _ & Hst & Hi & rest & Hrest).
    set (b0 := bridgeResume (bridgeRejected err (bridgeRun pre))).
    assert (b_status b0 = Failed err
            ∧ b_yielded b0 = b_yielded (bridgeRun pre)) as [Hs Hy].
    { pose proof (lookup_chunks (b_yielded (bridgeRun pre)) rest [endEntry])
        as Hl.
      rewrite <- Hrest, <- Hres, <- Hi in Hl. unfold endEntry in Hl.
      unfold b0, bridgeRejected, bridgeResolve. bridge. rewrite Hpend.
      unfold bridgeResume. bridge. rewrite Hst, Hl, Herr.
      by destruct rest. }
    destruct (settled_run post b0) as [Hs' Hy']; [by rewrite Hs|].
    rewrite Hs', Hy', Hs, Hy. split; [done|]. split; [done|].
    rewrite Hrest. by apply prefix_app_r.
  - intros err n Herr Hn. unfold bridgeRun. rewrite !foldl_app.
    cbn [foldl bridgeStep]. fold (bridgeRun pre).
    destruct (flowing_settles _ err _ Hflow Herr) as [_ Hdrain].
    apply draining_resumes; [done|lia].
Qed.

(** The handler's promise settles in this event. *)
Definition settles (ev : BridgeEvent) : Prop :=
  match ev with
  | HandlerReturns | HandlerRejects _ => True
  | _ => False
  end.

(** What holds of a call after any sequence of events: [values] holds the
    values emitted before the promise settled ([front]), then, once it
    settled, an end marker and whatever was resolved later; the generator
    has yielded some of the first of [front]; and [handlerError] is [null]
    or an error the handler rejected with. *)
Definition sound (trace : list BridgeEvent) (b : Bridge) : Prop :=
  exists front tail,
    b_resolved b = (chunkEntry <$> front) ++ tail
    ∧ (tail = [] -> b_pending b = true ∧ front = emitsOf trace)
    ∧ (tail ≠ [] ->
       (exists tl, tail = endEntry :: tl)
       ∧ front `prefix_of` emitsOf trace ∧ Exists settles trace)
    ∧ (b_handlerError b = JNull ∨ HandlerRejects (b_handlerError b) ∈ trace)
    ∧ b_yielded b `prefix_of` front
    ∧ match b_status b with
      | Suspended => b_i b = length (b_yielded b)
      | Completed => tail ≠ []
      | Failed e => HandlerRejects e ∈ trace ∧ truthy e = true
      end.

Lemma sound_resolve trace ev b :
  settles ev ->
  (b_handlerError b = JNull ∨ HandlerRejects (b_handlerError b) ∈ trace ++ [ev])
  -> (exists front tail,
        b_resolved b = (chunkEntry <$> front) ++ tail
        ∧ (tail = [] -> b_pending b = true ∧ front = emitsOf trace)
        ∧ (tail ≠ [] ->
           (exists tl, tail = endEntry :: tl)
           ∧ front `prefix_of` emitsOf trace ∧ Exists settles trace)
        ∧ b_yielded b `prefix_of` front
        ∧ match b_status b with
          | Suspended => b_i b = length (b_yielded b)
          | Completed => tail ≠ []
          | Failed e => HandlerRejects e ∈ trace ∧ truthy e = true
          end)
  -> sound (trace ++ [ev]) (bridgeResolve endEntry b).
Proof.
  intros Hev Herr (front & tail & Hres & Hopen & Hclosed & Hy & Hst).
  assert (emitsOf (trace ++ [ev]) = emitsOf trace) as Hsame.
  { rewrite emitsOf_app. destruct ev; try done; by rewrite app_nil_r. }
  assert (Exists settles (trace ++ [ev])) as Hsettled.
  { apply Exists_app. right. by constructor. }
  unfold bridgeResolve. destruct (b_pending b) eqn:Hpend.
  - exists front, (tail ++ [endEntry]). bridge.
    rewrite Hres, <- app_assoc. split; [done|].
    split; [by intros [_ ?]%app_eq_nil|]. split.
    { intros _. rewrite Hsame. split; [|split; [|done]].
      - destruct tail as [|hd tl]; [by exists []|].
        destruct Hclosed as ((tl' & [= -> ->]) & _); [done|].
        by eexists.
      - destruct tail as [|hd tl]; [by rewrite (proj2 (Hopen eq_refl))|].
        by destruct Hclosed as (_ & ? & _). }
    split; [done|]. split; [done|].
    destruct (b_status b) as [| |e]; [done|by intros [_ ?]%app_eq_nil|].
    destruct Hst as [Hin He]. split; [|done].
    apply elem_of_app. by left.
  - exists front, tail. split; [done|].
    split; [intros Ht; destruct (Hopen Ht) as [? _]; congruence|].
    split.
    { intros Ht. destruct (Hclosed Ht) as (? & ? & ?).
      rewrite Hsame. by repeat split. }
    split; [done|]. split; [done|].
    destruct (b_status b) as [| |e]; [done|done|].
    destruct Hst as [Hin He]. split; [|done].
    apply elem_of_app. by left.
Qed.

Lemma sound_step trace ev b :
  sound trace b -> sound (trace ++ [ev]) (bridgeStep b ev).
Proof.
  intros (front & tail & Hres & Hopen & Hclosed & Herr & Hy & Hst).
  destruct ev as [x| |err|]; cbn [bridgeStep].
  - assert (emitsOf (trace ++ [HandlerEmits x]) = emitsOf trace ++ [x])
      as Hemits by by rewrite emitsOf_app.
    assert (match b_status b with
            | Suspended => b_i b = length (b_yielded b)
            | Completed => True
            | Failed e =>
                HandlerRejects e ∈ trace ++ [HandlerEmits x]
                ∧ truthy e = true
            end) as Hst'.
    { destruct (b_status b) as [| |e]; [done|done|].
      destruct Hst as [Hin He]. split; [|done]. apply elem_of_app. by left. }
    assert (b_handlerError b = JNull
            ∨ HandlerRejects (b_handlerError b) ∈ trace ++ [HandlerEmits x])
      as Herr'.
    { destruct Herr as [?|?]; [by left|right]. apply elem_of_app. by left. }
    unfold bridgeEmit, bridgeResolve. destruct (b_pending b) eqn:Hpend.
    + destruct tail as [|hd tl].
      * exists (front ++ [x]), []. bridge.
        rewrite Hres, !app_nil_r, fmap_app, Hemits.
        destruct (Hopen eq_refl) as [_ ->].
        split; [done|]. split; [done|]. split; [done|]. split; [done|].
        split; [by apply prefix_app_r|].
        destruct (b_status b) as [| |e]; [done| |done].
        by destruct Hst.
      * destruct Hclosed as ((tl' & Htl) & Hfront & Hsettled); [done|].
        exists front, ((hd :: tl) ++ [chunkEntry x]). bridge.
        rewrite Hres, <- app_assoc. split; [done|].
        split; [done|]. split.
        { intros _. split; [by rewrite Htl; eexists|].
          split; [rewrite Hemits; by apply prefix_app_r|].
          apply Exists_app. by left. }
        split; [done|]. split; [done|].
        by destruct (b_status b) as [| |e].
    + destruct tail as [|hd tl];
        [destruct (Hopen eq_refl) as [? _]; congruence|].
      destruct Hclosed as ((tl' & Htl) & Hfront & Hsettled); [done|].
      exists front, (hd :: tl). bridge. split; [done|]. split; [done|].
      split.
      { intros _. split; [by rewrite Htl; eexists|].
        split; [rewrite Hemits; by apply prefix_app_r|].
        apply Exists_app. by left. }
      split; [done|]. split; [done|].
      by destruct (b_status b) as [| |e].
  - apply sound_resolve; [done| |by exists front, tail].
    destruct Herr as [?|?]; [by left|right]. apply elem_of_app. by left.
  - unfold bridgeRejected.
    apply (sound_resolve trace (HandlerRejects err)); [done| |].
    + right. bridge. apply elem_of_app. right. by left.
    + exists front, tail. by bridge.
  - assert (emitsOf (trace ++ [GeneratorResumes]) = emitsOf trace) as Hemits
      by (by rewrite emitsOf_app, app_nil_r).
    assert (forall P : BridgeEvent, P ∈ trace ->
                                    P ∈ trace ++ [GeneratorResumes]) as Hin.
    { intros P HP. apply elem_of_app. by left. }
    assert (sound (trace ++ [GeneratorResumes]) b) as Hsame.
    { exists front, tail. rewrite Hemits. split; [done|]. split; [done|].
      split.
      { intros Ht. destruct (Hclosed Ht) as (? & ? & ?).
        split; [done|]. split; [done|]. apply Exists_app. by left. }
      split; [destruct Herr as [?|?]; [by left|right; by apply Hin]|].
      split; [done|].
      destruct (b_status b) as [| |e]; [done|done|].
      destruct Hst as [? ?]. split; [by apply Hin|done]. }
    unfold bridgeResume. destruct (b_status b) as [| |e] eqn:Hstatus;
      [|exact Hsame|exact Hsame].
    destruct Hy as [rest Hrest].
    pose proof (lookup_chunks (b_yielded b) rest tail) as Hl.
    rewrite <- Hrest, <- Hres, <- Hst in Hl. rewrite Hl. clear Hl.
    destruct rest as [|x rest]; [destruct tail as [|hd tl]|].
    + cbn [lookup]. destruct (Hopen eq_refl) as [Hpend _].
      rewrite Hpend, Hres, app_nil_r, length_fmap, Hrest, app_nil_r, Hst,
        Nat.eqb_refl. cbn [andb]. exact Hsame.
    + destruct Hclosed as ((tl' & [= -> ->]) & Hfront & Hsettled); [done|].
      cbn [lookup endEntry].
      destruct (truthy (b_handlerError b)) eqn:Htruthy.
      * exists front, (endEntry :: tl'). bridge. rewrite Hemits.
        split; [done|]. split; [done|]. split.
        { intros _. split; [by eexists|]. split; [done|].
          apply Exists_app. by left. }
        split; [destruct Herr as [?|?]; [by left|right; by apply Hin]|].
        split; [by exists []; rewrite Hrest|].
        destruct Herr as [Hnull|Herr]; [by rewrite Hnull in Htruthy|].
        split; [by apply Hin|done].
      * exists front, (endEntry :: tl'). bridge. rewrite Hemits.
        split; [done|]. split; [done|]. split.
        { intros _. split; [by eexists|]. split; [done|].
          apply Exists_app. by left. }
        split; [destruct Herr as [?|?]; [by left|right; by apply Hin]|].
        split; [by exists []; rewrite Hrest|done].
    + destruct (truthy (b_handlerError b)) eqn:Htruthy.
      * exists front, tail. bridge. rewrite Hemits.
        split; [done|]. split; [done|]. split.
        { intros Ht. destruct (Hclosed Ht) as (? & ? & ?).
          split; [done|]. split; [done|]. apply Exists_app. by left. }
        split; [destruct Herr as [?|?]; [by left|right; by apply Hin]|].
        split; [by exists (x :: rest)|].
        destruct Herr as [Hnull|Herr]; [by rewrite Hnull in Htruthy|].
        split; [by apply Hin|done].
      * exists front, tail. bridge. rewrite Hemits.
        split; [done|]. split; [done|]. split.
        { intros Ht. destruct (Hclosed Ht) as (? & ? & ?).
          split; [done|]. split; [done|]. apply Exists_app. by left. }
        split; [destruct Herr as [?|?]; [by left|right; by apply Hin]|].
        split; [exists rest; by rewrite Hrest, <- app_assoc|].
        rewrite length_app. cbn [length]. lia.
Qed.

Lemma sound_run trace : sound trace (bridgeRun trace).
Proof.
  induction trace as [|ev trace IH] using rev_ind.
  - exists [], []. repeat split; try done. by left.
  - unfold bridgeRun. rewrite foldl_app. cbn [foldl]. by apply sound_step.
Qed.

(** X21.  Whatever the handler wrapped by [toStreamHandler] does and
    whenever the generator resumes, even if the handler emits after its
    promise settled: the values the generator has yielded are the first of
    the values that were emitted, in order; it throws only an error the
    handler rejected with, and a truthy one; and it ends or throws only
    once the handler's promise has settled. *)
Theorem toStreamHandler_never_invents trace :
  let b := bridgeRun trace in
  b_yielded b `prefix_of` emitsOf trace
  ∧ (forall e, b_status b = Failed e ->
       HandlerRejects e ∈ trace ∧ truthy e = true)
  ∧ (b_status b ≠ Suspended -> Exists settles trace).
Proof.
  intros b.
  destruct (sound_run trace)
    as (front & tail & Hres & Hopen & Hclosed & Herr & Hy & Hst).
  fold b in Hres, Hopen, Hclosed, Herr, Hy, Hst.
  assert (front `prefix_of` emitsOf trace) as Hfront.
  { destruct tail as [|hd tl]; [by rewrite (proj2 (Hopen eq_refl))|].
    by destruct Hclosed as (_ & ? & _). }
  split; [by etrans|]. split.
  - intros e He. by rewrite He in Hst.
  - intros Hb. destruct (b_status b) as [| |e] eqn:Hstatus; [done| |].
    + by destruct (Hclosed Hst) as (_ & _ & ?).
    + destruct Hst as [Hin _]. apply Exists_exists.
      by exists (HandlerRejects e).
Qed.

(** ** Worked examples for the further properties *)

Definition demoEvents : list (string * InvokeEventa) :=
  [("double", invokeEventaOf "double"); ("greet", invokeEventaOf "greet")].

Definition demoHandlers : list (string * Handler) :=
  [("greet", HUser 1); ("double", HUser 0)].

Lemma defineInvokeHandlers_keys_must_match_example :
  exists disposers,
    (defineInvokeHandlers demoEvents demoHandlers emptyWorld).1
    = inr disposers
    ∧ (dr_own disposers).*1 = ["double"; "greet"]
    ∧ dr_prototype disposers = None.
Proof.
  destruct (defineInvokeHandlers_keys_must_match demoEvents demoHandlers
              emptyWorld) as [H _].
  - apply (bool_decide_unpack _). vm_compute. exact I.
  - apply (bool_decide_unpack _). vm_compute. exact I.
  - destruct H as (disposers & H1 & H2 & _ & H4 & _); [apply perm_swap|].
    exists disposers. split; [exact H1|]. split; [exact H2|].
    apply H4. apply (bool_decide_unpack _). vm_compute. exact I.
Defined.

(** Events and handlers with an own key [__proto__]: the disposer of that
    key becomes the prototype of the record, which has no own property of
    that name. *)
Definition demoProtoEvents : list (string * InvokeEventa) :=
  [("double", invokeEventaOf "double");
   ("__proto__", invokeEventaOf "greet")].

Definition demoProtoHandlers : list (string * Handler) :=
  [("__proto__", HUser 1); ("double", HUser 0)].

Lemma defineInvokeHandlers_relinks_the_record :
  exists own disposer w,
    defineInvokeHandlers demoProtoEvents demoProtoHandlers emptyWorld
    = (inr (mkDisposerRecord (Some disposer) own), w)
    ∧ own.*1 = ["double"]
    ∧ d_event disposer = invokeEventaOf "greet"
    ∧ d_handler disposer = HUser 1.
Proof. eexists _, _, _. split; [vm_compute; reflexivity|done]. Qed.

(** A unary call nobody has answered yet, and an envelope on its receive
    descriptor that carries the invokeId of another call. *)
Definition demoPending : World :=
  (invoke demoRuntime 1 0 demoEvent (JNum 7) None emptyWorld).2.

Definition demoForeign : Envelope :=
  mkEnvelope (perCall (receiveEvent demoEvent) "call0")
             (receiveBody "call7" (JNum 1)) None.

Lemma client_ignores_foreign_invokeId_example :
  emit demoRuntime 2 demoForeign demoPending
  = set_emitted (fun l => l ++ [demoForeign]) demoPending.
Proof.
  apply client_ignores_foreign_invokeId.
  vm_compute. repeat constructor.
Defined.



(** A streaming call whose request is a stream that holds one chunk, made
    with the caller's signal 0, which trips before the pump runs. *)
Definition demoAbortedPump : World :=
  abortSignal demoRuntime 1 0 (JStr "stop")
    (streamInvoke demoRuntime 1 demoEvent (JStream 7) (Some 0) None
       (set_streams
          (fun m => <[7 := mkStream [JNum 1] false Readable []]> m)
          (set_signals (fun m => <[0 := mkSignal false JUndefined []]> m)
             emptyWorld))).2.

Lemma pump_after_abort_example :
  let w' := ticks demoRuntime 1 2 demoAbortedPump in
  w_emitted w' = w_emitted demoAbortedPump
  ∧ w_tasks w' = []
  ∧ w_streams w' !! 7 = Some (mkStream [] false Closed [JNum 1]).
Proof.
  destruct (pump_after_abort demoRuntime 1 0 demoEvent "call0" 7 None
              (mkStream [JNum 1] false Readable []) demoAbortedPump)
    as [H _].
  - vm_compute. reflexivity.
  - vm_compute. reflexivity.
  - vm_compute. reflexivity.
  - destruct (H ltac:(left; discriminate) 1) as (H1 & H2 & _).
    split; [exact H1|]. split; [exact H2|]. vm_compute. reflexivity.
Defined.



(** The same call when the signal has tripped with an object without
    prototype as its reason: the call throws the TypeError of the
    conversion after it has emitted send-abort, the request is not sent and
    the three listeners stay. *)
Lemma call_with_tripped_signal_throws :
  let w := set_signals (fun m => <[0 := mkSignal true (JObj PNull []) []]> m)
             emptyWorld in
  let k := mkStreamCall demoEvent "call0" 0 (Some 0) None in
  let r := streamInvoke demoRuntime 1 demoEvent (JNum 1) (Some 0) None w in
  streamInvokeThrows demoRuntime 1 demoEvent (Some 0) None w
  = Some (JErr "TypeError" "Cannot convert object to primitive value")
  ∧ w_emitted r.2 = [abortEnvelope k (JObj PNull [])]
  ∧ w_streams r.2 !! 0 = Some newStream
  ∧ listenersOf (perCall (receiveEvent demoEvent) "call0") r.2
    = [LStreamReceive k].
Proof. vm_compute. repeat split. Qed.

Lemma cancel_leaves_signal_example :
  let k := demoSignalled.1 in
  let w1 := cancel demoRuntime 1 k (JStr "enough") demoSignalled.2 in
  let w2 := abortSignal demoRuntime 1 0 (JStr "stop") w1 in
  w_emitted w1
  = w_emitted demoSignalled.2 ++ [abortEnvelope k (JStr "enough")]
  ∧ w_emitted w2 = w_emitted w1.
Proof.
  destruct (cancel_leaves_signal demoRuntime 1 0 (JStr "enough") (JStr "stop")
              JUndefined [demoSignalled.1] demoSignalled.1 newStream
              demoSignalled.2)
    as (H1 & _ & _ & _ & _ & H6).
  - vm_compute. reflexivity.
  - reflexivity.
  - vm_compute. reflexivity.
  - reflexivity.
  - split; [vm_compute; lia|].
    intros key c Hc. exfalso.
    assert (w_streamStates demoSignalled.2 = ∅) as Hempty
      by (vm_compute; reflexivity).
    rewrite Hempty in Hc. exact (lookup_empty_Some _ _ Hc).
  - vm_compute. repeat constructor.
  - split; [exact H1|exact (H6 eq_refl)].
Defined.

Lemma demo_ids n : nanoid demoRuntime n ≠ "".
Proof. discriminate. Qed.

Lemma serializer_returns_within_caps_example :
  exists v' st,
    serializeInvokeFunctionPayload demoRuntime
      (DEFAULT_FUNCTION_STUB_OPTIONS true) demoPayload emptyWorld
    = WOk v' st
    ∧ length (ser_disposers st) = 1.
Proof.
  destruct (serializer_returns_within_caps demoRuntime
              (DEFAULT_FUNCTION_STUB_OPTIONS true) demoPayload emptyWorld)
    as (v' & st & H1 & _ & H3 & _).
  - reflexivity.
  - exact demo_ids.
  - unfold unshared. cbn. repeat constructor.
  - vm_compute. lia.
  - vm_compute. lia.
  - vm_compute. reflexivity.
  - exists v', st. split; [exact H1|exact H3].
Defined.

Lemma remote_payload_round_trip_example :
  exists v1 st1 v2 st2,
    serializeInvokeFunctionPayload demoRuntime
      (DEFAULT_FUNCTION_STUB_OPTIONS true) demoPayload emptyWorld
    = WOk v1 st1
    ∧ deserializeInvokeFunctionPayload demoRuntime
        (DEFAULT_FUNCTION_STUB_OPTIONS true) v1 (ser_world st1)
      = WOk v2 st2
    ∧ rebuilt (revived (serving demoRuntime
                          (DEFAULT_FUNCTION_STUB_OPTIONS true) st1))
              demoPayload v2.
Proof.
  destruct (remote_payload_round_trip demoRuntime
              (DEFAULT_FUNCTION_STUB_OPTIONS true) demoPayload emptyWorld
              (ser_world
                 (walkedState
                    (serializeInvokeFunctionPayload demoRuntime
                       (DEFAULT_FUNCTION_STUB_OPTIONS true) demoPayload
                       emptyWorld))))
    as (v1 & st1 & v2 & st2 & H1 & H2 & H3 & _).
  - reflexivity.
  - exact demo_ids.
  - unfold unshared. cbn. repeat constructor.
  - intros v1 st1 H. vm_compute in H. injection H as <- _.
    unfold unshared. cbn. repeat constructor.
  - vm_compute. lia.
  - vm_compute. lia.
  - vm_compute. reflexivity.
  - vm_compute. reflexivity.
  - exists v1, st1, v2, st2. split; [exact H1|]. split; [|exact H3].
    rewrite H1 in H2. exact H2.
Defined.

(** Options that allow no nesting, and a function in an array. *)
Definition demoFlat : StubOptions :=
  {| allow := true; maxDepth := 0; maxFunctions := 32;
     tagPrefix := "eventa-invoke-fn-"; onDisallowedTag := Ignore;
     autoDisposeMs := 0; strict := false |}.

Lemma function_under_deepest_node_does_not_come_back_example :
  exists v1 st1,
    serializeInvokeFunctionPayload demoRuntime demoFlat
      (JArr [JFun (FUser 0)]) emptyWorld = WOk v1 st1
    ∧ throws (deserializeInvokeFunctionPayload demoRuntime demoFlat v1
                emptyWorld).
Proof.
  apply (function_under_deepest_node_does_not_come_back demoRuntime demoFlat
           (JArr [JFun (FUser 0)]) emptyWorld emptyWorld).
  - reflexivity.
  - exact demo_ids.
  - unfold unshared. cbn. repeat constructor.
  - intros v1 st1 H. vm_compute in H. injection H as <- _.
    unfold unshared. cbn. repeat constructor.
  - vm_compute. lia.
  - vm_compute. lia.
  - reflexivity.
  - reflexivity.
  - vm_compute. lia.
Defined.

Lemma shared_container_is_walked_once_example :
  let x := JObj PObject [("f", JFun (FUser 0))] in
  exists stub st,
    serializeInvokeFunctionPayload demoSharingRuntime demoOneFunction
      (JArr [x; x]) emptyWorld
    = WOk (JArr [JObj PNull [("f", stub)]; JObj PNull [("f", stub)]]) st
    ∧ ser_functionCount st = 1.
Proof.
  intros x.
  destruct (shared_container_is_walked_once demoSharingRuntime
              demoOneFunction x emptyWorld eq_refl eq_refl eq_refl)
    as [H _].
  destruct (H _ _ ltac:(vm_compute; reflexivity)) as (st2 & H1 & H2 & _).
  eexists _, st2. split; [exact H1|exact H2].
Defined.

Lemma unary_server_collects_chunks_example :
  let deliver w x :=
    runListener demoRuntime (emit demoRuntime 1)
      (LOnSend 0 demoEvent (HUser 0))
      (chunkEnvelope demoEvent "call0" None x) w in
  let w1 := foldl deliver demoServer [JNum 1; JNum 2] in
  let w2 := runListener demoRuntime (emit demoRuntime 1)
              (LOnSendStreamEnd 0 demoEvent (HUser 0))
              (requestEndEnvelope demoEvent "call0" None) w1 in
  exists s,
    w_streams w2 !! 1 = Some s
    ∧ readMany 3 s = [Chunk (JNum 1); Chunk (JNum 2); Done].
Proof.
  destruct (unary_server_collects_chunks demoRuntime (emit demoRuntime 1) 0
              demoEvent 0 "call0" None [JNum 1; JNum 2] demoServer)
    as (s & _ & H2 & _ & _ & H5 & _).
  - discriminate.
  - reflexivity.
  - discriminate.
  - exists s. split; [exact H2|exact H5].
Defined.




(** A unary call whose request is a stream that was closed holding two
    chunks, on a context without a server. *)
Definition demoStreamedRequest : World :=
  (invoke demoRuntime 1 0 demoEvent (JStream 7) None
     (set_streams
        (fun m => <[7 := closedHolding [JNum 1; JNum 2] []]> m)
        emptyWorld)).2.

Lemma pump_sends_chunks_then_end_example :
  let w' := ticks demoRuntime 1 3 demoStreamedRequest in
  w_emitted w'
  = [chunkEnvelope demoEvent "call0" None (JNum 1);
     chunkEnvelope demoEvent "call0" None (JNum 2);
     requestEndEnvelope demoEvent "call0" None]
  ∧ w_tasks w' = [].
Proof.
  destruct (pump_sends_chunks_then_end demoRuntime 1 PumpInvoke demoEvent
              "call0" 7 None [JNum 1; JNum 2] [] demoStreamedRequest)
    as (H1 & H2 & _).
  - vm_compute. reflexivity.
  - vm_compute. reflexivity.
  - vm_compute. reflexivity.
  - vm_compute. reflexivity.
  - exact I.
  - split; [exact H1|exact H2].
Defined.

(** A handler that emits 1, lets the generator run, and emits 2. *)
Definition demoTrace : list BridgeEvent :=
  [HandlerEmits (JNum 1); GeneratorResumes; HandlerEmits (JNum 2)].

Lemma toStreamHandler_settles_example :
  b_yielded (bridgeRun (demoTrace ++ [HandlerReturns]
                        ++ replicate 3 GeneratorResumes))
  = [JNum 1; JNum 2]
  ∧ (let b := bridgeRun (demoTrace
                         ++ [HandlerRejects (JStr "boom"); GeneratorResumes]
                         ++ []) in
     b_status b = Failed (JStr "boom") ∧ b_yielded b = [JNum 1])
  ∧ b_status (bridgeRun (demoTrace ++ [HandlerRejects JUndefined]
                         ++ replicate 3 GeneratorResumes))
    = Completed.
Proof.
  destruct (toStreamHandler_settles demoTrace) as (H1 & H2 & H3).
  - repeat constructor.
  - destruct (H1 3) as [_ H1']; [vm_compute; lia|].
    destruct (H2 (JStr "boom") [] eq_refl) as (H2a & H2b & _).
    destruct (H3 JUndefined 3 eq_refl) as [H3' _]; [vm_compute; lia|].
    split; [exact H1'|]. split; [|exact H3'].
    split; [exact H2a|]. rewrite H2b. reflexivity.
Defined.
